(** * MeTaL label model: a shallow embedding of [metal/label_model/label_model.py]

    Part I translates the program, in the order of the source file:
    - exceptions and the error monad in which the Python methods run;
    - scipy's CSC sparse matrices with their three arrays;
    - IEEE special values ([inf], [nan]) over exact real arithmetic, needed
      because [_get_overlaps_matrix] divides by zero on purpose and repairs
      the NaNs afterwards;
    - the methods of [LabelModel]; those that assign attributes run in a
      state monad over the model object.
    Part II defines the vocabulary in which the properties are stated, Part
    III the example inputs, and Part IV proves the properties, method by
    method.

    Floating-point rounding is not modelled: finite numbers are real
    numbers.  Signed zeros are not modelled either; the only divisors that
    can be zero are labeling propensities, which are non-negative counts
    divided by [N], so the zero is always [+0.0]. *)

From Stdlib Require Import Reals Lra Lia ZArith.

From stdpp Require Import base strings list gmap.

Set Warnings "-clear-no-such-hyp".

(** * Part I: the program *)

(** ** Exceptions and results *)

Inductive exn : Type :=
| NonUnipolar (j t : nat)        (* "LF {j} on task {t} is non-unipolar" *)
| RowMismatch (t : nat)          (* "L[{t}] has {n_t} rows, but should have {n}" *)
| NotSparse (t : nat)            (* "L[{t}] has type ..., but should be a scipy.sparse matrix" *)
| WrongDtype (t : nat)           (* "L[{t}] has type {L_t.dtype}, should be int" *)
| LabelMapNotInferable           (* "label_map cannot be inferred when T > 1" *)
| CardinalityViolation (t : nat) (* "Task {t} has cardinality ..." *)
| AttrMismatch (name : string)   (* raised by [_check_or_set_attr] *)
| ZeroDivisionError
| IndexError
| ValueError
| TypeError
| AttributeError
| AssertionError
| RuntimeError.

Inductive result (A : Type) : Type :=
| Ok (a : A)
| Raise (e : exn).

Arguments Ok {A} a.

Arguments Raise {A} e.

#[global] Instance result_ret : MRet result := λ A a, Ok a.

#[global] Instance result_bind : MBind result := λ A B k r,
  match r with
  | Ok a => k a
  | Raise e => Raise e
  end.

(** [seq[i]] on a Python list or a numpy array, for a non-negative [i]. *)
Definition index {A} (l : list A) (i : nat) : result A :=
  match l !! i with
  | Some x => Ok x
  | None => Raise IndexError
  end.

(** A list comprehension whose body may raise: elements are evaluated left
    to right and the first exception escapes. *)
Fixpoint comprehension {A B} (f : A → result B) (l : list A) : result (list B) :=
  match l with
  | [] => Ok []
  | x :: l' => y ← f x; ys ← comprehension f l'; Ok (y :: ys)
  end.

(** [for i in l: s = body(i, s)]. *)
Fixpoint for_each {A S} (l : list A) (body : A → S → result S) (s : S) : result S :=
  match l with
  | [] => Ok s
  | x :: l' => s' ← body x s; for_each l' body s'
  end.

(** [seq[a:b]] for [0 <= a], [0 <= b]. *)
Definition slice {A} (a b : nat) (l : list A) : list A := take (b - a) (drop a l).

(** ** scipy.sparse.csc_matrix *)

(** The three arrays of the compressed-sparse-column format: the stored
    values, their row numbers, and for each column the offset of its first
    stored entry (with one more offset closing the last column).  A stored
    value may be zero; scipy keeps such entries until [eliminate_zeros] is
    called, and nothing in this module calls it. *)
Record csc_matrix : Type := {
  shape : nat * nat;
  data : list Z;
  indices : list nat;
  indptr : list nat;
}.

Definition nrows (L : csc_matrix) : nat := fst (shape L).

Definition ncols (L : csc_matrix) : nat := snd (shape L).

(** ** LabelModel._infer_polarity *)

(** [set(L_t.data[L_t.indptr[j]:L_t.indptr[j+1]])] *)
Definition column_vals (L_t : csc_matrix) (j : nat) : result (gset Z) :=
  a ← index (indptr L_t) j;
  b ← index (indptr L_t) (j + 1);
  Ok (list_to_set (slice a b (data L_t))).

Definition _infer_polarity (L_t : csc_matrix) (t j : nat) : result Z :=
  vals ← column_vals L_t j;
  if decide (1 < size vals) then Raise (NonUnipolar j t)
  else if decide (size vals = 0) then Ok 0%Z
  else index (elements vals) 0.

(** ** Numbers with the IEEE special values *)

(** A double is a real number, an infinity or NaN.  numpy does not raise on
    a division by zero: [1 / 0.] is [inf] and [0. / 0.] and [inf * 0.] are
    [nan]. *)
Inductive fval : Type :=
| Fin (r : R)
| PInf
| NInf
| NaN.

Definition signed_inf (negative : bool) : fval := if negative then NInf else PInf.

Definition is_neg (r : R) : bool := if Rlt_dec r 0 then true else false.

Definition fopp (x : fval) : fval :=
  match x with
  | Fin r => Fin (- r)
  | PInf => NInf
  | NInf => PInf
  | NaN => NaN
  end.

Definition fadd (x y : fval) : fval :=
  match x, y with
  | NaN, _ | _, NaN => NaN
  | Fin a, Fin b => Fin (a + b)
  | PInf, NInf | NInf, PInf => NaN
  | PInf, _ | _, PInf => PInf
  | NInf, _ | _, NInf => NInf
  end.

Definition fsub (x y : fval) : fval := fadd x (fopp y).

(** The product of an infinity with a finite number. *)
Definition inf_times (negative : bool) (r : R) : fval :=
  if Req_dec_T r 0 then NaN else signed_inf (xorb negative (is_neg r)).

Definition fmul (x y : fval) : fval :=
  match x, y with
  | NaN, _ | _, NaN => NaN
  | Fin a, Fin b => Fin (a * b)
  | PInf, Fin r | Fin r, PInf => inf_times false r
  | NInf, Fin r | Fin r, NInf => inf_times true r
  | PInf, PInf | NInf, NInf => PInf
  | PInf, NInf | NInf, PInf => NInf
  end.

Definition fdiv (x y : fval) : fval :=
  match x, y with
  | NaN, _ | _, NaN => NaN
  | Fin a, Fin b =>
      if Req_dec_T b 0
      then (if Req_dec_T a 0 then NaN else signed_inf (is_neg a))
      else Fin (a / b)
  | Fin _, (PInf | NInf) => Fin 0
  | PInf, Fin b => signed_inf (is_neg b)
  | NInf, Fin b => signed_inf (negb (is_neg b))
  | (PInf | NInf), (PInf | NInf) => NaN
  end.

(** [np.isnan] *)
Definition isnan (x : fval) : bool :=
  match x with NaN => true | _ => false end.

(** [torch.clamp(x, min=lo, max=hi)], that is [min(max(x, lo), hi)]; NaN is
    propagated. *)
Definition clamp (lo hi : R) (x : fval) : fval :=
  match x with
  | Fin r => Fin (Rmin (Rmax r lo) hi)
  | PInf => Fin hi
  | NInf => Fin (Rmin lo hi)
  | NaN => NaN
  end.

(** ** Dense matrices *)

(** A numpy matrix or a torch tensor of doubles, as the list of its rows. *)
Abbreviation matrix := (list (list fval)).

(** [X[i, j]] read and written in place. *)
Definition mget {A} (X : list (list A)) (i j : nat) : result A :=
  row ← index X i; index row j.

Definition mset {A} (X : list (list A)) (i j : nat) (v : A) : result (list (list A)) :=
  row ← index X i; _ ← index row j; Ok (<[i := <[j := v]> row]> X).

(** The [n] by [m] matrix with entries [f i j]. *)
Definition tabulate {A} (n m : nat) (f : nat → nat → A) : list (list A) :=
  (λ i, f i <$> seq 0 m) <$> seq 0 n.

(** An entry of an array that is known to be in range. *)
Definition ent (X : matrix) (i j : nat) : fval :=
  default (Fin 0) (X !! i ≫= (.!! j)).

Definition fsum (f : nat → fval) (l : list nat) : fval :=
  foldr (λ k acc, fadd (f k) acc) (Fin 0) l.

(** [X @ Y]: entry [(i, j)] is the sum over [k] of [X[i, k] * Y[k, j]]. *)
Definition width {A} (X : list (list A)) : nat :=
  match X with
  | row :: _ => length row
  | [] => 0
  end.

Definition matmul (X Y : matrix) : matrix :=
  tabulate (length X) (width Y)
    (λ i j, fsum (λ k, fmul (ent X i k) (ent Y k j)) (seq 0 (length Y))).

(** [np.diag(X)] of a square matrix and [np.diag(v)] of a vector. *)
Definition diagonal (X : matrix) : list fval := imap (λ i _, ent X i i) X.

Definition diag_matrix (v : list fval) : matrix :=
  tabulate (length v) (length v)
    (λ i j, if decide (i = j) then default (Fin 0) (v !! i) else Fin 0).

(** ** LabelModel._get_overlaps_matrix *)

(** The stored entries of column [j] as (row, value) pairs. *)
Definition column (L : csc_matrix) (j : nat) : list (nat * Z) :=
  match indptr L !! j, indptr L !! (j + 1) with
  | Some a, Some b => zip (slice a b (indices L)) (slice a b (data L))
  | _, _ => []
  end.

(** [L_nz = L_t.copy(); L_nz.data[:] = 1] *)
Definition binarize (L : csc_matrix) : csc_matrix :=
  {| shape := shape L; data := (λ _, 1%Z) <$> data L;
     indices := indices L; indptr := indptr L |}.

Definition sumZ {A} (f : A → Z) (l : list A) : Z :=
  foldr (λ x acc, (f x + acc)%Z) 0%Z l.

(** Entry [(i, j)] of the sparse product [A.T @ A]: every pair of stored
    entries of columns [i] and [j] that sit in the same row contributes the
    product of their values. *)
Definition gram_entry (A : csc_matrix) (i j : nat) : Z :=
  sumZ (λ x, sumZ (λ y, if decide (x.1 = y.1) then (x.2 * y.2)%Z else 0%Z)
                  (column A j))
       (column A i).

(** [(A.T @ A / N).todense()]; scipy divides a sparse matrix by a scalar as
    a multiplication by [1. / N], which raises for [N = 0]. *)
Definition empirical_overlaps (A : csc_matrix) : result matrix :=
  if decide (nrows A = 0) then Raise ZeroDivisionError
  else Ok (tabulate (ncols A) (ncols A)
             (λ i j, Fin (IZR (gram_entry A i j) / INR (nrows A)))).

(** The double loop that corrects [O] in place given the polarities. *)
Definition correct_entry (p : list Z) (i j : nat) (O : matrix) : result matrix :=
  if decide (i ≠ j) then
    p_i ← index p i;
    p_j ← index p j;
    let c := if decide (p_i = p_j) then 1%R else (-1)%R in
    x ← mget O i j;
    mset O i j (fmul (Fin c) (fsub x (Fin 1)))
  else Ok O.

Definition correct_polarities (M : nat) (p : list Z) (O : matrix) : result matrix :=
  for_each (seq 0 M) (λ i, for_each (seq 0 M) (λ j, correct_entry p i j)) O.

(** [O[np.isnan(O)] = 0] *)
Definition nan_to_zero (O : matrix) : matrix :=
  fmap (M := list) (fmap (M := list) (λ x, if isnan x then Fin 0 else x)) O.

(** [B = np.diag(1 / np.diag(O)); O = B @ O @ B] *)
Definition propensity_normalized (O : matrix) : matrix :=
  let B := diag_matrix (fdiv (Fin 1) <$> diagonal O) in
  matmul (matmul B O) B.

(** [torch.clamp(torch.from_numpy(O), min=-0.95, max=0.95)] *)
Definition clamp_overlaps (O : matrix) : matrix :=
  fmap (M := list) (fmap (M := list) (clamp (-0.95) 0.95)) O.

(** [self_M] is the attribute [self.M], the number of labeling functions. *)
Definition _get_overlaps_matrix (self_M : nat) (L_t : csc_matrix) (t : nat)
  : result matrix :=
  p ← comprehension (_infer_polarity L_t t) (seq 0 self_M);
  let L_nz := binarize L_t in
  O ← empirical_overlaps L_nz;
  let O := propensity_normalized O in
  O ← correct_polarities self_M p O;
  let O := nan_to_zero O in
  Ok (clamp_overlaps O).

(** ** The model object *)

(** The part of [self.config] that [train] reads. *)
Record train_config : Type := {
  cfg_gamma_init : R;
  cfg_l2 : R;
  cfg_n_epochs : nat;
  cfg_verbose : bool;
  cfg_print_at : Z;
}.

(** The keyword arguments of a call of [train]: the settings the caller
    overrides and [accs], the true accuracies of the labeling functions if
    they are known, which only the progress report reads. *)
Record train_kwargs : Type := {
  kw_gamma_init : option R;
  kw_l2 : option R;
  kw_n_epochs : option nat;
  kw_verbose : option bool;
  kw_print_at : option Z;
  kw_accs : option (list R);
}.

(** Modelled from the spec: [recursive_merge_dicts] is defined in
    metal/utils.py, which is not part of the sources.  The specification
    lists the recognised keys; a key given by the caller replaces the stored
    setting and the others are kept. *)
Definition recursive_merge_dicts (c : train_config) (kw : train_kwargs) : train_config :=
  {| cfg_gamma_init := default (cfg_gamma_init c) (kw_gamma_init kw);
     cfg_l2 := default (cfg_l2 c) (kw_l2 kw);
     cfg_n_epochs := default (cfg_n_epochs c) (kw_n_epochs kw);
     cfg_verbose := default (cfg_verbose c) (kw_verbose kw);
     cfg_print_at := default (cfg_print_at c) (kw_print_at kw) |}.

(** The attributes of a [LabelModel].  [M], [K_t], [gamma_init] and [gamma]
    do not exist until a method assigns them. *)
Record LabelModel : Type := {
  config : train_config;
  multitask : bool;
  label_map : option (list (list Z));
  T : nat;
  M : option nat;
  K_t : option (list nat);
  gamma_init : option R;
  gamma : option (list (list R));
}.

Definition set_config (c : train_config) (self : LabelModel) : LabelModel :=
  {| config := c; multitask := multitask self; label_map := label_map self;
     T := T self; M := M self; K_t := K_t self;
     gamma_init := gamma_init self; gamma := gamma self |}.

Definition set_label_map (lm : list (list Z)) (self : LabelModel) : LabelModel :=
  {| config := config self; multitask := multitask self; label_map := Some lm;
     T := T self; M := M self; K_t := K_t self;
     gamma_init := gamma_init self; gamma := gamma self |}.

Definition set_T (n : nat) (self : LabelModel) : LabelModel :=
  {| config := config self; multitask := multitask self; label_map := label_map self;
     T := n; M := M self; K_t := K_t self;
     gamma_init := gamma_init self; gamma := gamma self |}.

Definition set_M (m : nat) (self : LabelModel) : LabelModel :=
  {| config := config self; multitask := multitask self; label_map := label_map self;
     T := T self; M := Some m; K_t := K_t self;
     gamma_init := gamma_init self; gamma := gamma self |}.

Definition set_K_t (k : list nat) (self : LabelModel) : LabelModel :=
  {| config := config self; multitask := multitask self; label_map := label_map self;
     T := T self; M := M self; K_t := Some k;
     gamma_init := gamma_init self; gamma := gamma self |}.

Definition set_gamma_init (g0 : R) (self : LabelModel) : LabelModel :=
  {| config := config self; multitask := multitask self; label_map := label_map self;
     T := T self; M := M self; K_t := K_t self;
     gamma_init := Some g0; gamma := gamma self |}.

(** Both assignments of [_init_params] at once. *)
Definition set_gamma (g0 : R) (g : list (list R)) (self : LabelModel) : LabelModel :=
  {| config := config self; multitask := multitask self; label_map := label_map self;
     T := T self; M := M self; K_t := K_t self;
     gamma_init := Some g0; gamma := Some g |}.

(** [LabelModel(label_map=label_map, **kwargs)] *)
Definition __init__ (c : train_config) (lm : option (list (list Z))) : LabelModel :=
  {| config := c;
     multitask := match lm with Some l => bool_decide (1 < length l) | None => false end;
     label_map := lm;
     T := match lm with Some ((_ :: _) as l) => length l | _ => 1 end;
     M := None; K_t := None; gamma_init := None; gamma := None |}.

(** Reading an attribute that may not have been assigned yet. *)
Definition attr {A} (a : option A) : result A :=
  match a with
  | Some x => Ok x
  | None => Raise AttributeError
  end.

(** ** LabelModel._task_loss and LabelModel.get_loss *)

Definition sumR (l : list R) : R := foldr Rplus 0%R l.

Arguments sumR : simpl never.

Definition _task_loss (self : LabelModel) (O_t : matrix) (t : nat) (l2 : R)
  : result fval :=
  m ← attr (M self);
  loss ← for_each (seq 0 m) (λ i, for_each (seq 0 m) (λ j loss,
            if decide (i ≠ j) then
              g ← attr (gamma self);
              g_ti ← mget g t i;
              g_tj ← mget g t j;
              o_ij ← mget O_t i j;
              let d := fsub (Fin (g_ti * g_tj)) o_ij in
              Ok (fadd loss (fmul d d))
            else Ok loss)) (Fin 0);
  if decide (m * m - m = 0) then Raise ZeroDivisionError
  else
    let loss := fdiv loss (Fin (INR (m * m - m))) in
    if Rlt_dec 0 l2 then
      g ← attr (gamma self);
      g_t ← index g t;
      g0 ← attr (gamma_init self);
      Ok (fadd loss (Fin (l2 * sumR ((λ x, (x - g0) * (x - g0))%R <$> g_t))))
    else Ok loss.

Definition get_loss (self : LabelModel) (O : list matrix) (l2 : R) : result fval :=
  for_each (imap pair O)
    (λ '(t, O_t) loss, l ← _task_loss self O_t t l2; Ok (fadd loss l))
    (Fin 0).

(** ** LabelModel.accs and LabelModel.log_odds_accs *)

(** [torch.clamp] on a tensor of real numbers. *)
Definition rclamp (lo hi x : R) : R := Rmin (Rmax x lo) hi.

Definition accs (self : LabelModel) : result (list (list R)) :=
  g ← attr (gamma self);
  Ok (fmap (M := list) (fmap (M := list) (λ x, rclamp 0.01 0.99 (0.5 * (x + 1)))%R) g).

Definition log_odds_accs (self : LabelModel) : result (list (list R)) :=
  a ← accs self;
  Ok (fmap (M := list) (fmap (M := list) (λ x, ln (x / (1 - x)))%R) a).

(** ** LabelModel.get_accs_score *)

(** One row of [self.accs.numpy() - accs] under numpy's broadcasting rule
    for the last axis: the lengths agree or one of them is 1. *)
Definition broadcast_sub (row v : list R) : result (list R) :=
  if decide (length row = length v) then Ok (zip_with Rminus row v)
  else
    match v, row with
    | [y], _ => Ok ((λ x, x - y)%R <$> row)
    | _, [x] => Ok ((λ y, x - y)%R <$> v)
    | _, _ => Raise ValueError
    end.

(** [np.linalg.norm(self.accs.numpy() - accs)**2 / self.M] for a list
    [accs]: the square of the Frobenius norm is the sum of the squares, and
    numpy does not raise on a division by zero.  [self.accs] has [T >= 1]
    rows. *)
Definition get_accs_score (self : LabelModel) (accs_true : list R) : result fval :=
  a ← accs self;
  d ← comprehension (λ row, broadcast_sub row accs_true) a;
  m ← attr (M self);
  Ok (fdiv (Fin (sumR ((λ x, x * x)%R <$> concat d))) (Fin (INR m))).

(** ** Methods that read and assign attributes *)

(** A method runs on the model object and may assign attributes before it
    returns or raises; the assignments made before an exception stay. *)
Definition method (A : Type) : Type := LabelModel → result A * LabelModel.

#[global] Instance method_ret : MRet method := λ A a self, (Ok a, self).

#[global] Instance method_bind : MBind method := λ A B k m self,
  match m self with
  | (Ok a, self') => k a self'
  | (Raise e, self') => (Raise e, self')
  end.

Definition lift {A} (r : result A) : method A := λ self, (r, self).

Definition this : method LabelModel := λ self, (Ok self, self).

Definition assign (f : LabelModel → LabelModel) : method () := λ self, (Ok (), f self).

Fixpoint for_tasks {A} (l : list A) (body : A → method ()) : method () :=
  match l with
  | [] => mret ()
  | x :: l' => _ ← body x; for_tasks l' body
  end.

(** Modelled from the spec: [Classifier._check_or_set_attr] is defined in
    metal/classifier.py, which is not part of the sources.  The docstring
    of [_check_L] says what it is used for: with [set_val] the attribute is
    initialised, otherwise the value is checked against the attribute. *)
Definition _check_or_set_attr {V} `{EqDecision V} (name : string)
    (get : LabelModel → option V) (set : V → LabelModel → LabelModel)
    (val : V) (set_val : bool) : method () :=
  if set_val then assign (set val)
  else
    self ← this;
    true_val ← lift (attr (get self));
    if decide (val = true_val) then mret () else lift (Raise (AttrMismatch name)).

(** ** LabelModel._check_L *)

(** What a caller may hand over for one task: a scipy sparse matrix of
    integers, a sparse matrix of another dtype, or an object that is not
    sparse (a numpy array, say).  Of the last two only the shape is read
    before [_check_L] raises. *)
Inductive votes_object : Type :=
| IntMatrix (L : csc_matrix)
| OtherDtype (s : nat * nat)
| NotSparseObject (s : nat * nat).

Definition issparse (x : votes_object) : bool :=
  match x with
  | NotSparseObject _ => false
  | _ => true
  end.

Definition shape_of (x : votes_object) : nat * nat :=
  match x with
  | IntMatrix L => shape L
  | OtherDtype s | NotSparseObject s => s
  end.

(** The sparse integer matrices of a list of objects. *)
Definition csc_matrices (l : list votes_object) : list csc_matrix :=
  omap (λ x, match x with IntMatrix L => Some L | _ => None end) l.

(** The argument [L]: one object, or a list with one object per task.
    [OneMatrix] and [Matrices] are the calls with sparse integer matrices. *)
Inductive votes_arg : Type :=
| OneMatrix (L : csc_matrix)
| Matrices (L : list csc_matrix)
| OneObject (x : votes_object)
| Objects (l : list votes_object).

(** [np.amax(L)] of a sparse matrix that stores no position twice: the
    largest stored value, or zero if that is larger and some entry is not
    stored.  (On a matrix with duplicate entries scipy first adds them up,
    in place; the properties that depend on the value of [amax] are stated
    for matrices in canonical format.) *)
Definition amax (L : csc_matrix) : result Z :=
  if decide (nrows L * ncols L = 0) then Raise ValueError
  else
    match data L with
    | [] => Ok 0%Z
    | v :: d =>
        let m := foldr Z.max v d in
        Ok (if decide (length (data L) = nrows L * ncols L) then m else Z.max 0 m)
    end.

(** [list(range(K))] *)
Definition range (K : Z) : list Z := Z.of_nat <$> seq 0 (Z.to_nat K).

(** When the first loop has passed, every object is a sparse integer
    matrix and [L[t] = L_t.tocsc()] has put it in CSC format, which the
    model has from the start. *)
Definition _check_L (L : votes_arg) (init : bool) : method (list csc_matrix) :=
  self ← this;
  L ← lift (if multitask self then
              match L with
              | Matrices l => _ ← index l 0; Ok (IntMatrix <$> l)
              | Objects l =>
                  x ← index l 0;
                  if issparse x then Ok l else Raise AssertionError
              | OneMatrix _ | OneObject _ => Raise AssertionError
              end
            else
              match L with
              | Matrices l => Ok (IntMatrix <$> l)
              | Objects l => Ok l
              | OneMatrix L0 => Ok [IntMatrix L0]
              | OneObject x => if issparse x then Ok [x] else Raise AssertionError
              end);
  _ ← _check_or_set_attr "T" (λ self, Some (T self)) set_T (length L) false;
  L_0 ← lift (index L 0);
  let '(n, m) := shape_of L_0 in
  _ ← _check_or_set_attr "M" M set_M m init;
  _ ← for_tasks (imap pair L) (λ '(t, L_t),
        let '(n_t, m_t) := shape_of L_t in
        _ ← _check_or_set_attr "M" M set_M m_t false;
        if decide (n_t ≠ n) then lift (Raise (RowMismatch t))
        else
          match L_t with
          | NotSparseObject _ => lift (Raise (NotSparse t))
          | OtherDtype _ => lift (Raise (WrongDtype t))
          | IntMatrix _ => mret ()
          end);
  let L := csc_matrices L in
  self ← this;
  _ ← (if decide (label_map self = None ∧ init = true) then
         if decide (1 < T self) then lift (Raise LabelMapNotInferable)
         else
           L_0 ← lift (index L 0);
           K ← lift (amax L_0);
           assign (set_label_map [range K])
       else mret ());
  self ← this;
  labels ← lift (match label_map self with
                 | Some lm => Ok lm
                 | None => Raise TypeError
                 end);
  _ ← _check_or_set_attr "K_t" K_t set_K_t (length <$> labels) init;
  _ ← for_tasks (imap pair L) (λ '(t, L_t),
        a ← lift (amax L_t);
        self ← this;
        K ← lift (attr (K_t self));
        K_tt ← lift (index K t);
        if decide (Z.of_nat K_tt < a)%Z then lift (Raise (CardinalityViolation t))
        else mret ());
  mret L.

(** ** LabelModel.predict_task_proba *)

(** [L.todense()]: the entries stored for a position are added up. *)
Definition todense (L : csc_matrix) : list (list Z) :=
  tabulate (nrows L) (ncols L)
    (λ r j, sumZ (λ x, if decide (x.1 = r) then x.2 else 0%Z) (column L j)).

(** The two [torch.where] calls for the class [y_t]: votes other than
    [y_t] become -1, then votes equal to [y_t] become 1. *)
Definition vote_sign (y_t v : Z) : Z :=
  let v' := if decide (v ≠ y_t ∧ v ≠ 0%Z) then (-1)%Z else v in
  if decide (v' = y_t) then 1%Z else v'.

(** [row @ theta] for a row of signs and a vector of the same length;
    [predict_task_proba] checks the lengths as the product does. *)
Definition dot_signs (row : list Z) (theta : list R) : R :=
  sumR (zip_with (λ s x, IZR s * x)%R row theta).

(** [F.softmax(Y_pt, dim=1)] on one row. *)
Definition softmax (row : list R) : list R :=
  (λ x, exp x / sumR (exp <$> row))%R <$> row.

Definition predict_task_proba (L : votes_arg) (t : nat) : method (list (list R)) :=
  L ← _check_L L false;
  L_t ← lift (index L t);
  let m_t := ncols L_t in
  let L_t := todense L_t in
  self ← this;
  K ← lift (attr (K_t self));
  K_tt ← lift (index K t);
  (* [self.log_odds_accs[t]] is read in the body of the loop over the
     classes, where the product [L_t_y @ self.log_odds_accs[t]] raises a
     RuntimeError unless the vector has one entry per column of [L_t] *)
  theta_t ← lift (if decide (K_tt = 0) then Ok []
                  else
                    theta ← log_odds_accs self;
                    theta_t ← index theta t;
                    if decide (length theta_t = m_t) then Ok theta_t
                    else Raise RuntimeError);
  let Y_pt :=
    (λ row, (λ y_t, dot_signs (vote_sign (Z.of_nat y_t) <$> row) theta_t)
              <$> seq 1 K_tt) <$> L_t in
  mret (softmax <$> Y_pt).

(** ** LabelModel.predict_proba *)

(** A list comprehension whose body is a method call. *)
Fixpoint method_comprehension {A B} (f : A → method B) (l : list A) : method (list B) :=
  match l with
  | [] => mret []
  | x :: l' => y ← f x; ys ← method_comprehension f l'; mret (y :: ys)
  end.

(** The body of [predict_proba], as it runs once the [multitask] decorator
    of the base class has passed it the votes.  The call
    [self.predict_task_proba(L_t, t)] hands over the single matrix [L_t]. *)
Definition predict_proba (L : votes_arg) : method (list (list (list R))) :=
  L ← _check_L L false;
  method_comprehension (λ '(t, L_t), predict_task_proba (OneMatrix L_t) t) (imap pair L).

(** ** LabelModel.train *)

(** The optimizer and the automatic differentiation are library services:
    one step stands for [optimizer.zero_grad(); loss.backward();
    optimizer.step()] and yields the new [gamma] from the overlaps, the
    regularization weight and the model, together with the new internal
    state of the optimizer. *)
Record Optimizer : Type := {
  opt_state : Type;
  opt_init : opt_state;
  opt_step : opt_state → list matrix → R → LabelModel → opt_state * list (list R);
}.

Definition update_gamma (g : list (list R)) (self : LabelModel) : LabelModel :=
  {| config := config self; multitask := multitask self; label_map := label_map self;
     T := T self; M := M self; K_t := K_t self;
     gamma_init := gamma_init self; gamma := Some g |}.

(** [self.gamma_init = gamma_init] and then
    [self.gamma = nn.Parameter(gamma_init * torch.ones(self.T, self.M))] *)
Definition _init_params (g0 : R) : method () :=
  _ ← assign (set_gamma_init g0);
  self ← this;
  m ← lift (attr (M self));
  assign (update_gamma (replicate (T self) (replicate m (g0 * 1)%R))).

(** The progress report at the end of an epoch.  It prints, which leaves no
    trace in the model, but its condition divides by [print_at] and the
    message calls [get_accs_score] when [accs] is given. *)
Definition report (self : LabelModel) (train_config : train_config) (epoch : nat)
    (accs_true : option (list R)) : result () :=
  if cfg_verbose (config self) then
    if decide (cfg_print_at train_config = 0%Z) then Raise ZeroDivisionError
    else if bool_decide ((Z.of_nat epoch mod cfg_print_at train_config = 0)%Z
                         ∨ epoch = cfg_n_epochs train_config - 1) then
      match accs_true with
      | Some a => _ ← get_accs_score self a; Ok ()
      | None => Ok ()
      end
    else Ok ()
  else Ok ().

(** The training loop, from the epoch [epoch] on, with [n] epochs to go. *)
Fixpoint run_epochs (opt : Optimizer) (train_config : train_config)
    (accs_true : option (list R)) (n epoch : nat) (st : opt_state opt)
    (O : list matrix) : method () :=
  match n with
  | 0 => mret ()
  | S n' =>
      self ← this;
      loss ← lift (get_loss self O (cfg_l2 train_config));
      let '(st', g) := opt_step opt st O (cfg_l2 train_config) self in
      _ ← assign (update_gamma g);
      self ← this;
      _ ← lift (report self train_config epoch accs_true);
      run_epochs opt train_config accs_true n' (S epoch) st' O
  end.

(** The body of [train].  The [multitask] decorator of the base class, which
    is not part of the sources, only wraps the arguments of a single-task
    model in lists; [_check_L] accepts both forms. *)
Definition train (opt : Optimizer) (L_train : votes_arg) (kwargs : train_kwargs)
  : method () :=
  _ ← assign (λ self, set_config (recursive_merge_dicts (config self) kwargs) self);
  self ← this;
  let train_config := config self in
  L_train ← _check_L L_train true;
  self ← this;
  O ← lift (comprehension
              (λ '(t, L_t), m ← attr (M self); _get_overlaps_matrix m L_t t)
              (imap pair L_train));
  _ ← _init_params (cfg_gamma_init train_config);
  run_epochs opt train_config (kw_accs kwargs) (cfg_n_epochs train_config) 0
    (opt_init opt) O.

(** * Part II: the vocabulary of the specification *)

(** ** Shapes *)

Definition has_shape {A} (n m : nat) (X : list (list A)) : Prop :=
  length X = n ∧ Forall (λ row, length row = m) X.

(** ** One source on one task *)

(** The values stored for column [j] (empty when [j] is not a column). *)
Definition stored (L_t : csc_matrix) (j : nat) : list Z :=
  match indptr L_t !! j, indptr L_t !! (j + 1) with
  | Some a, Some b => slice a b (data L_t)
  | _, _ => []
  end.

(** The votes cast by source [j]: zero is an abstention, not a vote. *)
Definition votes (L_t : csc_matrix) (j : nat) : list Z :=
  filter (λ v, v ≠ 0%Z) (stored L_t j).

(** Source [j] casts at most one distinct non-abstain value. *)
Definition unipolar (L_t : csc_matrix) (j : nat) : Prop :=
  ∀ v w, v ∈ votes L_t j → w ∈ votes L_t j → v = w.

(** No abstention is stored explicitly in column [j]. *)
Definition no_explicit_zero (L_t : csc_matrix) (j : nat) : Prop :=
  0%Z ∉ stored L_t j.

(** ** The value written by the polarity-correction loop *)

(** The factor [c] of the loop body and the value the body writes. *)
Definition polarity_sign (p : list Z) (i j : nat) : R :=
  if decide (p !! i = p !! j) then 1%R else (-1)%R.

Definition corrected (p : list Z) (i j : nat) (x : fval) : fval :=
  if decide (i = j) then x
  else fmul (Fin (polarity_sign p i j)) (fsub x (Fin 1)).

(** ** Co-presence counts and valid inputs *)

(** The rows in which source [j] has a stored entry. *)
Definition row_indices (L : csc_matrix) (j : nat) : list nat :=
  match indptr L !! j, indptr L !! (j + 1) with
  | Some a, Some b => slice a b (indices L)
  | _, _ => []
  end.

(** scipy's canonical format, for a matrix with at least one row: every
    column has as many row numbers as values, the row numbers of a column
    are in range and none is repeated. *)
Record canonical (L : csc_matrix) : Prop := {
  canon_nrows : 0 < nrows L;
  canon_indptr : length (indptr L) = ncols L + 1;
  canon_column : ∀ j, j < ncols L →
    length (row_indices L j) = length (stored L j) ∧
    NoDup (row_indices L j) ∧
    ∀ r, r ∈ row_indices L j → r < nrows L;
}.

(** How many stored entries of a column sit in row [r], and how many pairs
    of stored entries of two columns share their row. *)
Definition hits (r : nat) (S : list nat) : nat :=
  sum_list ((λ s, if decide (r = s) then 1 else 0) <$> S).

Definition co_present (R S : list nat) : nat :=
  sum_list ((λ r, hits r S) <$> R).

(** The inputs [train] accepts for one task: a canonical matrix with one
    column per labeling function, no abstention stored explicitly, and
    every labeling function unipolar. *)
Record valid_votes (M : nat) (L : csc_matrix) : Prop := {
  valid_canonical : canonical L;
  valid_ncols : ncols L = M;
  valid_no_zero : ∀ j, j < M → no_explicit_zero L j;
  valid_unipolar : ∀ j, j < M → unipolar L j;
}.

(** ** The overlaps matrix, entry by entry *)

(** The labeling propensity [beta_j] of a source, the rate at which two
    sources vote on the same data point, and the polarity of a source. *)
Definition propensity (L : csc_matrix) (j : nat) : R :=
  (INR (length (row_indices L j)) / INR (nrows L))%R.

Definition overlap_rate (L : csc_matrix) (i j : nat) : R :=
  (INR (co_present (row_indices L i) (row_indices L j)) / INR (nrows L))%R.

Definition polarity (L : csc_matrix) (j : nat) : Z :=
  default 0%Z (head (stored L j)).

Definition polarities (M : nat) (L : csc_matrix) : list Z :=
  polarity L <$> seq 0 M.

(** Entry [(i, j)] after each stage of [_get_overlaps_matrix]. *)
Definition normalized_entry (L : csc_matrix) (i j : nat) : fval :=
  if Req_dec_T (propensity L i) 0 then NaN
  else if Req_dec_T (propensity L j) 0 then NaN
  else Fin (overlap_rate L i j / (propensity L i * propensity L j)).

Definition overlaps_entry (M : nat) (L : csc_matrix) (i j : nat) : fval :=
  let x := corrected (polarities M L) i j (normalized_entry L i j) in
  clamp (-0.95) 0.95 (if isnan x then Fin 0 else x).

(** ** A checker for valid inputs *)

Definition all_equal (l : list Z) : bool :=
  match l with
  | [] => true
  | v :: l' => forallb (Z.eqb v) l'
  end.

Definition column_ok (L : csc_matrix) (j : nat) : bool :=
  (length (row_indices L j) =? length (stored L j))
  && bool_decide (NoDup (row_indices L j))
  && forallb (λ r, r <? nrows L) (row_indices L j)
  && forallb (λ v, negb (v =? 0)%Z) (stored L j)
  && all_equal (stored L j).

Definition valid_votesb (M : nat) (L : csc_matrix) : bool :=
  (0 <? nrows L)
  && (length (indptr L) =? ncols L + 1)
  && (ncols L =? M)
  && forallb (column_ok L) (seq 0 M).

(** ** The loss as the specification writes it *)

(** An entry of a tensor of real numbers that is known to be in range. *)
Definition rent (X : list (list R)) (i j : nat) : R :=
  default 0%R (X !! i ≫= (.!! j)).

(** A tensor of real numbers as a tensor of doubles. *)
Definition finite (X : list (list R)) : matrix :=
  fmap (M := list) (fmap (M := list) Fin) X.

(** All ordered pairs [(i, j)] of distinct sources. *)
Definition ordered_pairs (m : nat) : list (nat * nat) :=
  filter (λ p, p.1 ≠ p.2) (i ← seq 0 m; j ← seq 0 m; [(i, j)]).

(** Sum over the ordered pairs of the squared residuals, divided by
    [M^2 - M], plus the centred L2 term when [l2 > 0]. *)
Definition task_loss_value (m : nat) (g : nat → R) (o : nat → nat → R) (g0 l2 : R) : R :=
  (sumR ((λ p, (g p.1 * g p.2 - o p.1 p.2) ^ 2) <$> ordered_pairs m)
     / (INR m ^ 2 - INR m)
   + (if Rlt_dec 0 l2 then l2 * sumR ((λ i, (g i - g0) ^ 2) <$> seq 0 m) else 0))%R.

(** ** Validation errors and what a method leaves alone *)

(** The exceptions of the input validation: shape mismatch, sparsity and
    dtype (with the assertions at the head of [_check_L]), cardinality
    violation, label-map inference, non-unipolarity. *)
Definition is_validation_error (e : exn) : bool :=
  match e with
  | NonUnipolar _ _ | RowMismatch _ | NotSparse _ | WrongDtype _
  | LabelMapNotInferable | CardinalityViolation _ | AttrMismatch _
  | AssertionError => true
  | _ => false
  end.

(** A computation that raises no validation error. *)
Definition rbenign {A} (r : result A) : Prop :=
  ∀ e, r = Raise e → is_validation_error e = false.

Definition benign {A} (m : method A) : Prop :=
  ∀ self e self', m self = (Raise e, self') → is_validation_error e = false.

(** A method that leaves a part of the model alone, whether it returns or
    raises; the part of interest is [gamma] with [gamma_init]. *)
Definition keeps {A V} (part : LabelModel → V) (m : method A) : Prop :=
  ∀ self, part (m self).2 = part self.

Definition params (self : LabelModel) : option (list (list R)) * option R :=
  (gamma self, gamma_init self).

(** A method that has not touched the parameters if it raises a validation
    error. *)
Definition validates_first {A} (m : method A) : Prop :=
  ∀ self e self', m self = (Raise e, self') → is_validation_error e = true →
    gamma self' = gamma self ∧ gamma_init self' = gamma_init self.

(** ** Prediction *)

(** The list of task matrices that [_check_L] returns. *)
Definition task_matrices (L : votes_arg) : list csc_matrix :=
  match L with
  | OneMatrix L0 => [L0]
  | Matrices l => l
  | OneObject x => csc_matrices [x]
  | Objects l => csc_matrices l
  end.

(** The objects that [_check_L] goes through, and whether the argument is
    a list. *)
Definition votes_objects (L : votes_arg) : list votes_object :=
  match L with
  | OneMatrix L0 => [IntMatrix L0]
  | Matrices l => IntMatrix <$> l
  | OneObject x => [x]
  | Objects l => l
  end.

Definition is_list (L : votes_arg) : bool :=
  match L with
  | Matrices _ | Objects _ => true
  | _ => false
  end.

(** The caller hands over sparse integer matrices only. *)
Definition sparse_integer (L : votes_arg) : Prop :=
  votes_objects L = IntMatrix <$> task_matrices L.

(** The unnormalized scores of one data point for the classes 1 to [k]. *)
Definition scores (k : nat) (theta_t : list R) (votes_row : list Z) : list R :=
  (λ y_t, dot_signs (vote_sign (Z.of_nat y_t) <$> votes_row) theta_t) <$> seq 1 k.

(** ** Reasoning about a method call *)

(** [wp m self Q E]: run on the model [self], the method [m] either returns
    a value and leaves a model that satisfy [Q], or raises an exception
    that satisfies [E] together with the model it leaves behind. *)
Definition wp {A} (m : method A) (self : LabelModel)
    (Q : A → LabelModel → Prop) (E : exn → LabelModel → Prop) : Prop :=
  match m self with
  | (Ok a, self') => Q a self'
  | (Raise e, self') => E e self'
  end.

(** The model that [_check_L] leaves behind when it returns. *)
Definition checked_model (init : bool) (m : nat) (lm : list (list Z))
    (self : LabelModel) : LabelModel :=
  if init then set_K_t (length <$> lm) (set_label_map lm (set_M m self)) else self.

(** What [_check_L] has established when it returns the matrices [Ls] and
    leaves the model [self']. *)
Definition checked (L : votes_arg) (init : bool) (self : LabelModel)
    (Ls : list csc_matrix) (self' : LabelModel) : Prop :=
  Ls = task_matrices L ∧ length Ls = T self ∧
  ∃ L_0 lm,
    Ls !! 0 = Some L_0 ∧
    Forall (λ L_t, shape L_t = shape L_0) Ls ∧
    match label_map self with
    | Some lm0 => lm = lm0
    | None => init = true ∧ Ls = [L_0] ∧ ∃ K, amax L_0 = Ok K ∧ lm = [range K]
    end ∧
    self' = checked_model init (ncols L_0) lm self ∧
    M self' = Some (ncols L_0) ∧
    label_map self' = Some lm ∧
    K_t self' = Some (length <$> lm) ∧
    (∀ t L_t, Ls !! t = Some L_t →
       ∃ a labels, amax L_t = Ok a ∧ lm !! t = Some labels ∧
         (a <= Z.of_nat (length labels))%Z) ∧
    sparse_integer L ∧
    (multitask self = true → is_list L = true).

(** The exceptions that [_check_L] cannot raise on the model [self]. *)
Definition check_L_excludes (self : LabelModel) (e : exn) : Prop :=
  ((label_map self = None → T self ≤ 1) → e ≠ LabelMapNotInferable) ∧
  (label_map self = None → ∀ t, e ≠ CardinalityViolation t).

(** The log-odds weight that [log_odds_accs] computes from one entry of
    [gamma]. *)
Definition log_odds_of (g : R) : R :=
  let a := rclamp 0.01 0.99 (0.5 * (g + 1)) in ln (a / (1 - a)).

(** ** Training that returns *)

(** The number behind a double, with 0 for the special values. *)
Definition real_part (x : fval) : R :=
  match x with
  | Fin r => r
  | _ => 0%R
  end.

(** An optimizer that hands back parameters of the shape it was given, as
    a gradient step does. *)
Definition shape_preserving (opt : Optimizer) : Prop :=
  ∀ st O l2 self G n m,
    gamma self = Some G → has_shape n m G →
    has_shape n m (opt_step opt st O l2 self).2.

(** Settings under which the progress report only prints: it is switched
    off, or [print_at] is not zero and no true accuracies are given. *)
Definition report_prints (c : train_config) (accs_true : option (list R)) : Prop :=
  cfg_verbose c = false ∨ (cfg_print_at c ≠ 0%Z ∧ accs_true = None).

(** * Part III: example inputs *)

(** ** Vote matrices *)

(** Three data points and three labeling functions: the first votes 1 on
    points 0 and 1, the second votes 2 on point 2, the third never votes.
<<
      [[1, 0, 0],
       [1, 0, 0],
       [0, 2, 0]]
>> *)
Definition L_example : csc_matrix :=
  {| shape := (3, 3); data := [1; 1; 2]%Z; indices := [0; 1; 2];
     indptr := [0; 2; 3; 3] |}.

(** Two labeling functions on two data points; each column holds one vote
    and one explicitly stored abstention.
<<
      [[0, 3],
       [2, 0]]      with all four entries stored
>> *)
Definition L_explicit_zero : csc_matrix :=
  {| shape := (2, 2); data := [0; 2; 3; 0]%Z; indices := [0; 1; 0; 1];
     indptr := [0; 2; 4] |}.

(** One labeling function that votes 1 on the first data point and 2 on
    the second. *)
Definition L_bipolar : csc_matrix :=
  {| shape := (2, 1); data := [1; 2]%Z; indices := [0; 1]; indptr := [0; 2] |}.

(** Two data points, two labeling functions: the first votes 1 on the
    first data point, every other entry is an abstention. *)
Definition L_pred : csc_matrix :=
  {| shape := (2, 2); data := [1]%Z; indices := [0]; indptr := [0; 1; 1] |}.

(** Two data points on which both labeling functions abstain. *)
Definition L_abstain : csc_matrix :=
  {| shape := (2, 2); data := []; indices := []; indptr := [0; 0; 0] |}.

(** Two data points and a single labeling function, which votes 1 on the
    first data point. *)
Definition L_single : csc_matrix :=
  {| shape := (2, 1); data := [1]%Z; indices := [0]; indptr := [0; 1] |}.

(** ** Settings, an optimizer and models *)

Definition example_config : train_config :=
  {| cfg_gamma_init := 0.8; cfg_l2 := 0; cfg_n_epochs := 2;
     cfg_verbose := false; cfg_print_at := 10 |}.

Definition no_kwargs : train_kwargs :=
  {| kw_gamma_init := None; kw_l2 := None; kw_n_epochs := None;
     kw_verbose := None; kw_print_at := None; kw_accs := None |}.

Definition zero_epochs : train_kwargs :=
  {| kw_gamma_init := None; kw_l2 := None; kw_n_epochs := Some 0;
     kw_verbose := None; kw_print_at := None; kw_accs := None |}.

(** Gradient descent with learning rate zero. *)
Definition frozen_optimizer : Optimizer :=
  {| opt_state := ();
     opt_init := ();
     opt_step := λ st O l2 self, (st, default [] (gamma self)) |}.

(** [LabelModel()]: a single-task model without a label map. *)
Definition fresh_model : LabelModel := __init__ example_config None.

(** The fresh model after the failed call of [train] on [L_bipolar]. *)
Definition model_after_failure : LabelModel :=
  {| config := example_config;
     multitask := false;
     label_map := Some [[0; 1]%Z];
     T := 1;
     M := Some 1;
     K_t := Some [2];
     gamma_init := None;
     gamma := None |}.

(** The fresh model after [train] on [L_abstain] with no epochs: the label
    map inferred from the largest vote is empty. *)
Definition model_without_classes : LabelModel :=
  {| config := {| cfg_gamma_init := 0.8; cfg_l2 := 0; cfg_n_epochs := 0;
                  cfg_verbose := false; cfg_print_at := 10 |};
     multitask := false;
     label_map := Some [[]];
     T := 1;
     M := Some 2;
     K_t := Some [0];
     gamma_init := Some 0.8%R;
     gamma := Some [[0.8 * 1; 0.8 * 1]%R] |}.

(** A single-task model with two labeling functions after training. *)
Definition fitted_example : LabelModel :=
  {| config := {| cfg_gamma_init := 0.8; cfg_l2 := 0.1; cfg_n_epochs := 10;
                  cfg_verbose := false; cfg_print_at := 10 |};
     multitask := false;
     label_map := Some [[0; 1]%Z];
     T := 1;
     M := Some 2;
     K_t := Some [2];
     gamma_init := Some 0.8%R;
     gamma := Some [[0.9; -3]%R] |}.

(** A model for two tasks with two classes each and two labeling
    functions, after training. *)
Definition fitted_multitask : LabelModel :=
  {| config := example_config;
     multitask := true;
     label_map := Some [[0; 1]; [0; 1]]%Z;
     T := 2;
     M := Some 2;
     K_t := Some [2; 2];
     gamma_init := Some 0.8%R;
     gamma := Some [[0.9; 0.7]; [0.8; 0.6]]%R |}.

(** * Part IV: properties *)

(** ** Properties of [_infer_polarity] *)

Section polarity.
Implicit Types (L_t : csc_matrix) (X : gset Z).

Lemma size_gt_1_iff X :
  1 < size X ↔ ∃ x y, x ∈ X ∧ y ∈ X ∧ x ≠ y.
Proof.
  split.
  - intros Hsz.
    destruct (size_pos_elem_of X) as [x Hx]; [lia|].
    assert (Hd : size (X ∖ {[x]}) = size X - 1).
    { rewrite size_difference by set_solver. by rewrite size_singleton. }
    destruct (size_pos_elem_of (X ∖ {[x]})) as [y Hy]; [lia|].
    exists x, y. set_solver.
  - intros (x & y & Hx & Hy & Hne).
    assert (Hsub : ({[x]} ∪ {[y]} : gset Z) ⊆ X) by set_solver.
    apply subseteq_size in Hsub.
    rewrite size_union in Hsub by set_solver.
    rewrite !size_singleton in Hsub. lia.
Qed.

Lemma column_vals_stored L_t j :
  j + 1 < length (indptr L_t) →
  column_vals L_t j = Ok (list_to_set (stored L_t j)).
Proof.
  intros Hj. unfold column_vals, stored, index.
  destruct (lookup_lt_is_Some_2 (indptr L_t) j) as [a ->]; [lia|].
  destruct (lookup_lt_is_Some_2 (indptr L_t) (j + 1)) as [b ->]; [lia|].
  done.
Qed.

(** The exception is governed by the stored values, zeros included. *)
Lemma infer_polarity_raises L_t t j :
  j + 1 < length (indptr L_t) →
  _infer_polarity L_t t j = Raise (NonUnipolar j t) ↔
  ∃ v w, v ∈ stored L_t j ∧ w ∈ stored L_t j ∧ v ≠ w.
Proof.
  intros Hj. unfold _infer_polarity.
  rewrite (column_vals_stored _ _ Hj). cbn.
  set (X := list_to_set (stored L_t j) : gset Z).
  assert (HX : (∃ v w, v ∈ stored L_t j ∧ w ∈ stored L_t j ∧ v ≠ w) ↔ 1 < size X).
  { rewrite size_gt_1_iff. unfold X. set_solver. }
  rewrite HX. clear HX.
  destruct (decide (1 < size X)) as [Hgt|Hle]; [done|].
  split; [|done].
  destruct (decide (size X = 0)); [done|].
  unfold index. destruct (elements X !! 0); done.
Qed.

(** What is returned when nothing is raised: the single stored value, or
    zero for an empty column. *)
Lemma infer_polarity_returns L_t t j :
  j + 1 < length (indptr L_t) →
  (∀ v w, v ∈ stored L_t j → w ∈ stored L_t j → v = w) →
  _infer_polarity L_t t j = Ok (default 0%Z (head (stored L_t j))).
Proof.
  intros Hj Huni. unfold _infer_polarity.
  rewrite (column_vals_stored _ _ Hj). cbn.
  set (X := list_to_set (stored L_t j) : gset Z).
  destruct (decide (1 < size X)) as [Hgt|Hle].
  { apply size_gt_1_iff in Hgt as (x & y & Hx & Hy & Hne).
    exfalso. apply Hne, Huni; set_solver. }
  destruct (stored L_t j) as [|v l] eqn:Hst.
  - rewrite decide_True; [done|]. subst X. cbn. apply size_empty.
  - assert (HX : X = {[v]}).
    { subst X. apply set_eq. intros x. rewrite elem_of_list_to_set, elem_of_singleton.
      split; [intros Hx; apply Huni; [done|set_solver]|intros ->; set_solver]. }
    rewrite HX, size_singleton, elements_singleton. by rewrite decide_False.
Qed.

(** On a column without explicitly stored zeros the stored values are the
    votes, and the method does what its docstring says. *)
Lemma votes_no_explicit_zero L_t j :
  no_explicit_zero L_t j → votes L_t j = stored L_t j.
Proof.
  unfold no_explicit_zero, votes. intros Hz.
  induction (stored L_t j) as [|v l IH]; [done|].
  rewrite filter_cons. destruct (decide (v ≠ 0%Z)) as [|Hv].
  - f_equal. apply IH. set_solver.
  - exfalso. apply Hz. apply dec_stable in Hv. set_solver.
Qed.

Lemma infer_polarity_canonical L_t t j :
  j + 1 < length (indptr L_t) →
  no_explicit_zero L_t j →
  unipolar L_t j →
  _infer_polarity L_t t j = Ok (default 0%Z (head (votes L_t j))).
Proof.
  intros Hj Hz Huni. unfold unipolar in Huni.
  rewrite (votes_no_explicit_zero _ _ Hz) in *.
  by apply infer_polarity_returns.
Qed.

Lemma infer_polarity_canonical_raises L_t t j :
  j + 1 < length (indptr L_t) →
  no_explicit_zero L_t j →
  _infer_polarity L_t t j = Raise (NonUnipolar j t) ↔ ¬ unipolar L_t j.
Proof.
  intros Hj Hz. rewrite (infer_polarity_raises _ _ _ Hj).
  unfold unipolar. rewrite (votes_no_explicit_zero _ _ Hz).
  split.
  - intros (v & w & Hv & Hw & Hne) Huni. by apply Hne, Huni.
  - intros Hn.
    destruct (stored L_t j) as [|v l]; [exfalso; apply Hn; set_solver|].
    destruct (decide (Forall (λ w, w = v) l)) as [Hall|Hex].
    + exfalso. apply Hn. intros x y Hx Hy.
      rewrite Forall_forall in Hall.
      assert (∀ z, z ∈ v :: l → z = v) as Hv by (intros z; set_solver).
      by rewrite (Hv x), (Hv y).
    + apply not_Forall_Exists, Exists_exists in Hex as (w & Hw & Hne); [|apply _].
      exists w, v. set_solver.
Qed.
End polarity.

(** ** Arithmetic with special values *)

Section fval_facts.
Implicit Types (x y : fval) (r : R).
Local Open Scope R_scope.

Lemma fadd_0_l x : fadd (Fin 0) x = x.
Proof. destruct x; cbn; try done. f_equal. lra. Qed.

Lemma fadd_0_r x : fadd x (Fin 0) = x.
Proof. destruct x; cbn; try done. f_equal. lra. Qed.

Lemma fadd_nan_l x : fadd NaN x = NaN.
Proof. done. Qed.

Lemma fadd_nan_r x : fadd x NaN = NaN.
Proof. by destruct x. Qed.

Lemma fmul_nan_l x : fmul NaN x = NaN.
Proof. done. Qed.

Lemma fmul_nan_r x : fmul x NaN = NaN.
Proof. by destruct x. Qed.

Lemma fmul_0_fin r : fmul (Fin 0) (Fin r) = Fin 0.
Proof. cbn. f_equal. lra. Qed.

Lemma fmul_fin_0 r : fmul (Fin r) (Fin 0) = Fin 0.
Proof. cbn. f_equal. lra. Qed.

Lemma fmul_pinf_0 : fmul PInf (Fin 0) = NaN.
Proof. cbn. unfold inf_times. by destruct (Req_dec_T 0 0). Qed.

Lemma fdiv_1_0 : fdiv (Fin 1) (Fin 0) = PInf.
Proof.
  cbn. destruct (Req_dec_T 0 0) as [_|]; [|done].
  destruct (Req_dec_T 1 0) as [|_]; [lra|].
  unfold is_neg. destruct (Rlt_dec 1 0); [lra|done].
Qed.

Lemma fdiv_1_fin r : r ≠ 0 → fdiv (Fin 1) (Fin r) = Fin (/ r).
Proof.
  intros Hr. cbn. destruct (Req_dec_T r 0) as [|_]; [done|].
  f_equal. unfold Rdiv. lra.
Qed.

Lemma clamp_fin_range lo hi r :
  lo <= hi → ∃ q, clamp lo hi (Fin r) = Fin q ∧ lo <= q <= hi.
Proof.
  intros Hlh. eexists. split; [done|].
  unfold Rmin, Rmax. repeat destruct (Rle_dec _ _); lra.
Qed.

Lemma clamp_fin_above lo hi r : lo <= hi → hi <= r → clamp lo hi (Fin r) = Fin hi.
Proof.
  intros ??. cbn. f_equal. unfold Rmin, Rmax. repeat destruct (Rle_dec _ _); lra.
Qed.

Lemma clamp_fin_below lo hi r : lo <= hi → r <= lo → clamp lo hi (Fin r) = Fin lo.
Proof.
  intros ??. cbn. f_equal. unfold Rmin, Rmax. repeat destruct (Rle_dec _ _); lra.
Qed.

Lemma clamp_fin_inside lo hi r : lo <= r <= hi → clamp lo hi (Fin r) = Fin r.
Proof.
  intros ?. cbn. f_equal. unfold Rmin, Rmax. repeat destruct (Rle_dec _ _); lra.
Qed.

(** After the NaN repair the clamp always yields a number in range. *)
Lemma clamp_repaired lo hi x :
  lo <= hi →
  ∃ q, clamp lo hi (if isnan x then Fin 0 else x) = Fin q ∧ lo <= q <= hi.
Proof.
  intros Hlh. destruct x as [r| | |]; cbn [isnan].
  - by apply clamp_fin_range.
  - eexists. split; [done|]. unfold Rmin, Rmax. repeat destruct (Rle_dec _ _); lra.
  - eexists. split; [done|]. unfold Rmin, Rmax. repeat destruct (Rle_dec _ _); lra.
  - by apply clamp_fin_range.
Qed.

Lemma fsum_nil f : fsum f [] = Fin 0.
Proof. done. Qed.

Lemma fsum_cons f k l : fsum f (k :: l) = fadd (f k) (fsum f l).
Proof. done. Qed.

Lemma fsum_zero (f : nat → fval) l :
  (∀ k, k ∈ l → f k = Fin 0) → fsum f l = Fin 0.
Proof.
  induction l as [|k l IH]; intros Hz; [done|].
  rewrite fsum_cons, Hz, fadd_0_l by set_solver. apply IH. set_solver.
Qed.

(** A sum with a single non-zero term. *)
Lemma fsum_single (f : nat → fval) l j :
  NoDup l → j ∈ l →
  (∀ k, k ∈ l → k ≠ j → f k = Fin 0) →
  fsum f l = f j.
Proof.
  induction l as [|k l IH]; intros Hnd Hj Hz; [set_solver|].
  apply NoDup_cons in Hnd as [Hk Hnd].
  rewrite fsum_cons. destruct (decide (k = j)) as [->|Hne].
  - rewrite fsum_zero, fadd_0_r; [done|].
    intros k' Hk'. apply Hz; set_solver.
  - rewrite Hz, fadd_0_l by set_solver.
    apply IH; set_solver.
Qed.

(** NaN is absorbing. *)
Lemma fsum_nan (f : nat → fval) l j :
  j ∈ l → f j = NaN → fsum f l = NaN.
Proof.
  induction l as [|k l IH]; intros Hj Hnan; [set_solver|].
  rewrite fsum_cons. destruct (decide (k = j)) as [->|Hne].
  - by rewrite Hnan.
  - rewrite IH by set_solver. apply fadd_nan_r.
Qed.
End fval_facts.

(** From here on the arithmetic is used through the lemmas above. *)
Arguments fadd : simpl never.

Arguments fsub : simpl never.

Arguments fmul : simpl never.

Arguments fdiv : simpl never.

Arguments clamp : simpl never.

(** ** Dense matrices: reading, writing, products *)

Section matrix_facts.
Context {A : Type}.
Implicit Types (X : list (list A)).

Lemma tabulate_shape n m (f : nat → nat → A) : has_shape n m (tabulate n m f).
Proof.
  unfold has_shape, tabulate. split.
  - by rewrite length_fmap, length_seq.
  - apply Forall_fmap, Forall_forall. intros i _. cbn.
    by rewrite length_fmap, length_seq.
Qed.

Lemma tabulate_lookup n m (f : nat → nat → A) i j :
  i < n → j < m → tabulate n m f !! i ≫= (.!! j) = Some (f i j).
Proof.
  intros Hi Hj. unfold tabulate.
  rewrite list_lookup_fmap, lookup_seq_lt by done. cbn.
  by rewrite list_lookup_fmap, lookup_seq_lt.
Qed.

Lemma mget_tabulate n m (f : nat → nat → A) i j :
  i < n → j < m → mget (tabulate n m f) i j = Ok (f i j).
Proof.
  intros Hi Hj. pose proof (tabulate_lookup n m f i j Hi Hj) as H.
  unfold mget, index.
  destruct (tabulate n m f !! i) as [row|]; [|done]. cbn in *.
  by rewrite H.
Qed.

Lemma has_shape_lookup n m X i :
  has_shape n m X → i < n → ∃ row, X !! i = Some row ∧ length row = m.
Proof.
  intros [Hlen Hrows] Hi.
  destruct (lookup_lt_is_Some_2 X i) as [row Hrow]; [lia|].
  exists row. split; [done|].
  by eapply (Forall_lookup_1 _ _ _ _ Hrows).
Qed.

Lemma has_shape_lookup2 n m X i j :
  has_shape n m X → i < n → j < m → is_Some (X !! i ≫= (.!! j)).
Proof.
  intros Hs Hi Hj. destruct (has_shape_lookup _ _ _ _ Hs Hi) as (row & -> & Hlen).
  cbn. apply lookup_lt_is_Some_2. lia.
Qed.

Lemma mget_lookup X i j :
  mget X i j = match X !! i ≫= (.!! j) with Some x => Ok x | None => Raise IndexError end.
Proof.
  unfold mget, index. destruct (X !! i) as [row|]; cbn; [|done].
  by destruct (row !! j).
Qed.

Lemma mset_shape n m X i j v :
  has_shape n m X → i < n → j < m →
  ∃ X', mset X i j v = Ok X' ∧ has_shape n m X' ∧
    ∀ i' j', X' !! i' ≫= (.!! j') =
             if decide (i' = i ∧ j' = j) then Some v else X !! i' ≫= (.!! j').
Proof.
  intros Hs Hi Hj.
  destruct (has_shape_lookup _ _ _ _ Hs Hi) as (row & Hrow & Hlen).
  unfold mset, index. rewrite Hrow. cbn.
  destruct (lookup_lt_is_Some_2 row j) as [x ->]; [lia|]. cbn.
  eexists. split; [done|]. destruct Hs as [Hn Hrows]. split.
  - split; [by rewrite length_insert|].
    apply Forall_insert; [done|]. by rewrite length_insert.
  - intros i' j'. destruct (decide (i' = i)) as [->|Hne].
    + rewrite list_lookup_insert_eq by lia. cbn.
      destruct (decide (j' = j)) as [->|Hnej].
      * rewrite list_lookup_insert_eq by lia. by rewrite decide_True.
      * rewrite list_lookup_insert_ne by done. rewrite Hrow. cbn.
        rewrite decide_False; [done|]. naive_solver.
    + rewrite list_lookup_insert_ne by done.
      rewrite decide_False; [done|]. naive_solver.
Qed.
End matrix_facts.

Lemma ent_tabulate n m (f : nat → nat → fval) i j :
  i < n → j < m → ent (tabulate n m f) i j = f i j.
Proof. intros Hi Hj. unfold ent. by rewrite tabulate_lookup. Qed.

Lemma mget_ent n m (X : matrix) i j :
  has_shape n m X → i < n → j < m → mget X i j = Ok (ent X i j).
Proof.
  intros Hs Hi Hj. rewrite mget_lookup. unfold ent.
  by destruct (has_shape_lookup2 _ _ _ _ _ Hs Hi Hj) as [x ->].
Qed.

(** ** The polarity-correction loop *)

Section correction_loop.
Variables (M : nat) (p : list Z).
Hypothesis p_length : length p = M.

Lemma correct_entry_spec (O : matrix) i j :
  has_shape M M O → i < M → j < M →
  ∃ O', correct_entry p i j O = Ok O' ∧ has_shape M M O' ∧
    ∀ i' j', i' < M → j' < M →
      ent O' i' j' =
      if decide (i' = i ∧ j' = j) then corrected p i j (ent O i j) else ent O i' j'.
Proof.
  intros Hs Hi Hj. unfold correct_entry, corrected.
  destruct (decide (i ≠ j)) as [Hne|Heq].
  - destruct (lookup_lt_is_Some_2 p i) as [p_i Hpi]; [lia|].
    destruct (lookup_lt_is_Some_2 p j) as [p_j Hpj]; [lia|].
    unfold index at 1 2. rewrite Hpi, Hpj. cbn.
    rewrite (mget_ent _ _ _ _ _ Hs Hi Hj). cbn.
    destruct (mset_shape M M O i j
      (fmul (Fin (if decide (p_i = p_j) then 1%R else (-1)%R))
            (fsub (ent O i j) (Fin 1))) Hs Hi Hj) as (O' & -> & Hs' & Hent).
    exists O'. split_and!; [done..|].
    intros i' j' Hi' Hj'. unfold ent at 1. rewrite Hent.
    destruct (decide (i' = i ∧ j' = j)) as [[-> ->]|]; [|done]. cbn.
    rewrite (decide_False (P := i = j)) by done. unfold polarity_sign. rewrite Hpi, Hpj.
    destruct (decide (p_i = p_j)) as [->|Hp].
    + by rewrite decide_True.
    + rewrite decide_False; [done|]. congruence.
  - apply dec_stable in Heq as ->. exists O. split_and!; [done..|].
    intros i' j' _ _. rewrite (decide_True (P := j = j)) by done.
    destruct (decide (i' = j ∧ j' = j)) as [[-> ->]|]; done.
Qed.

(** One pass of the inner loop over the columns [js] of row [i]. *)
Lemma correct_row_spec i js : ∀ O : matrix,
  has_shape M M O → i < M → NoDup js → (∀ j, j ∈ js → j < M) →
  ∃ O', for_each js (correct_entry p i) O = Ok O' ∧ has_shape M M O' ∧
    ∀ i' j', i' < M → j' < M →
      ent O' i' j' =
      if decide (i' = i ∧ j' ∈ js) then corrected p i j' (ent O i j') else ent O i' j'.
Proof.
  induction js as [|j js IH]; intros O Hs Hi Hnd Hjs.
  - exists O. split_and!; [done..|]. intros i' j' _ _.
    rewrite decide_False; [done|]. set_solver.
  - apply NoDup_cons in Hnd as [Hj Hnd]. cbn.
    destruct (correct_entry_spec O i j Hs Hi) as (O1 & -> & Hs1 & Hent1); [set_solver|].
    cbn. destruct (IH O1 Hs1 Hi Hnd) as (O' & -> & Hs' & Hent'); [set_solver|].
    exists O'. split_and!; [done..|]. intros i' j' Hi' Hj'.
    rewrite Hent' by done.
    destruct (decide (i' = i ∧ j' ∈ js)) as [[-> Hin]|Hout].
    + rewrite Hent1 by done.
      rewrite decide_False by (intros [_ ->]; done).
      rewrite decide_True; [done|]. set_solver.
    + rewrite Hent1 by done.
      destruct (decide (i' = i ∧ j' = j)) as [[-> ->]|Hne].
      * rewrite decide_True; [done|]. set_solver.
      * rewrite decide_False; [done|]. set_solver.
Qed.

(** The outer loop over the rows [rows]. *)
Lemma correct_rows_spec rows : ∀ O : matrix,
  has_shape M M O → NoDup rows → (∀ i, i ∈ rows → i < M) →
  ∃ O', for_each rows (λ i, for_each (seq 0 M) (correct_entry p i)) O = Ok O' ∧
    has_shape M M O' ∧
    ∀ i' j', i' < M → j' < M →
      ent O' i' j' =
      if decide (i' ∈ rows) then corrected p i' j' (ent O i' j') else ent O i' j'.
Proof.
  induction rows as [|i rows IH]; intros O Hs Hnd Hrows.
  - exists O. split_and!; [done..|]. intros i' j' _ _.
    rewrite decide_False; [done|]. set_solver.
  - apply NoDup_cons in Hnd as [Hi Hnd]. cbn.
    destruct (correct_row_spec i (seq 0 M) O Hs) as (O1 & -> & Hs1 & Hent1).
    { set_solver. } { apply NoDup_seq. } { intros j Hj%elem_of_seq. lia. }
    cbn. destruct (IH O1 Hs1 Hnd) as (O' & -> & Hs' & Hent'); [set_solver|].
    exists O'. split_and!; [done..|]. intros i' j' Hi' Hj'.
    rewrite Hent', !Hent1 by done.
    assert (Hseq : j' ∈ seq 0 M) by (apply elem_of_seq; lia).
    destruct (decide (i' ∈ rows)) as [Hin|Hout].
    + rewrite decide_False by (intros [-> _]; done).
      rewrite decide_True; [done|]. set_solver.
    + destruct (decide (i' = i)) as [->|Hne].
      * rewrite decide_True by done. rewrite decide_True; [done|]. set_solver.
      * rewrite decide_False by naive_solver.
        rewrite decide_False; [done|]. set_solver.
Qed.

Lemma correct_polarities_spec (O : matrix) :
  has_shape M M O →
  ∃ O', correct_polarities M p O = Ok O' ∧ has_shape M M O' ∧
    ∀ i j, i < M → j < M → ent O' i j = corrected p i j (ent O i j).
Proof.
  intros Hs. unfold correct_polarities.
  destruct (correct_rows_spec (seq 0 M) O Hs) as (O' & HO' & Hs' & Hent).
  { apply NoDup_seq. } { intros j Hj%elem_of_seq. lia. }
  exists O'. split_and!; [done..|]. intros i j Hi Hj.
  rewrite Hent by done. rewrite decide_True; [done|]. apply elem_of_seq. lia.
Qed.
End correction_loop.

(** ** Dividing out the propensities: [B @ O @ B] *)

Section normalization.
Local Open Scope R_scope.
Variables (M : nat) (o : nat → nat → R).

(** A source that never votes overlaps with nobody. *)
Hypothesis silent_row : ∀ i k, (i < M)%nat → (k < M)%nat → o i i = 0 → o i k = 0.
Hypothesis silent_col : ∀ i k, (i < M)%nat → (k < M)%nat → o i i = 0 → o k i = 0.

Let O : matrix := tabulate M M (λ i j, Fin (o i j)).
Let B : matrix := diag_matrix (fdiv (Fin 1) <$> diagonal O).

Lemma propensity_normalized_unfold : propensity_normalized O = matmul (matmul B O) B.
Proof. done. Qed.

Lemma O_length : length O = M.
Proof. apply (tabulate_shape M M). Qed.

Lemma diagonal_lookup i : (i < M)%nat → diagonal O !! i = Some (Fin (o i i)).
Proof.
  intros Hi. unfold diagonal. rewrite list_lookup_imap.
  destruct (lookup_lt_is_Some_2 O i) as [row ->]; [rewrite O_length; lia|].
  cbn. f_equal. by apply ent_tabulate.
Qed.

Lemma diagonal_length : length (fdiv (Fin 1) <$> diagonal O) = M.
Proof. unfold diagonal. by rewrite length_fmap, length_imap, O_length. Qed.

Lemma B_length : length B = M.
Proof.
  unfold B, diag_matrix. rewrite diagonal_length. apply (tabulate_shape M M).
Qed.

Lemma B_width : width B = M.
Proof.
  unfold B, diag_matrix. rewrite diagonal_length. unfold tabulate.
  destruct M; [done|]. cbn. by rewrite length_fmap, length_seq.
Qed.

Lemma B_ent i j :
  (i < M)%nat → (j < M)%nat →
  ent B i j = if decide (i = j) then fdiv (Fin 1) (Fin (o i i)) else Fin 0.
Proof.
  intros Hi Hj. unfold B, diag_matrix. rewrite diagonal_length.
  rewrite ent_tabulate by done. destruct (decide (i = j)); [|done].
  by rewrite list_lookup_fmap, diagonal_lookup.
Qed.

Lemma BO_shape : has_shape M M (matmul B O).
Proof.
  unfold matmul. rewrite B_length.
  replace (width O) with M; [apply tabulate_shape|].
  unfold O, tabulate. destruct M; [done|]. cbn. by rewrite length_fmap, length_seq.
Qed.

(** Left factor: row [i] is scaled by [1 / beta_i]. *)
Lemma BO_ent i k :
  (i < M)%nat → (k < M)%nat →
  ent (matmul B O) i k = fmul (fdiv (Fin 1) (Fin (o i i))) (Fin (o i k)).
Proof.
  intros Hi Hk. unfold matmul at 1. rewrite B_length.
  assert (width O = M) as ->.
  { unfold O, tabulate. destruct M; [done|]. cbn. by rewrite length_fmap, length_seq. }
  rewrite ent_tabulate, O_length by done.
  rewrite (fsum_single _ _ i).
  - rewrite B_ent, decide_True by done. unfold O. by rewrite ent_tabulate.
  - apply NoDup_seq.
  - apply elem_of_seq. lia.
  - intros l Hl%elem_of_seq Hne.
    rewrite B_ent, decide_False by (done || lia).
    unfold O. rewrite ent_tabulate by lia. apply fmul_0_fin.
Qed.

Lemma BOB_shape : has_shape M M (matmul (matmul B O) B).
Proof.
  unfold matmul at 1. destruct BO_shape as [-> _]. rewrite B_width.
  apply tabulate_shape.
Qed.

(** Both factors: [O[i, j] / (beta_i * beta_j)], and NaN as soon as one of
    the two sources never votes. *)
Lemma BOB_ent i j :
  (i < M)%nat → (j < M)%nat →
  ent (matmul (matmul B O) B) i j =
  if Req_dec_T (o i i) 0 then NaN
  else if Req_dec_T (o j j) 0 then NaN
  else Fin (o i j / (o i i * o j j)).
Proof.
  intros Hi Hj. unfold matmul at 1. destruct BO_shape as [-> _].
  rewrite B_width, ent_tabulate, B_length by done.
  assert (Hjin : j ∈ seq 0 M) by (apply elem_of_seq; lia).
  destruct (Req_dec_T (o i i) 0) as [Hbi|Hbi].
  - apply (fsum_nan _ _ j Hjin).
    rewrite BO_ent, Hbi, fdiv_1_0 by done.
    rewrite (silent_row i j Hi Hj Hbi). by rewrite fmul_pinf_0.
  - rewrite (fsum_single _ _ j (NoDup_seq _ _) Hjin).
    + rewrite BO_ent, B_ent, decide_True by done.
      rewrite (fdiv_1_fin _ Hbi).
      destruct (Req_dec_T (o j j) 0) as [Hbj|Hbj].
      * rewrite Hbj, fdiv_1_0. rewrite (silent_col j i) by done.
        unfold fmul, inf_times. destruct (Req_dec_T _ _) as [|Hne]; [done|].
        exfalso. apply Hne. lra.
      * rewrite (fdiv_1_fin _ Hbj). unfold fmul. f_equal. by field.
    + intros k Hk%elem_of_seq Hne.
      rewrite BO_ent, B_ent, decide_False by (done || lia).
      rewrite (fdiv_1_fin _ Hbi). apply fmul_fin_0.
Qed.
End normalization.

(** ** Co-presence counts *)

Section copresence.
Implicit Types (R S : list nat) (L : csc_matrix).

Lemma slice_fmap {A B} (f : A → B) a b (l : list A) :
  slice a b (f <$> l) = f <$> slice a b l.
Proof. unfold slice. by rewrite fmap_take, fmap_drop. Qed.

Lemma column_binarize L j :
  length (row_indices L j) = length (stored L j) →
  column (binarize L) j = (λ r, (r, 1%Z)) <$> row_indices L j.
Proof.
  unfold column, row_indices, stored, binarize. cbn.
  destruct (indptr L !! j) as [a|]; [|done].
  destruct (indptr L !! (j + 1)) as [b|]; [|done].
  rewrite slice_fmap.
  generalize (slice a b (indices L)) (slice a b (data L)).
  induction l as [|r l IH]; intros [|v k] Hlen; try done.
  cbn. f_equal. apply IH. by injection Hlen.
Qed.

Lemma gram_binarize L i j :
  length (row_indices L i) = length (stored L i) →
  length (row_indices L j) = length (stored L j) →
  gram_entry (binarize L) i j =
  Z.of_nat (co_present (row_indices L i) (row_indices L j)).
Proof.
  intros Hi Hj. unfold gram_entry. rewrite !column_binarize by done.
  unfold co_present. clear Hi Hj.
  induction (row_indices L i) as [|r R IH]; [done|].
  cbn. rewrite Nat2Z.inj_add, <- IH. f_equal.
  unfold hits. clear. induction (row_indices L j) as [|s S IH]; [done|].
  cbn. rewrite Nat2Z.inj_add, <- IH. f_equal.
  by destruct (decide (r = s)).
Qed.

Lemma hits_NoDup r S : NoDup S → hits r S = if decide (r ∈ S) then 1 else 0.
Proof.
  unfold hits. induction S as [|s S IH]; intros Hnd; [done|].
  apply NoDup_cons in Hnd as [Hs Hnd]. cbn. rewrite IH by done.
  destruct (decide (r = s)) as [->|Hne].
  - rewrite decide_False by done. rewrite decide_True; [done|]. set_solver.
  - destruct (decide (r ∈ S)).
    + rewrite decide_True; [done|]. set_solver.
    + rewrite decide_False; [done|]. set_solver.
Qed.

Lemma hits_not_in r S : r ∉ S → hits r S = 0.
Proof.
  unfold hits. induction S as [|s S IH]; intros Hr; [done|].
  cbn. rewrite IH by set_solver. rewrite decide_False; [done|]. set_solver.
Qed.

Lemma co_present_nil_l S : co_present [] S = 0.
Proof. done. Qed.

Lemma co_present_nil_r R : co_present R [] = 0.
Proof. unfold co_present. by induction R. Qed.

Lemma co_present_disjoint R S :
  (∀ r, r ∈ R → r ∉ S) → co_present R S = 0.
Proof.
  unfold co_present. induction R as [|r R IH]; intros Hd; [done|].
  cbn. rewrite hits_not_in, IH; [done| |]; set_solver.
Qed.

Lemma co_present_self R : NoDup R → co_present R R = length R.
Proof.
  intros Hnd. unfold co_present.
  assert (H : ∀ R', (∀ r, r ∈ R' → r ∈ R) →
            sum_list ((λ r, hits r R) <$> R') = length R').
  { induction R' as [|r R' IH]; intros Hsub; [done|].
    cbn. rewrite IH by set_solver. rewrite hits_NoDup by done.
    rewrite decide_True; [done|]. set_solver. }
  by apply H.
Qed.

Lemma NoDup_bounded_length R N :
  NoDup R → (∀ r, r ∈ R → r < N) → length R ≤ N.
Proof.
  intros Hnd Hlt. rewrite <- (length_seq N 0).
  apply submseteq_length, NoDup_submseteq; [done|].
  intros r Hr. apply elem_of_seq. specialize (Hlt r Hr). lia.
Qed.
End copresence.

(** ** The overlaps matrix, entry by entry *)

Section overlaps.
Local Open Scope R_scope.
Variables (M : nat) (L : csc_matrix) (t : nat).
Hypothesis valid : valid_votes M L.

Lemma comprehension_ok {A B} (f : A → result B) (g : A → B) l :
  (∀ x, x ∈ l → f x = Ok (g x)) → comprehension f l = Ok (g <$> l).
Proof.
  induction l as [|x l IH]; intros Hf; [done|].
  cbn. rewrite Hf by set_solver. cbn. rewrite IH by set_solver. done.
Qed.

Lemma valid_polarities :
  comprehension (_infer_polarity L t) (seq 0 M) = Ok (polarities M L).
Proof.
  destruct valid as [[_ Hptr _] Hn Hz Hu].
  apply comprehension_ok. intros j Hj%elem_of_seq.
  unfold polarity. rewrite <- (votes_no_explicit_zero L j) by (apply Hz; lia).
  apply infer_polarity_canonical; [lia|apply Hz; lia|apply Hu; lia].
Qed.

Lemma nrows_pos : 0 < INR (nrows L).
Proof.
  destruct valid as [[Hrows _ _] _ _ _]. apply lt_0_INR. lia.
Qed.

Lemma gram_overlap_rate i j :
  (i < M)%nat → (j < M)%nat →
  IZR (gram_entry (binarize L) i j) / INR (nrows (binarize L)) = overlap_rate L i j.
Proof.
  intros Hi Hj. destruct valid as [[_ _ Hcol] Hn _ _].
  rewrite gram_binarize by (apply Hcol; lia).
  unfold overlap_rate. by rewrite <- INR_IZR_INZ.
Qed.

Lemma overlap_rate_self i :
  (i < M)%nat → overlap_rate L i i = propensity L i.
Proof.
  intros Hi. destruct valid as [[_ _ Hcol] Hn _ _].
  unfold overlap_rate, propensity.
  rewrite co_present_self; [done|]. apply Hcol. lia.
Qed.

Lemma propensity_zero i : propensity L i = 0 ↔ row_indices L i = [].
Proof.
  pose proof nrows_pos as HN. unfold propensity. split.
  - intros H0. destruct (row_indices L i) as [|r R]; [done|].
    exfalso. assert (0 < INR (length (r :: R))) by (apply lt_0_INR; cbn; lia).
    assert (0 < INR (length (r :: R)) / INR (nrows L)); [|lra].
    by apply Rdiv_lt_0_compat.
  - intros ->. cbn. unfold Rdiv. lra.
Qed.

Lemma propensity_le_1 i : (i < M)%nat → propensity L i <= 1.
Proof.
  intros Hi. pose proof nrows_pos as HN.
  destruct valid as [[_ _ Hcol] Hn _ _].
  destruct (Hcol i) as (_ & Hnd & Hlt); [lia|].
  pose proof (NoDup_bounded_length _ _ Hnd Hlt) as Hle.
  apply le_INR in Hle. unfold propensity.
  apply (Rmult_le_reg_r (INR (nrows L))); [done|].
  unfold Rdiv. rewrite Rmult_assoc, Rinv_l by lra. lra.
Qed.

Lemma overlap_rate_silent_l i k : propensity L i = 0 → overlap_rate L i k = 0.
Proof.
  intros Hi%propensity_zero. unfold overlap_rate. rewrite Hi. cbn.
  unfold Rdiv. lra.
Qed.

Lemma overlap_rate_silent_r i k : propensity L i = 0 → overlap_rate L k i = 0.
Proof.
  intros Hi%propensity_zero. unfold overlap_rate.
  rewrite Hi, co_present_nil_r. cbn. unfold Rdiv. lra.
Qed.

(** The first half of the method: the empirical overlaps with the
    propensities divided out. *)
Lemma normalized_matrix_entries :
  ∃ O, empirical_overlaps (binarize L) = Ok O ∧
    has_shape M M (propensity_normalized O) ∧
    ∀ i j, (i < M)%nat → (j < M)%nat →
      ent (propensity_normalized O) i j = normalized_entry L i j.
Proof.
  unfold empirical_overlaps.
  destruct (decide (nrows (binarize L) = 0%nat)) as [H0|_].
  { destruct valid as [[Hrows _ _] _ _ _].
    unfold nrows, binarize in *. cbn in *. lia. }
  assert (Hn : ncols (binarize L) = M) by (by destruct valid).
  rewrite Hn.
  set (o := λ i j, if decide (i < M ∧ j < M)%nat then overlap_rate L i j else 0).
  assert (HO : tabulate M M
             (λ i j, Fin (IZR (gram_entry (binarize L) i j) / INR (nrows (binarize L))))
           = tabulate M M (λ i j, Fin (o i j))).
  { unfold tabulate. apply list_fmap_ext. intros ? i [-> Hi]%lookup_seq.
    apply list_fmap_ext. intros ? j [-> Hj]%lookup_seq. cbn.
    unfold o. rewrite decide_True by lia. f_equal. apply gram_overlap_rate; lia. }
  rewrite HO. eexists. split; [done|].
  assert (Hrow : ∀ i k, (i < M)%nat → (k < M)%nat → o i i = 0 → o i k = 0).
  { intros i k Hi Hk. unfold o. rewrite !decide_True by lia.
    rewrite overlap_rate_self by done. apply overlap_rate_silent_l. }
  assert (Hcol : ∀ i k, (i < M)%nat → (k < M)%nat → o i i = 0 → o k i = 0).
  { intros i k Hi Hk. unfold o. rewrite !decide_True by lia.
    rewrite overlap_rate_self by done. apply overlap_rate_silent_r. }
  split; [apply (BOB_shape M o Hrow Hcol)|].
  intros i j Hi Hj. unfold propensity_normalized.
  rewrite (BOB_ent M o Hrow Hcol) by done.
  unfold normalized_entry, o. rewrite !decide_True by lia.
  by rewrite !overlap_rate_self.
Qed.

(** The whole method on a valid input. *)
Lemma overlaps_matrix_entries :
  ∃ O, _get_overlaps_matrix M L t = Ok O ∧ has_shape M M O ∧
    ∀ i j, (i < M)%nat → (j < M)%nat → mget O i j = Ok (overlaps_entry M L i j).
Proof.
  unfold _get_overlaps_matrix. rewrite valid_polarities. cbn.
  destruct normalized_matrix_entries as (O_emp & -> & Hshape & Hnorm). cbn.
  assert (Hp : length (polarities M L) = M).
  { unfold polarities. by rewrite length_fmap, length_seq. }
  destruct (correct_polarities_spec M (polarities M L) Hp _ Hshape)
    as (O' & -> & Hs' & Hent).
  cbn. eexists. split; [done|]. split.
  - destruct Hs' as [Hlen Hrows]. split.
    + unfold clamp_overlaps, nan_to_zero. by rewrite !length_fmap.
    + unfold clamp_overlaps, nan_to_zero.
      apply Forall_fmap, Forall_fmap.
      eapply Forall_impl; [exact Hrows|]. intros row Hlrow. cbn.
      by rewrite !length_fmap.
  - intros i j Hi Hj. rewrite mget_lookup.
    unfold clamp_overlaps, nan_to_zero. rewrite !list_lookup_fmap.
    specialize (Hent i j Hi Hj).
    destruct (has_shape_lookup _ _ _ _ Hs' Hi) as (row & Hirow & Hlen).
    destruct (lookup_lt_is_Some_2 row j) as [x Hx]; [lia|].
    assert (x = ent O' i j) as ->.
    { unfold ent. rewrite Hirow. cbn. by rewrite Hx. }
    rewrite Hirow. cbn. rewrite !list_lookup_fmap, Hx. cbn.
    f_equal. unfold overlaps_entry. by rewrite Hent, Hnorm.
Qed.
End overlaps.

(** ** The checker for valid inputs *)

Lemma all_equal_spec l v w : all_equal l = true → v ∈ l → w ∈ l → v = w.
Proof.
  destruct l as [|x l]; [set_solver|]. cbn. rewrite forallb_forall.
  intros Hall Hv Hw.
  assert (Hx : ∀ y, y ∈ x :: l → y = x).
  { intros y [->|Hy]%elem_of_cons; [done|].
    apply list_elem_of_In, Hall, Z.eqb_eq in Hy. done. }
  by rewrite (Hx v), (Hx w).
Qed.

Lemma valid_votesb_sound M L : valid_votesb M L = true → valid_votes M L.
Proof.
  unfold valid_votesb. rewrite !andb_true_iff, forallb_forall.
  intros [[[Hrows%Nat.ltb_lt Hptr%Nat.eqb_eq] Hn%Nat.eqb_eq] Hcols].
  assert (Hcol : ∀ j, j < M →
    length (row_indices L j) = length (stored L j) ∧
    NoDup (row_indices L j) ∧
    (∀ r, r ∈ row_indices L j → r < nrows L) ∧
    no_explicit_zero L j ∧
    (∀ v w, v ∈ stored L j → w ∈ stored L j → v = w)).
  { intros j Hj.
    assert (Hin : In j (seq 0 M)) by (apply list_elem_of_In, elem_of_seq; lia).
    specialize (Hcols j Hin). unfold column_ok in Hcols.
    rewrite !andb_true_iff, !forallb_forall in Hcols.
    destruct Hcols as [[[[Hlen%Nat.eqb_eq Hnd%bool_decide_eq_true_1] Hlt] Hnz] Heq].
    split_and!; [done..| | |].
    - intros r Hr%list_elem_of_In. by apply Nat.ltb_lt, Hlt.
    - intros H0%list_elem_of_In. by specialize (Hnz _ H0).
    - intros v w. by apply all_equal_spec. }
  split.
  - split; [done..|]. intros j Hj. rewrite Hn in Hj.
    destruct (Hcol j Hj) as (? & ? & ? & _). done.
  - done.
  - intros j Hj. by destruct (Hcol j Hj) as (_ & _ & _ & ? & _).
  - intros j Hj. destruct (Hcol j Hj) as (_ & _ & _ & Hz & Heq).
    unfold unipolar. by rewrite (votes_no_explicit_zero _ _ Hz).
Qed.

(** ** Special entries of the overlaps matrix *)

Section overlaps_cases.
Local Open Scope R_scope.
Variables (M : nat) (L : csc_matrix).
Hypothesis valid : valid_votes M L.

Lemma polarity_sign_polarities i j :
  (i < M)%nat → (j < M)%nat →
  polarity_sign (polarities M L) i j =
  if decide (polarity L i = polarity L j) then 1 else -1.
Proof.
  intros Hi Hj. unfold polarity_sign, polarities.
  rewrite !list_lookup_fmap, !lookup_seq_lt by done. cbn.
  destruct (decide (polarity L i = polarity L j)) as [->|Hne].
  - by rewrite decide_True.
  - rewrite decide_False; [done|]. congruence.
Qed.

(** A source that votes: the self-overlap is [1 / beta_i], at least 1. *)
Lemma normalized_entry_diag i :
  (i < M)%nat → row_indices L i ≠ [] →
  normalized_entry L i i = Fin (/ propensity L i) ∧ 1 <= / propensity L i.
Proof.
  intros Hi Hvotes.
  assert (Hb : propensity L i ≠ 0) by (by rewrite (propensity_zero M L valid)).
  pose proof (propensity_le_1 M L valid i Hi) as Hle.
  assert (Hpos : 0 < propensity L i).
  { unfold propensity in *. pose proof (nrows_pos M L valid).
    pose proof (pos_INR (length (row_indices L i))).
    assert (0 <= INR (length (row_indices L i)) / INR (nrows L)); [|lra].
    apply Rle_mult_inv_pos; lra. }
  split.
  - unfold normalized_entry. destruct (Req_dec_T (propensity L i) 0); [done|].
    rewrite (overlap_rate_self M L valid) by done. f_equal. by field.
  - rewrite <- Rinv_1. apply Rinv_le_contravar; lra.
Qed.

Lemma overlaps_entry_diag i :
  (i < M)%nat → row_indices L i ≠ [] → overlaps_entry M L i i = Fin 0.95.
Proof.
  intros Hi Hvotes. unfold overlaps_entry, corrected.
  rewrite decide_True by done.
  destruct (normalized_entry_diag i Hi Hvotes) as [-> Hge]. cbn.
  apply clamp_fin_above; lra.
Qed.

(** A source that never votes leaves NaNs, which are repaired to 0. *)
Lemma overlaps_entry_silent i j :
  i ≠ j → row_indices L i = [] ∨ row_indices L j = [] →
  overlaps_entry M L i j = Fin 0.
Proof.
  intros Hne Hsilent. unfold overlaps_entry, corrected.
  rewrite decide_False by done.
  assert (normalized_entry L i j = NaN) as ->.
  { unfold normalized_entry.
    destruct (Req_dec_T (propensity L i) 0) as [|Hi]; [done|].
    destruct (Req_dec_T (propensity L j) 0) as [|Hj]; [done|].
    rewrite (propensity_zero M L valid) in Hi, Hj. naive_solver. }
  unfold fsub. rewrite fadd_nan_l, fmul_nan_r. cbn.
  apply clamp_fin_inside. lra.
Qed.

(** Two sources that both vote, never on the same data point. *)
Lemma overlaps_entry_disjoint i j :
  (i < M)%nat → (j < M)%nat → i ≠ j →
  row_indices L i ≠ [] → row_indices L j ≠ [] →
  (∀ r, r ∈ row_indices L i → r ∉ row_indices L j) →
  overlaps_entry M L i j =
  Fin (if decide (polarity L i = polarity L j) then -0.95 else 0.95).
Proof.
  intros Hi Hj Hne Hvi Hvj Hdisj. unfold overlaps_entry, corrected.
  rewrite decide_False by done.
  assert (normalized_entry L i j = Fin 0) as ->.
  { unfold normalized_entry.
    destruct (Req_dec_T (propensity L i) 0) as [Hbi|Hbi];
      [by rewrite (propensity_zero M L valid) in Hbi|].
    destruct (Req_dec_T (propensity L j) 0) as [Hbj|Hbj];
      [by rewrite (propensity_zero M L valid) in Hbj|].
    unfold overlap_rate. rewrite co_present_disjoint by done.
    f_equal. cbn. unfold Rdiv. ring. }
  rewrite polarity_sign_polarities by done.
  unfold fsub, fadd, fopp, fmul.
  destruct (decide (polarity L i = polarity L j)); cbn.
  - apply clamp_fin_below; lra.
  - apply clamp_fin_above; lra.
Qed.
End overlaps_cases.

(** ** Theorems about [_get_overlaps_matrix] *)

(** C5: on every valid (unipolar) input the method returns a matrix whose
    entries are all numbers (never NaN) in the closed interval
    [-0.95, 0.95]. *)
Theorem overlaps_entries_clamped (M : nat) (L : csc_matrix) (t : nat) :
  valid_votes M L →
  ∃ O, _get_overlaps_matrix M L t = Ok O ∧ has_shape M M O ∧
    ∀ i j, i < M → j < M →
      ∃ q, mget O i j = Ok (Fin q) ∧ (-0.95 <= q <= 0.95)%R.
Proof.
  intros valid.
  destruct (overlaps_matrix_entries M L t valid) as (O & HO & Hs & Hent).
  exists O. split_and!; [done..|]. intros i j Hi Hj.
  rewrite (Hent i j Hi Hj). unfold overlaps_entry.
  destruct (clamp_repaired (-0.95) 0.95
              (corrected (polarities M L) i j (normalized_entry L i j)))
    as (q & -> & Hq); [lra|].
  by exists q.
Qed.

Lemma overlaps_entries_clamped_witness :
  ∃ O, _get_overlaps_matrix 3 L_example 0 = Ok O ∧ has_shape 3 3 O ∧
    ∀ i j, i < 3 → j < 3 →
      ∃ q, mget O i j = Ok (Fin q) ∧ (-0.95 <= q <= 0.95)%R.
Proof.
  apply (overlaps_entries_clamped 3 L_example 0).
  apply valid_votesb_sound. vm_compute. reflexivity.
Defined.

(** C6, as the code has it: for a source that casts at least one vote the
    propensity-normalized self-overlap is [1 / beta_i], which is at least 1;
    the diagonal entry of the returned matrix is that value, not
    sign-corrected, after the final clamp, which makes it 0.95. *)
Theorem overlaps_diagonal_clamped (M : nat) (L : csc_matrix) (t i : nat) :
  valid_votes M L → i < M → row_indices L i ≠ [] →
  ∃ O_emp O,
    empirical_overlaps (binarize L) = Ok O_emp ∧
    ent (propensity_normalized O_emp) i i = Fin (/ propensity L i) ∧
    (1 <= / propensity L i)%R ∧
    _get_overlaps_matrix M L t = Ok O ∧
    mget O i i = Ok (clamp (-0.95) 0.95 (ent (propensity_normalized O_emp) i i)) ∧
    mget O i i = Ok (Fin 0.95).
Proof.
  intros valid Hi Hvotes.
  destruct (normalized_matrix_entries M L valid) as (O_emp & Hemp & _ & Hnorm).
  destruct (overlaps_matrix_entries M L t valid) as (O & HO & _ & Hent).
  destruct (normalized_entry_diag M L valid i Hi Hvotes) as [Hdiag Hge].
  assert (Hfinal : mget O i i = Ok (Fin 0.95)).
  { rewrite Hent by done. f_equal. by apply overlaps_entry_diag. }
  exists O_emp, O. split_and!; [done| |done|done| |done].
  - by rewrite Hnorm.
  - rewrite Hfinal, Hnorm, Hdiag by done. f_equal.
    symmetry. apply clamp_fin_above; lra.
Qed.

Lemma overlaps_diagonal_clamped_witness :
  ∃ O_emp O,
    empirical_overlaps (binarize L_example) = Ok O_emp ∧
    ent (propensity_normalized O_emp) 0 0 = Fin (/ propensity L_example 0) ∧
    (1 <= / propensity L_example 0)%R ∧
    _get_overlaps_matrix 3 L_example 0 = Ok O ∧
    mget O 0 0 = Ok (clamp (-0.95) 0.95 (ent (propensity_normalized O_emp) 0 0)) ∧
    mget O 0 0 = Ok (Fin 0.95).
Proof.
  apply (overlaps_diagonal_clamped 3 L_example 0 0).
  - apply valid_votesb_sound. vm_compute. reflexivity.
  - lia.
  - vm_compute. discriminate.
Defined.

(** C6, as stated, fails: the first source of the example votes on two of
    the three data points; its diagonal entry in the returned matrix is
    0.95, not 1. *)
Lemma overlaps_diagonal_not_one :
  valid_votes 3 L_example ∧ row_indices L_example 0 ≠ [] ∧
  ∃ O, _get_overlaps_matrix 3 L_example 0 = Ok O ∧
    mget O 0 0 = Ok (Fin 0.95) ∧ mget O 0 0 ≠ Ok (Fin 1).
Proof.
  assert (valid : valid_votes 3 L_example).
  { apply valid_votesb_sound. vm_compute. reflexivity. }
  assert (Hvotes : row_indices L_example 0 ≠ []) by (vm_compute; discriminate).
  split_and!; [done..|].
  destruct (overlaps_matrix_entries 3 L_example 0 valid) as (O & HO & _ & Hent).
  exists O. split; [done|].
  rewrite Hent by lia. rewrite (overlaps_entry_diag 3 L_example valid) by (done || lia).
  split; [done|]. intros [=]. lra.
Qed.

(** C7, as the code has it: for two distinct sources that never vote on
    the same data point, the entry is exactly 0 when one of them never
    votes at all; when both vote somewhere it is -0.95 if they have the
    same polarity and 0.95 if their polarities differ. *)
Theorem overlaps_never_cooccur (M : nat) (L : csc_matrix) (t i j : nat) :
  valid_votes M L → i < M → j < M → i ≠ j →
  (∀ r, r ∈ row_indices L i → r ∉ row_indices L j) →
  ∃ O, _get_overlaps_matrix M L t = Ok O ∧
    mget O i j =
    Ok (Fin (if decide (row_indices L i = [] ∨ row_indices L j = []) then 0
             else if decide (polarity L i = polarity L j) then -0.95
             else 0.95)%R).
Proof.
  intros valid Hi Hj Hne Hdisj.
  destruct (overlaps_matrix_entries M L t valid) as (O & HO & _ & Hent).
  exists O. split; [done|]. rewrite Hent by done. f_equal.
  destruct (decide (row_indices L i = [] ∨ row_indices L j = [])) as [Hs|Hv].
  - by apply overlaps_entry_silent.
  - apply overlaps_entry_disjoint; try done; naive_solver.
Qed.

Lemma overlaps_never_cooccur_witness :
  ∃ O, _get_overlaps_matrix 3 L_example 0 = Ok O ∧
    mget O 0 2 =
    Ok (Fin (if decide (row_indices L_example 0 = [] ∨ row_indices L_example 2 = [])
             then 0
             else if decide (polarity L_example 0 = polarity L_example 2) then -0.95
             else 0.95)%R).
Proof.
  apply (overlaps_never_cooccur 3 L_example 0 0 2).
  - apply valid_votesb_sound. vm_compute. reflexivity.
  - lia.
  - lia.
  - lia.
  - vm_compute. intros r _ H. inversion H.
Defined.

(** C7, as stated, fails: the first two sources of the example never vote on
    the same data point, and their entry in the returned matrix is 0.95. *)
Lemma overlaps_disjoint_not_zero :
  valid_votes 3 L_example ∧
  (∀ r, r ∈ row_indices L_example 0 → r ∉ row_indices L_example 1) ∧
  ∃ O, _get_overlaps_matrix 3 L_example 0 = Ok O ∧
    mget O 0 1 = Ok (Fin 0.95) ∧ mget O 0 1 ≠ Ok (Fin 0).
Proof.
  assert (valid : valid_votes 3 L_example).
  { apply valid_votesb_sound. vm_compute. reflexivity. }
  assert (Hdisj : ∀ r, r ∈ row_indices L_example 0 → r ∉ row_indices L_example 1).
  { intros r. change (row_indices L_example 0) with [0; 1].
    change (row_indices L_example 1) with [2]. set_solver. }
  split_and!; [done..|].
  destruct (overlaps_matrix_entries 3 L_example 0 valid) as (O & HO & _ & Hent).
  exists O. split; [done|]. rewrite Hent by lia.
  rewrite (overlaps_entry_disjoint 3 L_example valid) by (done || lia).
  rewrite decide_False by (vm_compute; discriminate).
  split; [done|]. intros [=]. lra.
Qed.

(** ** Theorems about [_infer_polarity] *)

(** C3: the first source of [L_explicit_zero] casts the single non-zero
    value 2, so the method should return 2; the stored zero makes it raise
    instead. *)
Theorem infer_polarity_explicit_zero :
  votes L_explicit_zero 0 = [2%Z] ∧
  unipolar L_explicit_zero 0 ∧
  _infer_polarity L_explicit_zero 0 0 = Raise (NonUnipolar 0 0).
Proof.
  split_and!.
  - reflexivity.
  - intros v w. change (votes L_explicit_zero 0) with [2%Z]. set_solver.
  - vm_compute. reflexivity.
Qed.

(** C4: the second source of [L_explicit_zero] casts only the value 3, yet
    the method raises the non-unipolar error for it, and so does the
    construction of the overlaps matrix (at the first source already). *)
Theorem non_unipolar_raised_for_explicit_zero :
  ¬ (∃ v w, v ∈ votes L_explicit_zero 1 ∧ w ∈ votes L_explicit_zero 1 ∧ v ≠ w) ∧
  _infer_polarity L_explicit_zero 0 1 = Raise (NonUnipolar 1 0) ∧
  _get_overlaps_matrix 2 L_explicit_zero 0 = Raise (NonUnipolar 0 0).
Proof.
  split_and!.
  - change (votes L_explicit_zero 1) with [3%Z]. set_solver.
  - vm_compute. reflexivity.
  - vm_compute. reflexivity.
Qed.

(** ** The loss: loops and sums *)

Section loss.
Local Open Scope R_scope.
Variables (self : LabelModel) (m Tn : nat) (G : list (list R)) (g0 l2 : R).
Hypothesis self_M : M self = Some m.
Hypothesis self_gamma : gamma self = Some G.
Hypothesis self_gamma_init : gamma_init self = Some g0.
Hypothesis G_shape : has_shape Tn m G.

Lemma sumR_nil : sumR [] = 0.
Proof. done. Qed.

Lemma sumR_cons x l : sumR (x :: l) = x + sumR l.
Proof. done. Qed.

Lemma sumR_app l k : sumR (l ++ k) = sumR l + sumR k.
Proof. unfold sumR. induction l as [|x l IH]; simpl; [ring|rewrite IH; ring]. Qed.

Lemma mget_rent {n k} (X : list (list R)) i j :
  has_shape n k X → (i < n)%nat → (j < k)%nat → mget X i j = Ok (rent X i j).
Proof.
  intros Hs Hi Hj. rewrite mget_lookup. unfold rent.
  by destruct (has_shape_lookup2 _ _ _ _ _ Hs Hi Hj) as [x ->].
Qed.

Lemma mget_finite {n k} (X : list (list R)) i j :
  has_shape n k X → (i < n)%nat → (j < k)%nat →
  mget (finite X) i j = Ok (Fin (rent X i j)).
Proof.
  intros Hs Hi Hj. rewrite mget_lookup. unfold rent, finite.
  rewrite list_lookup_fmap.
  destruct (has_shape_lookup _ _ _ _ Hs Hi) as (row & -> & Hlen). cbn.
  rewrite list_lookup_fmap.
  by destruct (lookup_lt_is_Some_2 row j) as [x ->]; [lia|].
Qed.

Section one_task.
Variables (t : nat) (Or : list (list R)).
Hypothesis t_lt : (t < Tn)%nat.
Hypothesis Or_shape : has_shape m m Or.

Let residual (i j : nat) : R := (rent G t i * rent G t j - rent Or i j) ^ 2.

Let body (i j : nat) (loss : fval) : result fval :=
  if decide (i ≠ j) then
    g ← attr (gamma self);
    g_ti ← mget g t i;
    g_tj ← mget g t j;
    o_ij ← mget (finite Or) i j;
    let d := fsub (Fin (g_ti * g_tj)) o_ij in
    Ok (fadd loss (fmul d d))
  else Ok loss.

Lemma body_spec i j a :
  (i < m)%nat → (j < m)%nat →
  body i j (Fin a) = Ok (Fin (a + if decide (i ≠ j) then residual i j else 0)).
Proof.
  intros Hi Hj. unfold body, residual.
  destruct (decide (i ≠ j)); [|do 2 f_equal; lra].
  rewrite self_gamma. cbn.
  rewrite !(mget_rent G) by done. cbn.
  rewrite (mget_finite Or) by done. cbn.
  do 2 f_equal. unfold fsub, fadd, fopp, fmul. f_equal. ring.
Qed.

Lemma inner_loop_spec i js : ∀ a,
  (i < m)%nat → (∀ j, j ∈ js → (j < m)%nat) →
  for_each js (body i) (Fin a) =
  Ok (Fin (a + sumR ((λ j, residual i j) <$> filter (λ j, i ≠ j) js))).
Proof.
  induction js as [|j js IH]; intros a Hi Hjs.
  - cbn. rewrite sumR_nil. do 2 f_equal. lra.
  - rewrite filter_cons. cbn [for_each]. rewrite body_spec by set_solver.
    cbn [mbind result_bind]. rewrite IH by set_solver. do 2 f_equal.
    destruct (decide (i ≠ j)); rewrite ?fmap_cons, ?sumR_cons; lra.
Qed.

Lemma outer_loop_spec rows : ∀ a,
  (∀ i, i ∈ rows → (i < m)%nat) →
  for_each rows (λ i, for_each (seq 0 m) (body i)) (Fin a) =
  Ok (Fin (a + sumR ((λ p, residual p.1 p.2) <$>
             filter (λ p, p.1 ≠ p.2) (i ← rows; j ← seq 0 m; [(i, j)])))).
Proof.
  induction rows as [|i rows IH]; intros a Hrows.
  - cbn. rewrite sumR_nil. do 2 f_equal. lra.
  - assert (Hrow : ∀ js,
      (λ p, residual p.1 p.2) <$> filter (λ p : nat * nat, p.1 ≠ p.2) (j ← js; [(i, j)])
      = (λ j, residual i j) <$> filter (λ j, i ≠ j) js).
    { induction js as [|j js IHjs]; [done|].
      rewrite bind_cons. cbn [app]. rewrite !filter_cons. cbn [fst snd].
      destruct (decide (i ≠ j)); rewrite ?fmap_cons, IHjs; done. }
    rewrite bind_cons, filter_app, fmap_app, sumR_app. cbn beta.
    rewrite Hrow. cbn [for_each]. rewrite inner_loop_spec.
    2: { set_solver. } 2: { intros j Hj%elem_of_seq. lia. }
    cbn [mbind result_bind]. rewrite IH by set_solver. do 2 f_equal. lra.
Qed.

Lemma regularizer_spec g_t :
  G !! t = Some g_t →
  sumR ((λ x, (x - g0) * (x - g0)) <$> g_t) =
  sumR ((λ i, (rent G t i - g0) ^ 2) <$> seq 0 m).
Proof.
  intros Hrow.
  assert (Hlen : length g_t = m).
  { destruct G_shape as [_ Hrows]. by apply (Forall_lookup_1 _ _ _ _ Hrows Hrow). }
  unfold rent. rewrite Hrow. cbn. rewrite <- Hlen. clear Hlen Hrow.
  induction g_t as [|x l IH] using rev_ind; [done|].
  rewrite length_app, Nat.add_1_r, seq_S, !fmap_app, !sumR_app. cbn.
  rewrite lookup_app_r, Nat.sub_diag by lia. cbn.
  rewrite IH. f_equal; [|rewrite !sumR_cons, sumR_nil; ring].
  f_equal. apply list_fmap_ext. intros k i [-> Hi]%lookup_seq. cbn.
  by rewrite lookup_app_l.
Qed.

Lemma task_loss_spec :
  (2 <= m)%nat →
  _task_loss self (finite Or) t l2 =
  Ok (Fin (task_loss_value m (rent G t) (rent Or) g0 l2)).
Proof.
  intros Hm. unfold _task_loss. rewrite self_M. cbn.
  pose proof (outer_loop_spec (seq 0 m) 0) as Hloop. unfold body in Hloop.
  rewrite Hloop by (intros i Hi%elem_of_seq; lia). clear Hloop. cbn.
  destruct (decide (m * m - m = 0)%nat) as [H0|Hne]; [nia|].
  assert (Hden : INR (m * m - m) = INR m ^ 2 - INR m).
  { rewrite minus_INR, mult_INR by nia. ring. }
  assert (Hpos : INR (m * m - m) ≠ 0) by (apply not_0_INR; lia).
  unfold fdiv. destruct (Req_dec_T (INR (m * m - m)) 0) as [|_]; [done|].
  unfold task_loss_value, ordered_pairs, residual. rewrite <- Hden.
  destruct (Rlt_dec 0 l2).
  - rewrite self_gamma. cbn.
    destruct (has_shape_lookup _ _ _ _ G_shape t_lt) as (g_t & Hrow & _).
    unfold index. rewrite Hrow. cbn. rewrite self_gamma_init. cbn.
    rewrite (regularizer_spec _ Hrow). unfold fadd. do 2 f_equal.
    cbn [pow]. lra.
  - do 2 f_equal. cbn [pow]. lra.
Qed.
End one_task.

(** The loop of [get_loss], started at task number [n]. *)
Lemma get_loss_loop Ors : ∀ n a,
  (2 <= m)%nat →
  (n + length Ors <= Tn)%nat →
  Forall (has_shape m m) Ors →
  for_each (imap (λ k, pair (n + k)%nat) (finite <$> Ors))
    (λ '(t, O_t) loss, l ← _task_loss self O_t t l2; Ok (fadd loss l)) (Fin a) =
  Ok (Fin (a + sumR (imap (λ k Or, task_loss_value m (rent G (n + k)) (rent Or) g0 l2)
                      Ors))).
Proof.
  induction Ors as [|Or Ors IH]; intros n a Hm Hn Hshapes.
  - cbn. rewrite sumR_nil. do 2 f_equal. lra.
  - apply Forall_cons in Hshapes as [Hs Hshapes]. cbn in Hn.
    cbn [fmap list_fmap imap for_each]. replace (n + 0)%nat with n by lia.
    rewrite task_loss_spec by (done || lia). cbn.
    rewrite (imap_ext _ (λ k, pair (S n + k)%nat)).
    2: { intros k O_t _. cbn. f_equal. lia. }
    unfold fadd at 2. rewrite IH by (done || lia). do 2 f_equal.
    rewrite (imap_ext (λ k Or', task_loss_value m (rent G (S n + k)) (rent Or') g0 l2)
                      ((λ k Or', task_loss_value m (rent G (n + k)) (rent Or') g0 l2) ∘ S)).
    2: { intros k O_t _. cbn. do 2 f_equal. lia. }
    rewrite sumR_cons. lra.
Qed.
End loss.

(** ** Theorems about the loss *)

(** C1: for a model with [M >= 2] sources and parameters [gamma] of shape
    [T x M], and for overlaps matrices of shape [M x M], [_task_loss] is the
    sum over the ordered pairs of distinct sources of the squared residuals
    divided by [M^2 - M], plus [l2] times the squared distance of
    [gamma[t]] to [gamma_init] when [l2 > 0]; and [get_loss] is the plain
    sum of the task losses over the tasks. *)
Theorem task_loss_and_total_loss
    (self : LabelModel) (m Tn : nat) (G : list (list R)) (g0 l2 : R)
    (Ors : list (list (list R))) :
  M self = Some m →
  gamma self = Some G →
  gamma_init self = Some g0 →
  has_shape Tn m G →
  length Ors = Tn →
  Forall (has_shape m m) Ors →
  2 ≤ m →
  (∀ t Or, Ors !! t = Some Or →
     _task_loss self (finite Or) t l2 =
     Ok (Fin (task_loss_value m (rent G t) (rent Or) g0 l2))) ∧
  get_loss self (finite <$> Ors) l2 =
  Ok (Fin (sumR (imap (λ t Or, task_loss_value m (rent G t) (rent Or) g0 l2) Ors))).
Proof.
  intros HM Hg Hg0 HG Hlen Hshapes Hm. split.
  - intros t Or Ht.
    apply (task_loss_spec self m Tn G g0 l2 HM Hg Hg0 HG); [|by eapply Forall_lookup_1|done].
    apply lookup_lt_Some in Ht. lia.
  - unfold get_loss.
    change (imap pair (finite <$> Ors))
      with (imap (λ k, pair (0 + k)) (finite <$> Ors)).
    rewrite (get_loss_loop self m Tn G g0 l2 HM Hg Hg0 HG Ors 0 0%R Hm)
      by (done || lia).
    do 2 f_equal. cbn [Nat.add]. lra.
Qed.

Lemma task_loss_and_total_loss_witness :
  let Ors := [[[0.95; 0.5]; [0.5; 0.95]]%R] in
  (∀ t Or, Ors !! t = Some Or →
     _task_loss fitted_example (finite Or) t 0.1 =
     Ok (Fin (task_loss_value 2 (rent [[0.9; -3]%R] t) (rent Or) 0.8 0.1))) ∧
  get_loss fitted_example (finite <$> Ors) 0.1 =
  Ok (Fin (sumR (imap (λ t Or, task_loss_value 2 (rent [[0.9; -3]%R] t) (rent Or) 0.8 0.1)
                   Ors))).
Proof.
  intros Ors.
  apply (task_loss_and_total_loss fitted_example 2 1 [[0.9; -3]%R] 0.8 0.1 Ors).
  - reflexivity.
  - reflexivity.
  - reflexivity.
  - split; [reflexivity|]. repeat constructor.
  - reflexivity.
  - repeat constructor.
  - lia.
Defined.

(** With a single labeling function the normaliser [M^2 - M] is zero and
    the division raises. *)
Lemma task_loss_single_source (self : LabelModel) (O_t : matrix) (t : nat) (l2 : R) :
  M self = Some 1 → _task_loss self O_t t l2 = Raise ZeroDivisionError.
Proof. intros HM. unfold _task_loss. rewrite HM. reflexivity. Qed.

(** ** Theorems about the derived accuracies *)

Section accuracies.
Local Open Scope R_scope.

Lemma mget_fmap {A B} (f : A → B) (X : list (list A)) i j x :
  mget X i j = Ok x →
  mget (fmap (M := list) (fmap (M := list) f) X) i j = Ok (f x).
Proof.
  rewrite !mget_lookup, list_lookup_fmap.
  destruct (X !! i) as [row|]; [|done]. cbn. rewrite list_lookup_fmap.
  destruct (row !! j); [|done]. cbn. by intros [= ->].
Qed.

Lemma same_shape_fmap {A B} (f : A → B) (X : list (list A)) :
  length <$> fmap (M := list) (fmap (M := list) f) X = length <$> X.
Proof.
  rewrite <- list_fmap_compose. apply list_fmap_ext. intros _ row _. cbn.
  by rewrite length_fmap.
Qed.

Lemma rclamp_cases lo hi x :
  lo <= hi →
  lo <= rclamp lo hi x <= hi ∧
  (x <= lo → rclamp lo hi x = lo) ∧
  (lo <= x <= hi → rclamp lo hi x = x) ∧
  (hi <= x → rclamp lo hi x = hi).
Proof.
  intros Hlh. unfold rclamp, Rmin, Rmax.
  repeat destruct (Rle_dec _ _); split_and!; intros; lra.
Qed.

Lemma ln_monotone x y : 0 < x → x <= y → ln x <= ln y.
Proof.
  intros Hx [Hlt| ->]; [|lra]. left. by apply ln_increasing.
Qed.

Lemma log_odds_bounded a :
  0.01 <= a <= 0.99 →
  0 < 1 - a ∧ 0 < a / (1 - a) ∧ - ln 99 <= ln (a / (1 - a)) <= ln 99.
Proof.
  intros Ha.
  assert (H1 : 0 < 1 - a) by lra.
  assert (Hlo : / 99 <= a / (1 - a)).
  { apply (Rmult_le_reg_r (1 - a)); [done|].
    unfold Rdiv. rewrite Rmult_assoc, Rinv_l by lra. lra. }
  assert (Hhi : a / (1 - a) <= 99).
  { apply (Rmult_le_reg_r (1 - a)); [done|].
    unfold Rdiv. rewrite Rmult_assoc, Rinv_l by lra. lra. }
  assert (Hpos : 0 < a / (1 - a)) by lra.
  split_and!; [done..| |].
  - rewrite <- ln_Rinv by lra. apply ln_monotone; lra.
  - by apply ln_monotone.
Qed.
End accuracies.

(** C8: whatever the magnitude of the entries of [gamma], the tensor
    [accs] has the shape of [gamma] and each of its entries is
    [0.5 * (gamma + 1)] clamped to [0.01, 0.99]: the value itself when it
    lies in the interval, the nearer bound otherwise. *)
Theorem accs_clamped (self : LabelModel) (G : list (list R)) :
  gamma self = Some G →
  ∃ A, accs self = Ok A ∧ length <$> A = length <$> G ∧
    ∀ t i g, mget G t i = Ok g →
      ∃ a, mget A t i = Ok a ∧
        (0.01 <= a <= 0.99)%R ∧
        (0.5 * (g + 1) <= 0.01 → a = 0.01)%R ∧
        (0.01 <= 0.5 * (g + 1) <= 0.99 → a = 0.5 * (g + 1))%R ∧
        (0.99 <= 0.5 * (g + 1) → a = 0.99)%R.
Proof.
  intros Hg. unfold accs. rewrite Hg. cbn. eexists. split; [done|].
  split; [apply same_shape_fmap|].
  intros t i g Hget. eexists. split; [by apply mget_fmap|].
  apply rclamp_cases. lra.
Qed.

Lemma accs_clamped_witness :
  ∃ A, accs fitted_example = Ok A ∧ length <$> A = length <$> [[0.9; -3]%R] ∧
    ∀ t i g, mget [[0.9; -3]%R] t i = Ok g →
      ∃ a, mget A t i = Ok a ∧
        (0.01 <= a <= 0.99)%R ∧
        (0.5 * (g + 1) <= 0.01 → a = 0.01)%R ∧
        (0.01 <= 0.5 * (g + 1) <= 0.99 → a = 0.5 * (g + 1))%R ∧
        (0.99 <= 0.5 * (g + 1) → a = 0.99)%R.
Proof. apply (accs_clamped fitted_example). reflexivity. Defined.

(** C10: whatever the entries of [gamma], [log_odds_accs] has the shape of
    [gamma], and for each entry the accuracy [a] satisfies [1 - a > 0] and
    [a / (1 - a) > 0], so that the division and the logarithm are defined,
    and the log-odds lie between [-ln 99] and [ln 99]. *)
Theorem log_odds_accs_finite (self : LabelModel) (G : list (list R)) :
  gamma self = Some G →
  ∃ A W, accs self = Ok A ∧ log_odds_accs self = Ok W ∧
    length <$> W = length <$> G ∧
    ∀ t i g, mget G t i = Ok g →
      ∃ a, mget A t i = Ok a ∧
        mget W t i = Ok (ln (a / (1 - a))) ∧
        (0 < 1 - a)%R ∧ (0 < a / (1 - a))%R ∧
        (- ln 99 <= ln (a / (1 - a)) <= ln 99)%R.
Proof.
  intros Hg. unfold log_odds_accs, accs. rewrite Hg. cbn.
  eexists _, _. split_and!; [done..| |].
  - by rewrite !same_shape_fmap.
  - intros t i g Hget. exists (rclamp 0.01 0.99 (0.5 * (g + 1)))%R.
    pose proof (mget_fmap (λ x, rclamp 0.01 0.99 (0.5 * (x + 1)))%R G t i g Hget) as Ha.
    split; [done|].
    split; [by apply (mget_fmap (λ x, ln (x / (1 - x)))%R)|].
    apply log_odds_bounded, rclamp_cases. lra.
Qed.

Lemma log_odds_accs_finite_witness :
  ∃ A W, accs fitted_example = Ok A ∧ log_odds_accs fitted_example = Ok W ∧
    length <$> W = length <$> [[0.9; -3]%R] ∧
    ∀ t i g, mget [[0.9; -3]%R] t i = Ok g →
      ∃ a, mget A t i = Ok a ∧
        mget W t i = Ok (ln (a / (1 - a))) ∧
        (0 < 1 - a)%R ∧ (0 < a / (1 - a))%R ∧
        (- ln 99 <= ln (a / (1 - a)) <= ln 99)%R.
Proof. apply (log_odds_accs_finite fitted_example). reflexivity. Defined.

(** ** Validation and parameter allocation in [train] *)

Lemma rbenign_ok {A} (a : A) : rbenign (Ok a).
Proof. intros e [=]. Qed.

Lemma rbenign_bind {A B} (r : result A) (k : A → result B) :
  rbenign r → (∀ a, rbenign (k a)) → rbenign (r ≫= k).
Proof.
  intros Hr Hk e. destruct r as [a|e']; cbn; [apply Hk|].
  intros [= <-]. by apply Hr.
Qed.

Lemma rbenign_index {A} (l : list A) i : rbenign (index l i).
Proof. intros e. unfold index. destruct (l !! i); by intros [= <-]. Qed.

Lemma rbenign_attr {A} (a : option A) : rbenign (attr a).
Proof. intros e. destruct a; by intros [= <-]. Qed.

Lemma rbenign_mget {A} (X : list (list A)) i j : rbenign (mget X i j).
Proof.
  unfold mget. apply rbenign_bind; [apply rbenign_index|].
  intros row. apply rbenign_index.
Qed.

Lemma rbenign_for_each {A B} (l : list A) (body : A → B → result B) :
  (∀ x s, rbenign (body x s)) → ∀ s, rbenign (for_each l body s).
Proof.
  intros Hbody. induction l as [|x l IH]; intros s; [apply rbenign_ok|].
  cbn. apply rbenign_bind; [apply Hbody|apply IH].
Qed.

Lemma keeps_ret {A V} (part : LabelModel → V) (a : A) : keeps part (mret a).
Proof. done. Qed.

Lemma keeps_lift {A V} (part : LabelModel → V) (r : result A) : keeps part (lift r).
Proof. done. Qed.

Lemma keeps_this {V} (part : LabelModel → V) : keeps part this.
Proof. done. Qed.

Lemma keeps_bind {A B V} (part : LabelModel → V) (m : method A) (k : A → method B) :
  keeps part m → (∀ a, keeps part (k a)) → keeps part (m ≫= k).
Proof.
  intros Hm Hk self. specialize (Hm self).
  unfold mbind, method_bind. destruct (m self) as [[a|e] self1]; [|done].
  cbn in Hm. by rewrite Hk.
Qed.

Lemma keeps_for_tasks {A V} (part : LabelModel → V) (l : list A) (body : A → method ()) :
  (∀ x, keeps part (body x)) → keeps part (for_tasks l body).
Proof.
  intros Hbody. induction l as [|x l IH]; [done|].
  cbn. apply keeps_bind; [apply Hbody|]. intros _. apply IH.
Qed.

Lemma benign_ret {A} (a : A) : benign (mret a).
Proof. intros self e self' [=]. Qed.

Lemma benign_lift {A} (r : result A) : rbenign r → benign (lift r).
Proof. intros Hr self e self' [= H _]. by apply Hr. Qed.

Lemma benign_bind {A B} (m : method A) (k : A → method B) :
  benign m → (∀ a, benign (k a)) → benign (m ≫= k).
Proof.
  intros Hm Hk self e self'. unfold mbind, method_bind.
  destruct (m self) as [[a|e'] self1] eqn:Hrun.
  - apply Hk.
  - intros [= <- <-]. by eapply Hm.
Qed.

Lemma validates_first_benign {A} (m : method A) : benign m → validates_first m.
Proof. intros Hm self e self' Hrun He. by rewrite (Hm _ _ _ Hrun) in He. Qed.

Lemma validates_first_bind {A B} (m : method A) (k : A → method B) :
  keeps params m → (∀ a, validates_first (k a)) → validates_first (m ≫= k).
Proof.
  intros Hm Hk self e self'. specialize (Hm self).
  unfold mbind, method_bind. destruct (m self) as [[a|e'] self1]; cbn in Hm.
  - intros Hrun He. destruct (Hk a self1 e self' Hrun He) as [-> ->].
    by injection Hm.
  - intros [= <- <-] _. by injection Hm.
Qed.

Lemma keeps_check_or_set_attr {V W} `{EqDecision V} (part : LabelModel → W) name
    (get : LabelModel → option V) (set : V → LabelModel → LabelModel) val set_val :
  (set_val = true → ∀ v self, part (set v self) = part self) →
  keeps part (_check_or_set_attr name get set val set_val).
Proof.
  intros Hset. unfold _check_or_set_attr. destruct set_val.
  - intros self. by apply Hset.
  - apply keeps_bind; [apply keeps_this|]. intros self.
    apply keeps_bind; [apply keeps_lift|]. intros true_val.
    case_decide; [apply keeps_ret|apply keeps_lift].
Qed.

(** [_check_L] only assigns [M], [label_map] and [K_t], and only when it
    initialises. *)
Lemma keeps_check_L {W} (part : LabelModel → W) L init :
  (init = true → ∀ self,
     (∀ m, part (set_M m self) = part self) ∧
     (∀ lm, part (set_label_map lm self) = part self) ∧
     (∀ k, part (set_K_t k self) = part self)) →
  keeps part (_check_L L init).
Proof.
  intros Hinit. unfold _check_L.
  apply keeps_bind; [apply keeps_this|]. intros self.
  apply keeps_bind; [apply keeps_lift|]. intros Ls.
  apply keeps_bind; [by apply keeps_check_or_set_attr|]. intros _.
  apply keeps_bind; [apply keeps_lift|]. intros L_0.
  destruct (shape_of L_0) as [n m].
  apply keeps_bind.
  { apply keeps_check_or_set_attr. intros Hi v s. by apply Hinit. }
  intros _. apply keeps_bind.
  { apply keeps_for_tasks. intros [t L_t]. destruct (shape_of L_t) as [n_t m_t].
    apply keeps_bind; [by apply keeps_check_or_set_attr|]. intros _.
    case_decide; [apply keeps_lift|].
    destruct L_t; [apply keeps_ret|apply keeps_lift..]. }
  intros _. apply keeps_bind; [apply keeps_this|]. intros self1.
  apply keeps_bind.
  { case_decide as Hlm; [|apply keeps_ret]. destruct Hlm as [_ Hi].
    case_decide; [apply keeps_lift|].
    apply keeps_bind; [apply keeps_lift|]. intros L_0'.
    apply keeps_bind; [apply keeps_lift|]. intros K s. by apply Hinit. }
  intros _. apply keeps_bind; [apply keeps_this|]. intros self2.
  apply keeps_bind; [apply keeps_lift|]. intros labels.
  apply keeps_bind.
  { apply keeps_check_or_set_attr. intros Hi v s. by apply Hinit. }
  intros _. apply keeps_bind; [|intros _; apply keeps_ret].
  apply keeps_for_tasks. intros [t L_t].
  apply keeps_bind; [apply keeps_lift|]. intros a.
  apply keeps_bind; [apply keeps_this|]. intros self3.
  apply keeps_bind; [apply keeps_lift|]. intros K.
  apply keeps_bind; [apply keeps_lift|]. intros K_tt.
  case_decide; [apply keeps_lift|apply keeps_ret].
Qed.

Lemma task_loss_benign self O_t t l2 : rbenign (_task_loss self O_t t l2).
Proof.
  unfold _task_loss.
  apply rbenign_bind; [apply rbenign_attr|]. intros m.
  apply rbenign_bind.
  { apply rbenign_for_each. intros i s. apply rbenign_for_each. intros j loss.
    case_decide; [|apply rbenign_ok].
    apply rbenign_bind; [apply rbenign_attr|]. intros g.
    apply rbenign_bind; [apply rbenign_mget|]. intros g_ti.
    apply rbenign_bind; [apply rbenign_mget|]. intros g_tj.
    apply rbenign_bind; [apply rbenign_mget|]. intros o_ij.
    apply rbenign_ok. }
  intros loss. case_decide; [by intros e [= <-]|].
  destruct (Rlt_dec 0 l2); [|apply rbenign_ok].
  apply rbenign_bind; [apply rbenign_attr|]. intros g.
  apply rbenign_bind; [apply rbenign_index|]. intros g_t.
  apply rbenign_bind; [apply rbenign_attr|]. intros g0.
  apply rbenign_ok.
Qed.

Lemma get_loss_benign self O l2 : rbenign (get_loss self O l2).
Proof.
  unfold get_loss. apply rbenign_for_each. intros [t O_t] loss.
  apply rbenign_bind; [apply task_loss_benign|]. intros l. apply rbenign_ok.
Qed.

Lemma rbenign_comprehension {A B} (f : A → result B) (l : list A) :
  (∀ x, rbenign (f x)) → rbenign (comprehension f l).
Proof.
  intros Hf. induction l as [|x l IH]; [apply rbenign_ok|].
  cbn. apply rbenign_bind; [apply Hf|]. intros y.
  apply rbenign_bind; [apply IH|]. intros ys. apply rbenign_ok.
Qed.

Lemma get_accs_score_benign self accs_true : rbenign (get_accs_score self accs_true).
Proof.
  unfold get_accs_score.
  apply rbenign_bind; [unfold accs; apply rbenign_bind; [apply rbenign_attr|]|].
  { intros g. apply rbenign_ok. }
  intros a. apply rbenign_bind.
  { apply rbenign_comprehension. intros row e. unfold broadcast_sub.
    case_decide; [done|]. destruct accs_true as [|y [|y' v]], row as [|x [|x' row]];
      by intros [= <-]. }
  intros d. apply rbenign_bind; [apply rbenign_attr|]. intros m. apply rbenign_ok.
Qed.

Lemma report_benign self c epoch accs_true : rbenign (report self c epoch accs_true).
Proof.
  unfold report. destruct (cfg_verbose (config self)); [|apply rbenign_ok].
  case_decide; [by intros e [= <-]|].
  case_bool_decide; [|apply rbenign_ok].
  destruct accs_true as [a|]; [|apply rbenign_ok].
  apply rbenign_bind; [apply get_accs_score_benign|]. intros x. apply rbenign_ok.
Qed.

Lemma run_epochs_benign opt c accs_true n :
  ∀ epoch st O, benign (run_epochs opt c accs_true n epoch st O).
Proof.
  induction n as [|n IH]; intros epoch st O; [apply benign_ret|].
  cbn. apply benign_bind; [by intros self e self' [=]|]. intros self.
  apply benign_bind; [apply benign_lift, get_loss_benign|]. intros loss.
  destruct (opt_step opt st O (cfg_l2 c) self) as [st' g].
  apply benign_bind; [by intros s e s' [=]|]. intros _.
  apply benign_bind; [by intros s e s' [=]|]. intros self1.
  apply benign_bind; [apply benign_lift, report_benign|]. intros _. apply IH.
Qed.

Lemma init_params_benign g0 : benign (_init_params g0).
Proof.
  unfold _init_params.
  apply benign_bind; [by intros self e self' [=]|]. intros _.
  apply benign_bind; [by intros self e self' [=]|]. intros self.
  apply benign_bind; [apply benign_lift, rbenign_attr|]. intros m.
  by intros s e s' [=].
Qed.

(** C9, as the code has it: every validation error of [train] (attribute
    or row mismatch, an object that is not sparse or not of integer dtype,
    a failed assertion on the form of the argument, cardinality violation,
    label-map inference, non-unipolarity) is raised before the parameters
    are allocated and before the optimization starts: when [train] raises
    one of them, [gamma] and [gamma_init] are what they were before the
    call.  (The attributes that the validation itself assigns are not
    rolled back.) *)
Theorem train_validates_before_allocation
    (opt : Optimizer) (L_train : votes_arg) (kwargs : train_kwargs)
    (self self' : LabelModel) (e : exn) :
  train opt L_train kwargs self = (Raise e, self') →
  is_validation_error e = true →
  gamma self' = gamma self ∧ gamma_init self' = gamma_init self.
Proof.
  revert self e self'. change (validates_first (train opt L_train kwargs)).
  unfold train.
  apply validates_first_bind; [done|]. intros _.
  apply validates_first_bind; [apply keeps_this|]. intros self.
  apply validates_first_bind; [by apply keeps_check_L|]. intros L.
  apply validates_first_bind; [apply keeps_this|]. intros self1.
  apply validates_first_bind; [apply keeps_lift|]. intros O.
  apply validates_first_benign.
  apply benign_bind; [apply init_params_benign|]. intros _.
  apply run_epochs_benign.
Qed.

Lemma train_validates_before_allocation_witness :
  gamma (set_M 3 fitted_example) = gamma fitted_example ∧
  gamma_init (set_M 3 fitted_example) = gamma_init fitted_example.
Proof.
  apply (train_validates_before_allocation frozen_optimizer
           (Objects [OtherDtype (3, 3)])
           no_kwargs fitted_example (set_M 3 fitted_example) (WrongDtype 0)).
  - vm_compute. reflexivity.
  - reflexivity.
Defined.

(** C9, as stated, fails: [train] on a fresh model and a non-unipolar
    matrix raises the non-unipolar error, and the model is left with the
    attributes [M], [label_map] and [K_t] that the validation assigned on
    the way. *)
Lemma train_failure_leaves_attributes :
  ∃ self',
    train frozen_optimizer (OneMatrix L_bipolar) no_kwargs fresh_model =
    (Raise (NonUnipolar 0 0), self') ∧
    is_validation_error (NonUnipolar 0 0) = true ∧
    self' ≠ fresh_model ∧
    (M fresh_model = None ∧ M self' = Some 1) ∧
    (label_map fresh_model = None ∧ label_map self' = Some [[0; 1]%Z]) ∧
    (K_t fresh_model = None ∧ K_t self' = Some [2]).
Proof.
  exists model_after_failure. split_and!; try reflexivity.
  intros Heq. apply (f_equal M) in Heq. discriminate Heq.
Qed.

(** ** Softmax and scores *)

Section softmax.
Local Open Scope R_scope.

Lemma sumR_exp_pos (row : list R) : row ≠ [] → 0 < sumR (exp <$> row).
Proof.
  intros Hne. assert (Hge : ∀ l : list R, 0 <= sumR (exp <$> l)).
  { induction l as [|x l IH]; [cbn; rewrite sumR_nil; lra|].
    rewrite fmap_cons, sumR_cons. pose proof (exp_pos x). lra. }
  destruct row as [|x l]; [done|].
  rewrite fmap_cons, sumR_cons. pose proof (exp_pos x). pose proof (Hge l). lra.
Qed.

Lemma sumR_div (f : R → R) (z : R) (l : list R) :
  sumR ((λ x, f x / z) <$> l) = sumR (f <$> l) / z.
Proof.
  induction l as [|x l IH].
  - cbn. rewrite !sumR_nil. unfold Rdiv. ring.
  - rewrite !fmap_cons, !sumR_cons, IH. unfold Rdiv. ring.
Qed.

(** A softmax over at least one class sums to 1. *)
Lemma softmax_sum (row : list R) : row ≠ [] → sumR (softmax row) = 1.
Proof.
  intros Hne. unfold softmax. rewrite sumR_div.
  pose proof (sumR_exp_pos row Hne). field. lra.
Qed.

Lemma softmax_length (row : list R) : length (softmax row) = length row.
Proof. unfold softmax. by rewrite length_fmap. Qed.

Lemma sumR_replicate (k : nat) (x : R) : sumR (replicate k x) = INR k * x.
Proof.
  induction k as [|k IH]; [cbn; rewrite sumR_nil; ring|].
  rewrite S_INR. cbn [replicate]. rewrite sumR_cons, IH. ring.
Qed.

(** Equal scores give the uniform distribution. *)
Lemma softmax_uniform (k : nat) (x : R) :
  (0 < k)%nat → softmax (replicate k x) = replicate k (/ INR k).
Proof.
  intros Hk. unfold softmax. rewrite !fmap_replicate, sumR_replicate. f_equal.
  assert (0 < INR k) by (apply lt_0_INR; lia).
  pose proof (exp_pos x). field. lra.
Qed.

Lemma vote_sign_abstain (y_t : Z) : (1 <= y_t)%Z → vote_sign y_t 0 = 0%Z.
Proof.
  intros Hy. unfold vote_sign.
  destruct (decide (0%Z ≠ y_t ∧ 0%Z ≠ 0%Z)) as [[_ H]|_]; [done|].
  cbn. destruct (decide (0%Z = y_t)); [lia|done].
Qed.

Lemma dot_signs_abstain (y_t : Z) (votes_row : list Z) (theta_t : list R) :
  (1 <= y_t)%Z → Forall (λ v, v = 0%Z) votes_row →
  dot_signs (vote_sign y_t <$> votes_row) theta_t = 0.
Proof.
  intros Hy Hall. unfold dot_signs. revert theta_t.
  induction Hall as [|v l -> _ IH]; intros [|x theta]; try done.
  cbn [fmap list_fmap zip_with]. rewrite sumR_cons.
  change (list_fmap Z Z (vote_sign y_t) l) with (vote_sign y_t <$> l).
  rewrite (IH theta), vote_sign_abstain by done. cbn. ring.
Qed.

Lemma scores_abstain (k : nat) (theta_t : list R) (votes_row : list Z) :
  Forall (λ v, v = 0%Z) votes_row → scores k theta_t votes_row = replicate k 0.
Proof.
  intros Hall. unfold scores.
  assert (H : ∀ a b, (1 <= a)%nat →
    (λ y_t, dot_signs (vote_sign (Z.of_nat y_t) <$> votes_row) theta_t) <$> seq a b
    = replicate b 0).
  { intros a b. revert a. induction b as [|b IH]; intros a Ha; [done|].
    cbn [seq fmap list_fmap replicate]. f_equal.
    - apply dot_signs_abstain; [lia|done].
    - apply IH. lia. }
  by apply H.
Qed.
End softmax.

(** ** Theorems about [predict_task_proba] *)

Lemma bind_ok_inv {A B} (m : method A) (k : A → method B) self b self' :
  (m ≫= k) self = (Ok b, self') →
  ∃ a self1, m self = (Ok a, self1) ∧ k a self1 = (Ok b, self').
Proof.
  unfold mbind, method_bind. destruct (m self) as [[a|e] self1]; [|done].
  intros Hk. by exists a, self1.
Qed.

Tactic Notation "bind_inv" hyp(H) "as" ident(a) ident(s) ident(Hm) :=
  apply bind_ok_inv in H as (a & s & Hm & H).

(** [_check_L] hands back the matrices it was given. *)
Lemma csc_matrices_int (l : list csc_matrix) : csc_matrices (IntMatrix <$> l) = l.
Proof.
  unfold csc_matrices. induction l as [|L l IH]; [done|]. cbn. by rewrite IH.
Qed.

Lemma csc_matrices_objects L : csc_matrices (votes_objects L) = task_matrices L.
Proof. destruct L; try done. apply csc_matrices_int. Qed.

(** The objects that pass the assertions at the head of [_check_L]. *)
Lemma check_L_objects (multi : bool) L (Ls : list votes_object) :
  (if multi then
     match L with
     | Matrices l => _ ← index l 0; Ok (IntMatrix <$> l)
     | Objects l => x ← index l 0; if issparse x then Ok l else Raise AssertionError
     | OneMatrix _ | OneObject _ => Raise AssertionError
     end
   else
     match L with
     | Matrices l => Ok (IntMatrix <$> l)
     | Objects l => Ok l
     | OneMatrix L0 => Ok [IntMatrix L0]
     | OneObject x => if issparse x then Ok [x] else Raise AssertionError
     end) = Ok Ls →
  Ls = votes_objects L ∧ (multi = true → is_list L = true).
Proof.
  destruct multi, L as [L0|l|x|l]; cbn; try done.
  - destruct (index l 0); cbn; [|done]. by intros [= <-].
  - destruct (index l 0) as [x|]; cbn; [|done]. destruct (issparse x); [|done].
    by intros [= <-].
  - by intros [= <-].
  - by intros [= <-].
  - destruct (issparse x); [|done]. by intros [= <-].
  - by intros [= <-].
Qed.

Lemma check_L_returns L init self Ls self' :
  _check_L L init self = (Ok Ls, self') → Ls = task_matrices L.
Proof.
  unfold _check_L. intros H.
  bind_inv H as self0 s0 H0. bind_inv H as Ls' s1 H1.
  assert (Ls' = votes_objects L) as ->.
  { injection H1 as Hr _. by apply check_L_objects in Hr as [-> _]. }
  bind_inv H as u2 s2 H2. bind_inv H as L_0 s3 H3. destruct (shape_of L_0) as [n m].
  bind_inv H as u4 s4 H4. bind_inv H as u5 s5 H5. bind_inv H as self6 s6 H6.
  bind_inv H as u7 s7 H7. bind_inv H as self8 s8 H8. bind_inv H as labels s9 H9.
  bind_inv H as u10 s10 H10. bind_inv H as u11 s11 H11. injection H as <- _.
  apply csc_matrices_objects.
Qed.

(** Without [init] the check assigns nothing, and neither does the
    prediction. *)
Lemma predict_task_proba_pure L t : keeps (λ self, self) (predict_task_proba L t).
Proof.
  unfold predict_task_proba.
  apply keeps_bind; [by apply keeps_check_L|]. intros Ls.
  apply keeps_bind; [apply keeps_lift|]. intros L_t.
  apply keeps_bind; [apply keeps_this|]. intros self.
  apply keeps_bind; [apply keeps_lift|]. intros K.
  apply keeps_bind; [apply keeps_lift|]. intros K_tt.
  apply keeps_bind; [apply keeps_lift|]. intros theta_t.
  apply keeps_ret.
Qed.

(** What [predict_task_proba] returns: the softmax of the scores of each
    row of the dense vote matrix of task [t]. *)
Lemma predict_task_proba_returns L t self Y self' :
  predict_task_proba L t self = (Ok Y, self') →
  self' = self ∧
  ∃ L_t K k theta_t,
    task_matrices L !! t = Some L_t ∧
    K_t self = Some K ∧ K !! t = Some k ∧
    Y = softmax <$> (scores k theta_t <$> todense L_t).
Proof.
  intros H. pose proof (predict_task_proba_pure L t self) as Hpure.
  rewrite H in Hpure. cbn in Hpure. subst self'. split; [done|].
  unfold predict_task_proba in H.
  bind_inv H as Ls s0 H0. pose proof (keeps_check_L (λ self, self) L false) as Hkeep.
  specialize (Hkeep ltac:(done) self). rewrite H0 in Hkeep. cbn in Hkeep. subst s0.
  apply check_L_returns in H0 as ->.
  bind_inv H as L_t s1 H1. injection H1 as Hidx <-.
  bind_inv H as self2 s2 H2. injection H2 as <- <-.
  bind_inv H as K s3 H3. injection H3 as HK <-.
  bind_inv H as k s4 H4. injection H4 as Hk <-.
  bind_inv H as theta_t s5 H5. injection H5 as _ <-.
  injection H as <-.
  exists L_t, K, k, theta_t. split_and!; [| | |done].
  - unfold index in Hidx. by destruct (task_matrices L !! t) as [x|]; [injection Hidx as ->|].
  - by destruct (K_t self); [injection HK as ->|].
  - unfold index in Hk. by destruct (K !! t) as [x|]; [injection Hk as ->|].
Qed.

(** What [predict_task_proba] computes once the input check has passed,
    for a task with at least one class and a row of [gamma] with one entry
    per labeling function. *)
Lemma predict_task_proba_runs L t self Ls L_t K k G g_t :
  (_check_L L false self).1 = Ok Ls →
  Ls !! t = Some L_t →
  K_t self = Some K → K !! t = Some k → 0 < k →
  gamma self = Some G → G !! t = Some g_t → length g_t = ncols L_t →
  ∃ theta_t,
    predict_task_proba L t self =
    (Ok (softmax <$> (scores k theta_t <$> todense L_t)), self).
Proof.
  intros Hcheck HL HK Hk Hpos HG Ht Hwidth.
  assert (Hrun : _check_L L false self = (Ok Ls, self)).
  { pose proof (keeps_check_L (λ self, self) L false ltac:(done) self) as Hkeep.
    destruct (_check_L L false self) as [r self']. cbn in *. by subst. }
  set (W := fmap (M := list) (fmap (M := list) (λ x, ln (x / (1 - x)))%R)
              (fmap (M := list) (fmap (M := list)
                 (λ x, rclamp 0.01 0.99 (0.5 * (x + 1)))%R) G)).
  assert (∃ theta_t, W !! t = Some theta_t ∧ length theta_t = ncols L_t)
    as (theta_t & Htheta & Hlen).
  { eexists. unfold W. rewrite !list_lookup_fmap, Ht. cbn. split; [done|].
    by rewrite !length_fmap. }
  exists theta_t. unfold predict_task_proba.
  unfold mbind at 1, method_bind at 1. rewrite Hrun.
  unfold mbind, method_bind, lift, this, index. rewrite HL, HK. cbn.
  rewrite Hk. rewrite decide_False by lia.
  unfold log_odds_accs, accs. rewrite HG. cbn. fold W. rewrite Htheta.
  cbn. rewrite decide_True by done. reflexivity.
Qed.

(** With a row of [gamma] of another width the product of the votes and
    the log-odds raises, as after a call of [train] on votes with another
    number of columns that failed after the input check. *)
Lemma predict_task_proba_stale_gamma L t self Ls L_t K k G g_t :
  (_check_L L false self).1 = Ok Ls →
  Ls !! t = Some L_t →
  K_t self = Some K → K !! t = Some k → 0 < k →
  gamma self = Some G → G !! t = Some g_t → length g_t ≠ ncols L_t →
  predict_task_proba L t self = (Raise RuntimeError, self).
Proof.
  intros Hcheck HL HK Hk Hpos HG Ht Hwidth.
  assert (Hrun : _check_L L false self = (Ok Ls, self)).
  { pose proof (keeps_check_L (λ self, self) L false ltac:(done) self) as Hkeep.
    destruct (_check_L L false self) as [r self']. cbn in *. by subst. }
  set (W := fmap (M := list) (fmap (M := list) (λ x, ln (x / (1 - x)))%R)
              (fmap (M := list) (fmap (M := list)
                 (λ x, rclamp 0.01 0.99 (0.5 * (x + 1)))%R) G)).
  assert (∃ theta_t, W !! t = Some theta_t ∧ length theta_t ≠ ncols L_t)
    as (theta_t & Htheta & Hlen).
  { eexists. unfold W. rewrite !list_lookup_fmap, Ht. cbn. split; [done|].
    by rewrite !length_fmap. }
  unfold predict_task_proba.
  unfold mbind at 1, method_bind at 1. rewrite Hrun.
  unfold mbind, method_bind, lift, this, index. rewrite HL, HK. cbn.
  rewrite Hk. rewrite decide_False by lia.
  unfold log_odds_accs, accs. rewrite HG. cbn. fold W. rewrite Htheta.
  cbn. rewrite decide_False by done. reflexivity.
Qed.

(** Such a state is reached: [train] on an object of the wrong dtype with
    three columns fails in the input check after it has assigned [M = 3],
    and the model keeps the [gamma] of width 2 of the earlier training. *)
Lemma predict_after_failed_train :
  ∃ self',
    train frozen_optimizer (Objects [OtherDtype (3, 3)]) no_kwargs fitted_example
    = (Raise (WrongDtype 0), self') ∧
    M self' = Some 3 ∧ gamma self' = Some [[0.9; -3]%R] ∧
    predict_task_proba (OneMatrix L_example) 0 self' = (Raise RuntimeError, self').
Proof.
  exists (set_M 3 fitted_example). split_and!.
  - vm_compute. reflexivity.
  - reflexivity.
  - reflexivity.
  - apply (predict_task_proba_stale_gamma (OneMatrix L_example) 0 _ [L_example]
             L_example [2] 2 [[0.9; -3]%R] [0.9; -3]%R).
    + vm_compute. reflexivity.
    + reflexivity.
    + reflexivity.
    + reflexivity.
    + lia.
    + reflexivity.
    + reflexivity.
    + cbn. lia.
Qed.

(** C2, as the code has it: for a task [t] with [K_t >= 1] classes, a
    model whose [gamma] has a row for the task with one entry per labeling
    function (what a completed [train] on votes with that number of columns
    leaves) and vote matrices in canonical format (no position stored
    twice) that pass the input check, [predict_task_proba] returns one row
    per data point, each row has [K_t] entries that sum to 1, and a row on
    which every source abstains is the uniform distribution over the [K_t]
    classes; the model is left unchanged. *)
Theorem predict_task_proba_rows
    (L : votes_arg) (t : nat) (self : LabelModel) (Ls : list csc_matrix)
    (L_t : csc_matrix) (K : list nat) (k : nat) (G : list (list R))
    (g_t : list R) :
  (_check_L L false self).1 = Ok Ls →
  Forall canonical Ls →
  Ls !! t = Some L_t →
  K_t self = Some K → K !! t = Some k → 0 < k →
  gamma self = Some G → G !! t = Some g_t → length g_t = ncols L_t →
  ∃ Y, predict_task_proba L t self = (Ok Y, self) ∧
    length Y = nrows L_t ∧
    ∀ n row, Y !! n = Some row →
      length row = k ∧ sumR row = 1%R ∧
      ∀ votes_row, todense L_t !! n = Some votes_row →
        Forall (λ v, v = 0%Z) votes_row → row = replicate k (/ INR k)%R.
Proof.
  intros Hcheck _ HL HK Hk Hpos HG Ht Hwidth.
  destruct (predict_task_proba_runs L t self Ls L_t K k G g_t) as [theta_t Hrun];
    try done.
  eexists. split; [exact Hrun|]. split.
  - rewrite !length_fmap. apply (tabulate_shape (nrows L_t) (ncols L_t)).
  - intros n row. rewrite !list_lookup_fmap.
    destruct (todense L_t !! n) as [votes_row|]; [|done]. cbn. intros [= <-].
    assert (Hlen : length (scores k theta_t votes_row) = k).
    { unfold scores. by rewrite length_fmap, length_seq. }
    split_and!.
    + by rewrite softmax_length.
    + apply softmax_sum. intros Hnil. rewrite Hnil in Hlen. cbn in Hlen. lia.
    + intros ? [= <-] Hall. rewrite scores_abstain by done.
      by apply softmax_uniform.
Qed.

Lemma predict_task_proba_rows_witness :
  ∃ Y, predict_task_proba (OneMatrix L_pred) 0 fitted_example = (Ok Y, fitted_example) ∧
    length Y = nrows L_pred ∧
    ∀ n row, Y !! n = Some row →
      length row = 2 ∧ sumR row = 1%R ∧
      ∀ votes_row, todense L_pred !! n = Some votes_row →
        Forall (λ v, v = 0%Z) votes_row → row = replicate 2 (/ INR 2)%R.
Proof.
  apply (predict_task_proba_rows (OneMatrix L_pred) 0 fitted_example
           [L_pred] L_pred [2] 2 [[0.9; -3]%R] [0.9; -3]%R).
  - vm_compute. reflexivity.
  - constructor; [|constructor].
    apply (valid_canonical 2), valid_votesb_sound. vm_compute. reflexivity.
  - reflexivity.
  - reflexivity.
  - reflexivity.
  - lia.
  - reflexivity.
  - reflexivity.
  - reflexivity.
Defined.

(** C2, as stated, fails for a task without classes: training on votes
    that are all abstentions infers an empty label map, so [K_t] is 0, and
    the prediction of the fitted model has one row per data point with no
    entry in it; no row sums to 1. *)
Lemma predict_task_proba_no_classes :
  ∃ self' Y,
    train frozen_optimizer (OneMatrix L_abstain) zero_epochs fresh_model = (Ok (), self') ∧
    K_t self' = Some [0] ∧
    predict_task_proba (OneMatrix L_abstain) 0 self' = (Ok Y, self') ∧
    Y = [[]; []] ∧
    ∀ row, row ∈ Y → sumR row ≠ 1%R.
Proof.
  exists model_without_classes, [[]; []]. split_and!.
  - vm_compute. reflexivity.
  - reflexivity.
  - vm_compute. reflexivity.
  - reflexivity.
  - intros row Hrow. assert (row = []) as -> by set_solver.
    rewrite sumR_nil. lra.
Qed.

(** ** More about [_infer_polarity] and [_get_overlaps_matrix] *)

Lemma result_bind_ok_inv {A B} (r : result A) (k : A → result B) b :
  r ≫= k = Ok b → ∃ a, r = Ok a ∧ k a = Ok b.
Proof. destruct r as [a|e]; [|done]. intros Hk. by exists a. Qed.

Lemma infer_polarity_only_error (L_t : csc_matrix) (t j : nat) (e : exn) :
  j + 1 < length (indptr L_t) →
  _infer_polarity L_t t j = Raise e → e = NonUnipolar j t.
Proof.
  intros Hj. unfold _infer_polarity. rewrite (column_vals_stored _ _ Hj). cbn.
  set (X := list_to_set (stored L_t j) : gset Z).
  destruct (decide (1 < size X)); [by intros [= <-]|].
  destruct (decide (size X = 0)) as [|Hne]; [done|].
  unfold index. destruct (elements X) as [|x l] eqn:Hel; [|done].
  exfalso. apply Hne. unfold size, set_size. cbn. by rewrite Hel.
Qed.

(** X1: for a column that exists, the only exception [_infer_polarity] can
    raise is the non-unipolar error, and it raises it exactly when the
    column stores two different values (a stored zero counts as a value). *)
Theorem infer_polarity_error (L_t : csc_matrix) (t j : nat) :
  j + 1 < length (indptr L_t) →
  (_infer_polarity L_t t j = Raise (NonUnipolar j t) ↔
   ∃ v w, v ∈ stored L_t j ∧ w ∈ stored L_t j ∧ v ≠ w) ∧
  ∀ e, _infer_polarity L_t t j = Raise e → e = NonUnipolar j t.
Proof.
  intros Hj. split; [by apply infer_polarity_raises|].
  intros e. by apply infer_polarity_only_error.
Qed.

Lemma infer_polarity_error_witness :
  (_infer_polarity L_bipolar 0 0 = Raise (NonUnipolar 0 0) ↔
   ∃ v w, v ∈ stored L_bipolar 0 ∧ w ∈ stored L_bipolar 0 ∧ v ≠ w) ∧
  ∀ e, _infer_polarity L_bipolar 0 0 = Raise e → e = NonUnipolar 0 0.
Proof. apply (infer_polarity_error L_bipolar 0 0). cbn. lia. Defined.

(** X2: for a column that exists and whose stored values are all equal,
    [_infer_polarity] returns that value, and 0 when nothing is stored. *)
Theorem infer_polarity_value (L_t : csc_matrix) (t j : nat) :
  j + 1 < length (indptr L_t) →
  (∀ v w, v ∈ stored L_t j → w ∈ stored L_t j → v = w) →
  _infer_polarity L_t t j = Ok (default 0%Z (head (stored L_t j))).
Proof. apply infer_polarity_returns. Qed.

Lemma infer_polarity_value_witness :
  _infer_polarity L_example 0 0 = Ok (default 0%Z (head (stored L_example 0))).
Proof.
  apply (infer_polarity_value L_example 0 0).
  - cbn. lia.
  - intros v w. change (stored L_example 0) with [1; 1]%Z. set_solver.
Defined.

(** X3: whatever the input, a matrix returned by [_get_overlaps_matrix] has
    only numbers between -0.95 and 0.95 as entries: no NaN, no infinity. *)
Theorem overlaps_returned_entries_bounded
    (M : nat) (L : csc_matrix) (t : nat) (O : matrix) (i j : nat) (x : fval) :
  _get_overlaps_matrix M L t = Ok O →
  O !! i ≫= (.!! j) = Some x →
  ∃ q, x = Fin q ∧ (-0.95 <= q <= 0.95)%R.
Proof.
  unfold _get_overlaps_matrix. intros Hrun.
  apply result_bind_ok_inv in Hrun as (p & _ & Hrun).
  apply result_bind_ok_inv in Hrun as (O1 & _ & Hrun). cbn in Hrun.
  apply result_bind_ok_inv in Hrun as (O2 & _ & Hrun).
  injection Hrun as <-. unfold clamp_overlaps, nan_to_zero.
  rewrite !list_lookup_fmap. destruct (O2 !! i) as [row|]; [|done]. cbn.
  rewrite !list_lookup_fmap. destruct (row !! j) as [y|]; [|done]. cbn.
  intros [= <-].
  destruct (clamp_repaired (-0.95) 0.95 y) as (q & Hq & Hrange); [lra|].
  by exists q.
Qed.

Lemma overlaps_returned_entries_bounded_witness :
  ∃ O x, _get_overlaps_matrix 3 L_example 0 = Ok O ∧
    O !! 0 ≫= (.!! 1) = Some x ∧
    ∃ q, x = Fin q ∧ (-0.95 <= q <= 0.95)%R.
Proof.
  assert (Hrun : ∃ O, _get_overlaps_matrix 3 L_example 0 = Ok O).
  { eexists. vm_compute. reflexivity. }
  destruct Hrun as [O HO].
  assert (Hx : ∃ x, O !! 0 ≫= (.!! 1) = Some x).
  { revert HO. vm_compute. intros [= <-]. eexists. reflexivity. }
  destruct Hx as [x Hx]. exists O, x. split_and!; [done..|].
  exact (overlaps_returned_entries_bounded 3 L_example 0 O 0 1 x HO Hx).
Defined.

Section symmetry.
Local Open Scope R_scope.

Lemma hits_cons r s S : hits r (s :: S) = ((if decide (r = s) then 1 else 0) + hits r S)%nat.
Proof. done. Qed.

Lemma co_present_cons_l r R S : co_present (r :: R) S = (hits r S + co_present R S)%nat.
Proof. done. Qed.

Lemma co_present_cons_r s R S : co_present R (s :: S) = (hits s R + co_present R S)%nat.
Proof.
  induction R as [|r R IH]; [done|].
  rewrite !co_present_cons_l, IH, !hits_cons.
  destruct (decide (r = s)) as [->|Hne].
  - rewrite decide_True by done. lia.
  - rewrite decide_False by done. lia.
Qed.

Lemma co_present_comm R S : co_present R S = co_present S R.
Proof.
  induction R as [|r R IH].
  - by rewrite co_present_nil_l, co_present_nil_r.
  - by rewrite co_present_cons_l, co_present_cons_r, IH.
Qed.

Lemma overlap_rate_comm L i j : overlap_rate L i j = overlap_rate L j i.
Proof. unfold overlap_rate. by rewrite co_present_comm. Qed.

Lemma normalized_entry_comm L i j : normalized_entry L i j = normalized_entry L j i.
Proof.
  unfold normalized_entry.
  destruct (Req_dec_T (propensity L i) 0), (Req_dec_T (propensity L j) 0); try done.
  rewrite overlap_rate_comm. f_equal. f_equal. ring.
Qed.

Lemma polarity_sign_comm p i j : polarity_sign p i j = polarity_sign p j i.
Proof.
  unfold polarity_sign. destruct (decide (p !! i = p !! j)) as [Heq|Hne].
  - by rewrite decide_True.
  - by rewrite decide_False.
Qed.

Lemma overlaps_entry_comm M L i j : overlaps_entry M L i j = overlaps_entry M L j i.
Proof.
  unfold overlaps_entry, corrected. rewrite normalized_entry_comm, polarity_sign_comm.
  destruct (decide (i = j)) as [->|Hne].
  - by rewrite decide_True.
  - by rewrite decide_False.
Qed.

Lemma overlaps_entry_voting M L i j :
  valid_votes M L → (i < M)%nat → (j < M)%nat → i ≠ j →
  row_indices L i ≠ [] → row_indices L j ≠ [] →
  overlaps_entry M L i j =
  Fin (rclamp (-0.95) 0.95
         ((if decide (polarity L i = polarity L j) then 1 else -1)
          * (overlap_rate L i j / (propensity L i * propensity L j) - 1))).
Proof.
  intros valid Hi Hj Hne Hvi Hvj. unfold overlaps_entry, corrected.
  rewrite decide_False by done. unfold normalized_entry.
  destruct (Req_dec_T (propensity L i) 0) as [Hbi|_];
    [by rewrite (propensity_zero M L valid) in Hbi|].
  destruct (Req_dec_T (propensity L j) 0) as [Hbj|_];
    [by rewrite (propensity_zero M L valid) in Hbj|].
  rewrite (polarity_sign_polarities M L) by done.
  unfold fsub, fadd, fopp, fmul, clamp, rclamp. cbn. do 2 f_equal.
Qed.
End symmetry.

(** X4: on a valid input the matrix returned by [_get_overlaps_matrix] is
    symmetric. *)
Theorem overlaps_symmetric (M : nat) (L : csc_matrix) (t : nat) :
  valid_votes M L →
  ∃ O, _get_overlaps_matrix M L t = Ok O ∧
    ∀ i j, i < M → j < M → mget O i j = mget O j i.
Proof.
  intros valid.
  destruct (overlaps_matrix_entries M L t valid) as (O & HO & _ & Hent).
  exists O. split; [done|]. intros i j Hi Hj.
  by rewrite !Hent, overlaps_entry_comm.
Qed.

Lemma overlaps_symmetric_witness :
  ∃ O, _get_overlaps_matrix 3 L_example 0 = Ok O ∧
    ∀ i j, i < 3 → j < 3 → mget O i j = mget O j i.
Proof.
  apply (overlaps_symmetric 3 L_example 0).
  apply valid_votesb_sound. vm_compute. reflexivity.
Defined.

(** X5: on a valid input, the entry of two distinct sources that both vote
    is [c * (r / (b_i * b_j) - 1)] clamped to [-0.95, 0.95], where [r] is
    the fraction of data points on which both vote, [b_i] and [b_j] are the
    fractions on which each votes, and [c] is 1 for equal polarities and -1
    otherwise. *)
Theorem overlaps_off_diagonal (M : nat) (L : csc_matrix) (t i j : nat) :
  valid_votes M L → i < M → j < M → i ≠ j →
  row_indices L i ≠ [] → row_indices L j ≠ [] →
  ∃ O, _get_overlaps_matrix M L t = Ok O ∧
    mget O i j =
    Ok (Fin (rclamp (-0.95) 0.95
               ((if decide (polarity L i = polarity L j) then 1 else -1)
                * (overlap_rate L i j / (propensity L i * propensity L j) - 1)))%R).
Proof.
  intros valid Hi Hj Hne Hvi Hvj.
  destruct (overlaps_matrix_entries M L t valid) as (O & HO & _ & Hent).
  exists O. split; [done|]. rewrite Hent by done. f_equal.
  by apply overlaps_entry_voting.
Qed.

Lemma overlaps_off_diagonal_witness :
  ∃ O, _get_overlaps_matrix 3 L_example 0 = Ok O ∧
    mget O 0 1 =
    Ok (Fin (rclamp (-0.95) 0.95
               ((if decide (polarity L_example 0 = polarity L_example 1) then 1 else -1)
                * (overlap_rate L_example 0 1
                   / (propensity L_example 0 * propensity L_example 1) - 1)))%R).
Proof.
  apply (overlaps_off_diagonal 3 L_example 0 0 1).
  - apply valid_votesb_sound. vm_compute. reflexivity.
  - lia.
  - lia.
  - lia.
  - vm_compute. discriminate.
  - vm_compute. discriminate.
Defined.

Lemma comprehension_first_error {A B} (f : A → result B) (E : A → exn) (l : list A) :
  (∀ x e, x ∈ l → f x = Raise e → e = E x) →
  (∃ x, x ∈ l ∧ f x = Raise (E x)) →
  ∃ x, x ∈ l ∧ f x = Raise (E x) ∧ comprehension f l = Raise (E x).
Proof.
  induction l as [|y l IH]; intros Honly (x & Hx & Hfx); [set_solver|].
  cbn. destruct (f y) as [b|e] eqn:Hfy.
  - destruct IH as (x' & Hx' & Hfx' & Hrun).
    { intros z e Hz. apply Honly. set_solver. }
    { exists x. split; [|done]. apply elem_of_cons in Hx as [->|Hx]; [|done].
      congruence. }
    exists x'. split_and!; [set_solver|done|]. cbn. by rewrite Hrun.
  - exists y. rewrite (Honly y e) in Hfy |- * by (done || set_solver).
    split_and!; [set_solver|done|done].
Qed.

(** X6: when the matrix has one column offset per labeling function (and the
    closing one) and some labeling function stores two different values,
    [_get_overlaps_matrix] raises the non-unipolar error, naming a labeling
    function that does so. *)
Theorem overlaps_non_unipolar (M : nat) (L : csc_matrix) (t j : nat) :
  length (indptr L) = M + 1 → j < M →
  (∃ v w, v ∈ stored L j ∧ w ∈ stored L j ∧ v ≠ w) →
  ∃ j', j' < M ∧
    (∃ v w, v ∈ stored L j' ∧ w ∈ stored L j' ∧ v ≠ w) ∧
    _get_overlaps_matrix M L t = Raise (NonUnipolar j' t).
Proof.
  intros Hptr Hj Hbad.
  destruct (comprehension_first_error (_infer_polarity L t) (λ j, NonUnipolar j t)
              (seq 0 M)) as (j' & Hj' & Hraise & Hrun).
  - intros x e Hx%elem_of_seq. apply infer_polarity_only_error. lia.
  - exists j. split; [apply elem_of_seq; lia|].
    apply infer_polarity_raises; [lia|done].
  - apply elem_of_seq in Hj'. exists j'. split_and!; [lia| |].
    + apply infer_polarity_raises in Hraise; [done|lia].
    + unfold _get_overlaps_matrix. by rewrite Hrun.
Qed.

Lemma overlaps_non_unipolar_witness :
  ∃ j', j' < 1 ∧
    (∃ v w, v ∈ stored L_bipolar j' ∧ w ∈ stored L_bipolar j' ∧ v ≠ w) ∧
    _get_overlaps_matrix 1 L_bipolar 0 = Raise (NonUnipolar j' 0).
Proof.
  apply (overlaps_non_unipolar 1 L_bipolar 0 0).
  - reflexivity.
  - lia.
  - exists 1%Z, 2%Z. change (stored L_bipolar 0) with [1; 2]%Z.
    split_and!; [set_solver|set_solver|lia].
Defined.

(** ** More about the loss *)

Section loss_facts.
Local Open Scope R_scope.

Lemma sumR_nonneg (l : list R) : Forall (λ x, 0 <= x) l → 0 <= sumR l.
Proof.
  induction 1 as [|x l Hx _ IH]; [rewrite sumR_nil; lra|].
  rewrite sumR_cons. lra.
Qed.

Lemma sumR_zero_iff (l : list R) :
  Forall (λ x, 0 <= x) l → sumR l = 0 ↔ Forall (λ x, x = 0) l.
Proof.
  induction 1 as [|x l Hx Hl IH]; [by rewrite sumR_nil|].
  rewrite sumR_cons, Forall_cons. pose proof (sumR_nonneg l Hl). split.
  - intros Hsum. split; [lra|]. apply IH. lra.
  - intros [-> Hz]. apply IH in Hz. lra.
Qed.

Lemma elem_of_ordered_pairs m i j :
  (i, j) ∈ ordered_pairs m ↔ (i < m)%nat ∧ (j < m)%nat ∧ i ≠ j.
Proof.
  unfold ordered_pairs. rewrite list_elem_of_filter, list_elem_of_bind. cbn. split.
  - intros (Hne & i' & Hin & Hi'%elem_of_seq).
    apply list_elem_of_bind in Hin as (j' & Hin & Hj'%elem_of_seq).
    apply list_elem_of_singleton in Hin as [= -> ->]. lia.
  - intros (Hi & Hj & Hne). split; [done|]. exists i. split; [|apply elem_of_seq; lia].
    apply list_elem_of_bind. exists j. split; [set_solver|apply elem_of_seq; lia].
Qed.

Lemma normalizer_pos m : (2 <= m)%nat → 0 < INR m ^ 2 - INR m.
Proof. intros Hm. apply le_INR in Hm. cbn in Hm. nra. Qed.

Lemma sq_nonneg (x : R) : 0 <= x ^ 2.
Proof. nra. Qed.

Lemma sq_zero (x : R) : x ^ 2 = 0 ↔ x = 0.
Proof. split; [nra|intros ->; ring]. Qed.

(** The value of the loss does not read the diagonal of [o]. *)
Lemma task_loss_value_ext m g o o' g0 l2 :
  (∀ i j, (i < m)%nat → (j < m)%nat → i ≠ j → o i j = o' i j) →
  task_loss_value m g o g0 l2 = task_loss_value m g o' g0 l2.
Proof.
  intros Hext. unfold task_loss_value. do 3 f_equal.
  apply list_fmap_ext. intros k [i j] Hin%list_elem_of_lookup_2.
  apply elem_of_ordered_pairs in Hin as (Hi & Hj & Hne). cbn.
  by rewrite Hext.
Qed.

Lemma task_loss_value_nonneg m g o g0 l2 :
  (2 <= m)%nat → 0 <= task_loss_value m g o g0 l2.
Proof.
  intros Hm. unfold task_loss_value. pose proof (normalizer_pos m Hm) as Hden.
  assert (0 <= sumR ((λ p : nat * nat, (g p.1 * g p.2 - o p.1 p.2) ^ 2) <$> ordered_pairs m)).
  { apply sumR_nonneg, Forall_fmap, Forall_forall. intros p _. apply sq_nonneg. }
  assert (0 <= sumR ((λ i, (g i - g0) ^ 2) <$> seq 0 m)).
  { apply sumR_nonneg, Forall_fmap, Forall_forall. intros p _. apply sq_nonneg. }
  assert (0 <= sumR ((λ p : nat * nat, (g p.1 * g p.2 - o p.1 p.2) ^ 2) <$> ordered_pairs m)
               / (INR m ^ 2 - INR m)).
  { apply Rle_mult_inv_pos; lra. }
  destruct (Rlt_dec 0 l2); nra.
Qed.

Lemma task_loss_value_zero m g o g0 l2 :
  (2 <= m)%nat →
  task_loss_value m g o g0 l2 = 0 ↔
  (∀ i j, (i < m)%nat → (j < m)%nat → i ≠ j → g i * g j = o i j) ∧
  (0 < l2 → ∀ i, (i < m)%nat → g i = g0).
Proof.
  intros Hm. unfold task_loss_value. pose proof (normalizer_pos m Hm) as Hden.
  set (res := (λ p : nat * nat, (g p.1 * g p.2 - o p.1 p.2) ^ 2) <$> ordered_pairs m).
  set (reg := (λ i, (g i - g0) ^ 2) <$> seq 0 m).
  assert (Hres : Forall (λ x, 0 <= x) res).
  { apply Forall_fmap, Forall_forall. intros p _. apply sq_nonneg. }
  assert (Hreg : Forall (λ x, 0 <= x) reg).
  { apply Forall_fmap, Forall_forall. intros p _. apply sq_nonneg. }
  pose proof (sumR_nonneg _ Hres) as Hres0. pose proof (sumR_nonneg _ Hreg) as Hreg0.
  assert (Hres_iff : sumR res = 0 ↔
    ∀ i j, (i < m)%nat → (j < m)%nat → i ≠ j → g i * g j = o i j).
  { rewrite (sumR_zero_iff _ Hres). unfold res. rewrite Forall_fmap, Forall_forall. split.
    - intros Hall i j Hi Hj Hne.
      specialize (Hall (i, j)). unfold compose in Hall; cbn [fst snd] in Hall.
      rewrite sq_zero in Hall. specialize (Hall ltac:(by apply elem_of_ordered_pairs)). lra.
    - intros Hall [i j] (Hi & Hj & Hne)%elem_of_ordered_pairs. unfold compose; cbn [fst snd].
      apply sq_zero. rewrite Hall by done. lra. }
  assert (Hreg_iff : sumR reg = 0 ↔ ∀ i, (i < m)%nat → g i = g0).
  { rewrite (sumR_zero_iff _ Hreg). unfold reg. rewrite Forall_fmap, Forall_forall. split.
    - intros Hall i Hi. specialize (Hall i). unfold compose in Hall; cbn [fst snd] in Hall. rewrite sq_zero in Hall.
      specialize (Hall ltac:(apply elem_of_seq; lia)). lra.
    - intros Hall i Hi%elem_of_seq. unfold compose; cbn [fst snd]. apply sq_zero. rewrite Hall by lia. lra. }
  assert (Hdiv : sumR res / (INR m ^ 2 - INR m) = 0 ↔ sumR res = 0).
  { split; [|intros ->; unfold Rdiv; ring]. intros Hz.
    apply (Rmult_eq_compat_r (INR m ^ 2 - INR m)) in Hz.
    unfold Rdiv in Hz. rewrite Rmult_assoc, Rinv_l in Hz by lra. lra. }
  assert (Hdiv0 : 0 <= sumR res / (INR m ^ 2 - INR m)).
  { apply Rle_mult_inv_pos; lra. }
  rewrite <- Hres_iff, <- Hdiv. destruct (Rlt_dec 0 l2) as [Hl2|Hl2].
  - rewrite <- Hreg_iff. split.
    + intros Hsum. assert (0 <= l2 * sumR reg) by nra. split; [lra|]. intros _. nra.
    + intros [-> Hz]. rewrite (Hz Hl2). ring.
  - split; [intros Hsum; split; [lra|done]|]. intros [-> _]. ring.
Qed.
End loss_facts.

(** X7: in the setting of a trained model (at least two labeling functions,
    [gamma] of shape [T x M], an overlaps matrix of shape [M x M]) the task
    loss is never negative, and it is zero exactly when every product
    [gamma[t,i] * gamma[t,j]] with [i <> j] equals [O_t[i,j]] and, if
    [l2 > 0], every [gamma[t,i]] equals [gamma_init]. *)
Theorem task_loss_nonnegative
    (self : LabelModel) (m Tn : nat) (G : list (list R)) (g0 l2 : R)
    (t : nat) (Or : list (list R)) :
  M self = Some m → gamma self = Some G → gamma_init self = Some g0 →
  has_shape Tn m G → t < Tn → has_shape m m Or → 2 ≤ m →
  ∃ v, _task_loss self (finite Or) t l2 = Ok (Fin v) ∧ (0 <= v)%R ∧
    (v = 0%R ↔
     (∀ i j, i < m → j < m → i ≠ j → (rent G t i * rent G t j)%R = rent Or i j) ∧
     ((0 < l2)%R → ∀ i, i < m → rent G t i = g0)).
Proof.
  intros HM Hg Hg0 HG Ht HO Hm. eexists. split_and!.
  - by apply (task_loss_spec self m Tn G g0 l2 HM Hg Hg0 HG).
  - by apply task_loss_value_nonneg.
  - by apply task_loss_value_zero.
Qed.

Lemma task_loss_nonnegative_witness :
  ∃ v, _task_loss fitted_example (finite [[0.95; 0.5]; [0.5; 0.95]]%R) 0 0.1 = Ok (Fin v) ∧
    (0 <= v)%R ∧
    (v = 0%R ↔
     (∀ i j, i < 2 → j < 2 → i ≠ j →
        (rent [[0.9; -3]] 0 i * rent [[0.9; -3]] 0 j)%R
        = rent [[0.95; 0.5]; [0.5; 0.95]]%R i j) ∧
     ((0 < 0.1)%R → ∀ i, i < 2 → rent [[0.9; -3]%R] 0 i = 0.8%R)).
Proof.
  apply (task_loss_nonnegative fitted_example 2 1 [[0.9; -3]%R] 0.8 0.1 0
           [[0.95; 0.5]; [0.5; 0.95]]%R).
  - reflexivity.
  - reflexivity.
  - reflexivity.
  - split; [reflexivity|]. repeat constructor.
  - lia.
  - split; [reflexivity|]. repeat constructor.
  - lia.
Defined.

(** X8: the task loss does not read the diagonal of the overlaps matrix:
    two overlaps matrices that agree off the diagonal give the same loss. *)
Theorem task_loss_ignores_diagonal
    (self : LabelModel) (m Tn : nat) (G : list (list R)) (g0 l2 : R)
    (t : nat) (Or Or' : list (list R)) :
  M self = Some m → gamma self = Some G → gamma_init self = Some g0 →
  has_shape Tn m G → t < Tn → has_shape m m Or → has_shape m m Or' → 2 ≤ m →
  (∀ i j, i < m → j < m → i ≠ j → rent Or i j = rent Or' i j) →
  _task_loss self (finite Or) t l2 = _task_loss self (finite Or') t l2.
Proof.
  intros HM Hg Hg0 HG Ht HO HO' Hm Hext.
  rewrite !(task_loss_spec self m Tn G g0 l2 HM Hg Hg0 HG) by done.
  do 2 f_equal. by apply task_loss_value_ext.
Qed.

Lemma task_loss_ignores_diagonal_witness :
  _task_loss fitted_example (finite [[0.95; 0.5]; [0.5; 0.95]]%R) 0 0.1 =
  _task_loss fitted_example (finite [[0; 0.5]; [0.5; 7]]%R) 0 0.1.
Proof.
  apply (task_loss_ignores_diagonal fitted_example 2 1 [[0.9; -3]%R] 0.8 0.1 0).
  - reflexivity.
  - reflexivity.
  - reflexivity.
  - split; [reflexivity|]. repeat constructor.
  - lia.
  - split; [reflexivity|]. repeat constructor.
  - split; [reflexivity|]. repeat constructor.
  - lia.
  - intros [|[|i]] [|[|j]] Hi Hj Hne; try lia; reflexivity.
Defined.

(** X9: with fewer than two labeling functions the normalizer [M^2 - M] is
    zero and [_task_loss] raises ZeroDivisionError, whatever the overlaps
    matrix, the task, the weight [l2] and the parameters. *)
Theorem task_loss_needs_two_sources
    (self : LabelModel) (m : nat) (O_t : matrix) (t : nat) (l2 : R) :
  M self = Some m → m ≤ 1 → _task_loss self O_t t l2 = Raise ZeroDivisionError.
Proof.
  intros HM Hm. unfold _task_loss. rewrite HM.
  destruct m as [|[|m]]; [reflexivity|reflexivity|lia].
Qed.

Lemma task_loss_needs_two_sources_witness :
  _task_loss model_after_failure [] 0 0 = Raise ZeroDivisionError.
Proof.
  apply (task_loss_needs_two_sources model_after_failure 1 [] 0 0).
  - reflexivity.
  - lia.
Defined.

(** ** More about [_check_L] *)

(** ** The rules of [wp] *)

Lemma wp_ret {A} (a : A) self Q E : Q a self → wp (mret a) self Q E.
Proof. done. Qed.

Lemma wp_this self Q E : Q self self → wp this self Q E.
Proof. done. Qed.

Lemma wp_assign f self Q E : Q () (f self) → wp (assign f) self Q E.
Proof. done. Qed.

Lemma wp_lift {A} (r : result A) self Q E :
  (∀ a, r = Ok a → Q a self) → (∀ e, r = Raise e → E e self) → wp (lift r) self Q E.
Proof. intros HQ HE. unfold wp, lift. destruct r; auto. Qed.

Lemma wp_bind {A B} (m : method A) (k : A → method B) self Q E :
  wp m self (λ a s, wp (k a) s Q E) E → wp (m ≫= k) self Q E.
Proof.
  unfold wp, mbind, method_bind. by destruct (m self) as [[a|e] s].
Qed.

Lemma wp_mono {A} (m : method A) self (Q Q' : A → LabelModel → Prop) (E E' : exn → LabelModel → Prop) :
  wp m self Q E → (∀ a s, Q a s → Q' a s) → (∀ e s, E e s → E' e s) →
  wp m self Q' E'.
Proof. unfold wp. destruct (m self) as [[a|e] s]; auto. Qed.

Lemma wp_seq {A B} (m : method A) (k : A → method B) self Qmid Q E :
  wp m self Qmid E → (∀ a s, Qmid a s → wp (k a) s Q E) → wp (m ≫= k) self Q E.
Proof.
  intros Hm Hk. apply wp_bind. apply (wp_mono m self Qmid _ E E Hm); auto.
Qed.

Lemma wp_returns {A} (m : method A) self Q E a self' :
  wp m self Q E → m self = (Ok a, self') → Q a self'.
Proof. unfold wp. intros H Hrun. by rewrite Hrun in H. Qed.

Lemma wp_raises {A} (m : method A) self Q E e self' :
  wp m self Q E → m self = (Raise e, self') → E e self'.
Proof. unfold wp. intros H Hrun. by rewrite Hrun in H. Qed.

(** A loop whose body assigns nothing. *)
Lemma wp_for_tasks {A} (l : list A) (body : A → method ()) (P : A → Prop) self E :
  (∀ x, x ∈ l → wp (body x) self (λ _ s, s = self ∧ P x) E) →
  wp (for_tasks l body) self (λ _ s, s = self ∧ Forall P l) E.
Proof.
  induction l as [|x l IH]; intros Hbody; [by split|].
  cbn. apply wp_bind. eapply wp_mono; [apply Hbody; set_solver| |done].
  intros _ s [-> Hx]. cbn. eapply wp_mono; [apply IH| |done].
  - intros y Hy. apply Hbody. set_solver.
  - intros _ s [-> Hl]. split; [done|]. by constructor.
Qed.

Lemma wp_check_or_set_attr {V} `{EqDecision V} name
    (get : LabelModel → option V) (set : V → LabelModel → LabelModel)
    (val : V) (set_val : bool) self E :
  (set_val = false → get self = None → E AttributeError self) →
  (set_val = false → ∀ v, get self = Some v → val ≠ v → E (AttrMismatch name) self) →
  wp (_check_or_set_attr name get set val set_val) self
    (λ _ s, if set_val then s = set val self else s = self ∧ get self = Some val) E.
Proof.
  intros Hnone Hdiff. unfold _check_or_set_attr. destruct set_val; [done|].
  unfold wp, mbind, method_bind, this, lift, attr. cbn.
  destruct (get self) as [v|] eqn:Hget; [|by apply Hnone].
  case_decide as Hv; [by subst|]. by apply (Hdiff eq_refl v).
Qed.

Lemma elem_of_enumerate {A} (l : list A) (t : nat) (x : A) :
  (t, x) ∈ imap pair l ↔ l !! t = Some x.
Proof.
  rewrite elem_of_lookup_imap. split.
  - by intros (i & y & [= -> ->] & Hl).
  - intros Hl. by exists t, x.
Qed.

Lemma set_label_map_same lm self :
  label_map self = Some lm → set_label_map lm self = self.
Proof. destruct self. cbn. by intros ->. Qed.

Lemma set_K_t_same k self : K_t self = Some k → set_K_t k self = self.
Proof. destruct self. cbn. by intros ->. Qed.

Lemma set_M_same m self : M self = Some m → set_M m self = self.
Proof. destruct self. cbn. by intros ->. Qed.

Lemma length_range K : length (range K) = Z.to_nat K.
Proof. unfold range. by rewrite length_fmap, length_seq. Qed.

Lemma all_int_matrices (Os : list votes_object) :
  Forall (λ x, ∃ L, x = IntMatrix L) Os → Os = IntMatrix <$> csc_matrices Os.
Proof.
  unfold csc_matrices. induction 1 as [|x Os [L ->] _ IH]; [done|].
  cbn. by rewrite <- IH.
Qed.

(** The contract of [_check_L]. *)
Lemma check_L_wp L init self :
  wp (_check_L L init) self (checked L init self) (λ e _, check_L_excludes self e).
Proof.
  assert (Hother : ∀ e, e ≠ LabelMapNotInferable → (∀ t, e ≠ CardinalityViolation t) →
            check_L_excludes self e).
  { intros e H1 H2. split; auto. }
  unfold _check_L.
  apply wp_bind, wp_this. apply wp_bind, wp_lift; cycle 1.
  { intros e He. apply Hother; intros; destruct (multitask self), L as [L0|l|x|l];
      unfold index in He; try destruct (l !! 0) as [x0|]; cbn in He;
      try destruct (issparse _); congruence. }
  intros Os HOs. apply check_L_objects in HOs as [-> Hlist].
  set (Os := votes_objects L).
  eapply wp_seq.
  { apply (wp_check_or_set_attr "T" (λ self, Some (T self)) set_T (length Os) false).
    - done.
    - intros _ v _ _. by apply Hother. }
  cbn beta. intros _ s [-> [= HT]].
  apply wp_bind, wp_lift; cycle 1.
  { intros e He. unfold index in He. destruct (Os !! 0); [done|]. injection He as <-.
    by apply Hother. }
  intros x_0 Hx0. assert (Os !! 0 = Some x_0) as Hfirst.
  { unfold index in Hx0. destruct (Os !! 0); [by injection Hx0 as ->|done]. }
  clear Hx0. destruct (shape_of x_0) as [n m] eqn:Hshape.
  eapply wp_seq.
  { apply (wp_check_or_set_attr "M" M set_M m init).
    - intros _ _. by apply Hother.
    - intros _ v _ _. by apply Hother. }
  cbn beta. intros _ s4 Hs4.
  assert (M s4 = Some m ∧ label_map s4 = label_map self ∧ T s4 = T self ∧
          s4 = (if init then set_M m self else self)) as (HM4 & Hlm4 & HT4 & Hs4').
  { destruct init; [by subst|]. by destruct Hs4 as [-> ?]. }
  clear Hs4.
  eapply wp_seq.
  { apply (wp_for_tasks _ _ (λ x, shape_of x.2 = (n, m) ∧ ∃ Lx, x.2 = IntMatrix Lx)).
    intros [t x] Hin.
    destruct (shape_of x) as [n_t m_t] eqn:Hshape_t.
    eapply wp_seq.
    { apply (wp_check_or_set_attr "M" M set_M m_t false).
      - intros _ _. by apply Hother.
      - intros _ v _ _. by apply Hother. }
    cbn beta. intros _ s [-> HMt]. rewrite HM4 in HMt. injection HMt as ->.
    case_decide as Hn.
    { apply wp_lift; [done|]. intros e [= <-]. by apply Hother. }
    destruct x as [Lx|sx|sx].
    - apply wp_ret. split; [done|]. cbn. split; [|by exists Lx].
      cbn in Hshape_t. rewrite Hshape_t. f_equal. by destruct (decide (n_t = n)).
    - apply wp_lift; [done|]. intros e [= <-]. by apply Hother.
    - apply wp_lift; [done|]. intros e [= <-]. by apply Hother. }
  cbn beta. intros _ s [-> Hloop].
  assert (Forall (λ x, shape_of x = (n, m) ∧ ∃ Lx, x = IntMatrix Lx) Os) as Hobjects.
  { apply Forall_forall. intros x [t Ht]%list_elem_of_lookup_1.
    rewrite Forall_forall in Hloop. apply (Hloop (t, x)). by apply elem_of_enumerate. }
  clear Hloop.
  assert (Os = IntMatrix <$> csc_matrices Os) as HOs.
  { apply all_int_matrices. eapply Forall_impl; [exact Hobjects|]. by intros x [_ ?]. }
  assert (csc_matrices Os = task_matrices L) as Htm by apply csc_matrices_objects.
  set (Ls := csc_matrices Os) in *.
  assert (length Ls = T self) as HT'.
  { rewrite HT, HOs. by rewrite length_fmap. }
  assert (Forall (λ L_t, shape L_t = (n, m)) Ls) as Hshapes.
  { rewrite HOs in Hobjects. apply Forall_fmap in Hobjects.
    eapply Forall_impl; [exact Hobjects|]. by intros L_t [? _]. }
  assert (∃ L_0, x_0 = IntMatrix L_0 ∧ Ls !! 0 = Some L_0) as (L_0 & -> & Hfirst').
  { rewrite HOs, list_lookup_fmap in Hfirst.
    destruct (Ls !! 0) as [L_0|]; [|done]. injection Hfirst as <-. by exists L_0. }
  cbn in Hshape.
  apply wp_bind, wp_this.
  eapply (wp_seq _ _ _ (λ _ s7,
     match label_map self with
     | Some lm0 => s7 = s4
     | None => if init then Ls = [L_0] ∧ ∃ K, amax L_0 = Ok K ∧ s7 = set_label_map [range K] s4
               else s7 = s4
     end)).
  { rewrite Hlm4. destruct (label_map self) as [lm0|] eqn:Hlm.
    { rewrite decide_False by (by intros [? _]). by apply wp_ret. }
    destruct init.
    - rewrite decide_True by done. rewrite HT4. case_decide as HTgt.
      + apply wp_lift; [done|]. intros e [= <-]. split.
        * intros HTle. specialize (HTle Hlm). lia.
        * done.
      + unfold index. rewrite Hfirst'. apply wp_bind, wp_lift; [|done].
        intros L_0' [= <-].
        apply wp_bind, wp_lift; cycle 1.
        { intros e He. apply Hother; intros; unfold amax in He;
            repeat case_decide; destruct (data L_0); congruence. }
        intros K HK. apply wp_assign. split; [|by exists K].
        destruct Ls as [|x [|y Ls']]; cbn in HT', Hfirst'; [done| |lia].
        by injection Hfirst' as ->.
    - rewrite decide_False by (by intros [_ ?]). by apply wp_ret. }
  cbn beta. intros _ s7 Hs7.
  apply wp_bind, wp_this.
  eapply (wp_seq _ _ _ (λ lm s, s = s7 ∧ label_map s7 = Some lm ∧
     match label_map self with
     | Some lm0 => lm = lm0
     | None => init = true ∧ Ls = [L_0] ∧ ∃ K, amax L_0 = Ok K ∧ lm = [range K]
     end ∧ s7 = (if init then set_label_map lm (set_M m self) else self))).
  { destruct (label_map self) as [lm0|] eqn:Hlm.
    - subst s7. rewrite Hlm4. apply wp_lift; [|done]. intros lm [= <-].
      split_and!; try done. destruct init; [|done].
      rewrite set_label_map_same; [done|]. by rewrite <- Hs4'.
    - destruct init.
      + destruct Hs7 as (HLs1 & K & HK & ->). cbn.
        split_and!; try done; [by eauto|]. by rewrite Hs4'.
      + subst s7. rewrite Hlm4. apply wp_lift; [done|]. intros e [= <-].
        by apply Hother. }
  cbn beta. clear Hs7. intros lm s (-> & Hlm7 & Hlm & Hs7).
  eapply wp_seq.
  { apply (wp_check_or_set_attr "K_t" K_t set_K_t (length <$> lm) init).
    - intros _ _. by apply Hother.
    - intros _ v _ _. by apply Hother. }
  cbn beta. intros _ s10 Hs10.
  assert (K_t s10 = Some (length <$> lm) ∧
          s10 = checked_model init m lm self) as (HK10 & Hs10').
  { unfold checked_model. destruct init; [by subst|]. destruct Hs10 as [-> ?]. by subst. }
  clear Hs10.
  eapply wp_seq.
  { apply (wp_for_tasks _ _ (λ x, ∃ a labels, amax x.2 = Ok a ∧ lm !! x.1 = Some labels ∧
                                   (a <= Z.of_nat (length labels))%Z)).
    intros [t L_t] Hin. apply elem_of_enumerate in Hin.
    apply wp_bind, wp_lift; cycle 1.
    { intros e He. apply Hother; intros; unfold amax in He;
        repeat case_decide; destruct (data L_t); congruence. }
    intros a Ha. apply wp_bind, wp_this. rewrite HK10. apply wp_bind, wp_lift; [|by intros e [=]].
    intros ks [= <-]. apply wp_bind, wp_lift; cycle 1.
    { intros e He. unfold index in He. destruct ((length <$> lm) !! t); [done|]. injection He as <-.
      by apply Hother. }
    intros k Hk. unfold index in Hk. rewrite list_lookup_fmap in Hk.
    destruct (lm !! t) as [labels|] eqn:Hlabels; [|done]. injection Hk as <-.
    case_decide as Hcard.
    - apply wp_lift; [done|]. intros e [= <-]. split; [done|].
      intros Hnone. exfalso. rewrite Hnone in Hlm.
      destruct Hlm as (_ & HLs1 & K & HK & ->). rewrite HLs1 in Hin.
      destruct t as [|t]; [|done]. injection Hin as ->. injection Hlabels as <-.
      rewrite HK in Ha. injection Ha as ->. rewrite length_range in Hcard. lia.
    - apply wp_ret. split; [done|]. exists a, labels. cbn. split_and!; [done|done|lia]. }
  cbn beta. intros _ s [-> Hcards]. apply wp_ret.
  unfold checked. split_and!; [done|done|]. exists L_0, lm.
  assert (ncols L_0 = m) as Hm by (unfold ncols; by rewrite Hshape).
  rewrite Hm. split_and!; try done.
  - by rewrite Hshape.
  - rewrite Hs10'. unfold checked_model. destruct init; [done|]. by rewrite <- Hs4'.
  - rewrite Hs10'. unfold checked_model. destruct init; [done|]. by rewrite <- Hs7.
  - intros t L_t Ht. rewrite Forall_forall in Hcards.
    apply (Hcards (t, L_t)). by apply elem_of_enumerate.
  - unfold sparse_integer. by rewrite <- Htm.
Qed.

(** X10: without [init] the input check assigns no attribute, and so a
    prediction leaves the model exactly as it was, whether it returns or
    raises. *)
Theorem prediction_reads_only (L : votes_arg) (t : nat) (self : LabelModel) :
  (_check_L L false self).2 = self ∧ (predict_task_proba L t self).2 = self.
Proof.
  split.
  - by apply (keeps_check_L (λ s, s)).
  - apply predict_task_proba_pure.
Qed.

(** X11: what the input check guarantees when it passes without [init]:
    there is one matrix per task, the attributes [M], [label_map] and [K_t]
    are set, [K_t] lists the lengths of the label map, every matrix has
    [M] columns and as many rows as the first one, and no vote of task [t]
    exceeds [K_t[t]]. *)
Theorem check_L_accepts
    (L : votes_arg) (self : LabelModel) (Ls : list csc_matrix) (self' : LabelModel) :
  _check_L L false self = (Ok Ls, self') →
  self' = self ∧ Ls = task_matrices L ∧ length Ls = T self ∧
  ∃ L_0 m lm K,
    Ls !! 0 = Some L_0 ∧
    M self = Some m ∧ label_map self = Some lm ∧ K_t self = Some K ∧
    K = length <$> lm ∧
    ∀ t L_t, Ls !! t = Some L_t →
      ncols L_t = m ∧ nrows L_t = nrows L_0 ∧
      ∃ a k, amax L_t = Ok a ∧ K !! t = Some k ∧ (a <= Z.of_nat k)%Z.
Proof.
  intros Hrun.
  destruct (wp_returns _ _ _ _ _ _ (check_L_wp L false self) Hrun)
    as (HLs & HT & L_0 & lm & Hfirst & Hshapes & Hlm & Hself & HM & Hmap & HK & Hcard & _).
  cbn in Hself. subst self'. split_and!; [done..|].
  exists L_0, (ncols L_0), lm, (length <$> lm). split_and!; [done..|].
  intros t L_t Ht. rewrite Forall_forall in Hshapes.
  assert (shape L_t = shape L_0) as Hshape.
  { apply Hshapes. by eapply list_elem_of_lookup_2. }
  unfold ncols, nrows. rewrite Hshape. split_and!; [done..|].
  destruct (Hcard t L_t Ht) as (a & labels & Ha & Hlabels & Hle).
  exists a, (length labels). split_and!; [done| |done].
  by rewrite list_lookup_fmap, Hlabels.
Qed.

Lemma check_L_accepts_witness :
  fitted_example = fitted_example ∧ [L_pred] = task_matrices (OneMatrix L_pred) ∧
  length [L_pred] = T fitted_example ∧
  ∃ L_0 m lm K,
    [L_pred] !! 0 = Some L_0 ∧
    M fitted_example = Some m ∧ label_map fitted_example = Some lm ∧
    K_t fitted_example = Some K ∧
    K = length <$> lm ∧
    ∀ t L_t, [L_pred] !! t = Some L_t →
      ncols L_t = m ∧ nrows L_t = nrows L_0 ∧
      ∃ a k, amax L_t = Ok a ∧ K !! t = Some k ∧ (a <= Z.of_nat k)%Z.
Proof.
  apply (check_L_accepts (OneMatrix L_pred) fitted_example [L_pred] fitted_example).
  vm_compute. reflexivity.
Defined.

(** X12: what the input check assigns when it passes with [init] on
    matrices in canonical format (no position stored twice): [M] becomes
    the number of columns of the first matrix, a label map that was given
    is kept, a missing one becomes [[0, ..., K-1]] for the largest vote [K]
    of the single task, [K_t] becomes the list of the lengths of the label
    map, and no other attribute changes. *)
Theorem check_L_initialises
    (L : votes_arg) (self : LabelModel) (Ls : list csc_matrix) (self' : LabelModel) :
  Forall canonical (task_matrices L) →
  _check_L L true self = (Ok Ls, self') →
  ∃ L_0 lm,
    task_matrices L !! 0 = Some L_0 ∧
    match label_map self with
    | Some lm0 => lm = lm0
    | None => task_matrices L = [L_0] ∧
              ∃ K, amax L_0 = Ok K ∧ lm = [Z.of_nat <$> seq 0 (Z.to_nat K)]
    end ∧
    self' = {| config := config self; multitask := multitask self;
               label_map := Some lm; T := T self; M := Some (ncols L_0);
               K_t := Some (length <$> lm);
               gamma_init := gamma_init self; gamma := gamma self |}.
Proof.
  intros _ Hrun.
  destruct (wp_returns _ _ _ _ _ _ (check_L_wp L true self) Hrun)
    as (HLs & HT & L_0 & lm & Hfirst & Hshapes & Hlm & Hself & HM & Hmap & HK & Hcard & _).
  subst Ls. exists L_0, lm. split_and!; [done| |done].
  destruct (label_map self); [done|]. by destruct Hlm as (_ & ? & ?).
Qed.

Lemma check_L_initialises_witness :
  ∃ L_0 lm,
    task_matrices (OneMatrix L_example) !! 0 = Some L_0 ∧
    match label_map fresh_model with
    | Some lm0 => lm = lm0
    | None => task_matrices (OneMatrix L_example) = [L_0] ∧
              ∃ K, amax L_0 = Ok K ∧ lm = [Z.of_nat <$> seq 0 (Z.to_nat K)]
    end ∧
    {| config := example_config; multitask := false;
       label_map := Some [[0; 1]%Z]; T := 1; M := Some 3; K_t := Some [2];
       gamma_init := None; gamma := None |} =
    {| config := config fresh_model; multitask := multitask fresh_model;
       label_map := Some lm; T := T fresh_model; M := Some (ncols L_0);
       K_t := Some (length <$> lm);
       gamma_init := gamma_init fresh_model; gamma := gamma fresh_model |}.
Proof.
  apply (check_L_initialises (OneMatrix L_example) fresh_model [L_example]).
  - constructor; [|constructor].
    apply (valid_canonical 3), valid_votesb_sound. vm_compute. reflexivity.
  - vm_compute. reflexivity.
Defined.

(** X13: on a model without a label map and with a single task, which is
    what the constructor makes when no label map is given, the input check
    raises neither the label-map error nor the cardinality error: the
    inferred cardinality is the largest vote. *)
Theorem check_L_inferred_label_map
    (L : votes_arg) (init : bool) (self : LabelModel) :
  label_map self = None → T self ≤ 1 →
  (_check_L L init self).1 ≠ Raise LabelMapNotInferable ∧
  ∀ t, (_check_L L init self).1 ≠ Raise (CardinalityViolation t).
Proof.
  intros Hlm HT. pose proof (check_L_wp L init self) as Hwp. unfold wp in Hwp.
  destruct (_check_L L init self) as [[Ls|e] self']; [done|].
  destruct Hwp as [Hmap Hcard]. cbn. split.
  - intros [= ->]. by apply Hmap.
  - intros t [= ->]. by apply (Hcard Hlm t).
Qed.

Lemma check_L_inferred_label_map_witness :
  (_check_L (OneMatrix L_example) true fresh_model).1 ≠ Raise LabelMapNotInferable ∧
  ∀ t, (_check_L (OneMatrix L_example) true fresh_model).1 ≠ Raise (CardinalityViolation t).
Proof.
  apply (check_L_inferred_label_map (OneMatrix L_example) true fresh_model).
  - reflexivity.
  - vm_compute. lia.
Defined.

(** ** More about [train] *)

Lemma comprehension_length {A B} (f : A → result B) (l : list A) ys :
  comprehension f l = Ok ys → length ys = length l.
Proof.
  revert ys. induction l as [|x l IH]; intros ys; cbn; [by intros [= <-]|].
  destruct (f x) as [y|]; [|done]. cbn.
  destruct (comprehension f l) as [ys'|]; [|done]. cbn.
  intros [= <-]. cbn. f_equal. by apply IH.
Qed.

Lemma task_loss_returns_two_sources self O_t t l2 v :
  _task_loss self O_t t l2 = Ok v → ∃ m, M self = Some m ∧ 2 ≤ m.
Proof.
  unfold _task_loss. destruct (M self) as [m|]; [|done].
  destruct m as [|[|m]]; [done|done|]. intros _. exists (S (S m)). split; [done|lia].
Qed.

Lemma get_loss_returns_two_sources self O l2 v :
  O ≠ [] → get_loss self O l2 = Ok v → ∃ m, M self = Some m ∧ 2 ≤ m.
Proof.
  destruct O as [|O_0 O]; [done|]. intros _. unfold get_loss. cbn.
  destruct (_task_loss self O_0 0 l2) as [l|] eqn:Hloss; [|done].
  intros _. by eapply task_loss_returns_two_sources.
Qed.

(** The training loop assigns [gamma] only, and it does not run a single
    epoch on fewer than two labeling functions. *)
Lemma run_epochs_wp opt c accs_true n : ∀ epoch st O self,
  wp (run_epochs opt c accs_true n epoch st O) self
    (λ _ s, (n = 0 → s = self) ∧
            (0 < n → ∃ G, s = update_gamma G self) ∧
            (0 < n → O ≠ [] → ∃ m, M self = Some m ∧ 2 ≤ m))
    (λ _ _, True).
Proof.
  induction n as [|n IH]; intros epoch st O self.
  { apply wp_ret. split_and!; [done|lia|lia]. }
  cbn. apply wp_bind, wp_this. apply wp_bind, wp_lift; [|done].
  intros loss Hloss. destruct (opt_step opt st O (cfg_l2 c) self) as [st' g].
  apply wp_bind, wp_assign. apply wp_bind, wp_this. apply wp_bind, wp_lift; [|done].
  intros _ _.
  eapply wp_mono; [apply (IH (S epoch) st' O (update_gamma g self))| |done].
  cbn beta. intros _ s (Hzero & Hpos & _). split_and!; [lia| |].
  - intros _. destruct n as [|n].
    + exists g. by apply Hzero.
    + destruct Hpos as [G ->]; [lia|]. by exists G.
  - intros _ HO. by eapply get_loss_returns_two_sources.
Qed.

Lemma init_params_wp g0 self :
  wp (_init_params g0) self
    (λ _ s, ∃ m, M self = Some m ∧
       s = set_gamma g0 (replicate (T self) (replicate m (g0 * 1)%R)) self)
    (λ _ _, True).
Proof.
  unfold _init_params. apply wp_bind, wp_assign. apply wp_bind, wp_this.
  apply wp_bind, wp_lift; [|done].
  intros m Hm. apply wp_assign. exists m. split; [|done].
  cbn in Hm. by destruct (M self) as [m'|]; [injection Hm as ->|].
Qed.

(** The contract of [train] when it returns. *)
Lemma train_wp opt L kwargs self :
  wp (train opt L kwargs) self
    (λ _ self',
       let c := recursive_merge_dicts (config self) kwargs in
       ∃ Ls s G m,
         checked L true (set_config c self) Ls s ∧
         M s = Some m ∧
         self' = set_gamma (cfg_gamma_init c) G s ∧
         (cfg_n_epochs c = 0 →
          G = replicate (T self) (replicate m (cfg_gamma_init c * 1)%R)) ∧
         (0 < cfg_n_epochs c → 2 ≤ m))
    (λ _ _, True).
Proof.
  unfold train. apply wp_bind, wp_assign. apply wp_bind, wp_this.
  set (c := recursive_merge_dicts (config self) kwargs).
  set (s0 := set_config c self).
  eapply wp_seq.
  { eapply wp_mono; [apply (check_L_wp L true s0)|intros Ls s H; exact H|done]. }
  cbn beta. intros Ls s Hchecked. apply wp_bind, wp_this.
  apply wp_bind, wp_lift; [|done]. intros O HO. apply comprehension_length in HO.
  rewrite length_imap in HO.
  assert (O ≠ []) as Hne.
  { destruct Hchecked as (_ & _ & L_0 & _ & Hfirst & _).
    intros ->. by destruct Ls. }
  assert (T s = T self ∧ config s = c) as [HT Hc].
  { destruct Hchecked as (_ & _ & L_0 & lm & _ & _ & _ & -> & _). done. }
  eapply wp_seq; [apply init_params_wp|].
  cbn beta. intros _ s1 (m & HM & ->).
  eapply wp_mono; [apply run_epochs_wp| |done].
  cbn beta. intros _ s2 (Hzero & Hpos & Htwo).
  change (config s0) with c in *.
  destruct (cfg_n_epochs c) as [|n] eqn:Hn.
  - exists Ls, s, (replicate (T s) (replicate m (cfg_gamma_init c * 1)%R)), m.
    split_and!; [done|done| | |].
    + by rewrite Hzero.
    + intros _. by rewrite HT.
    + lia.
  - destruct Hpos as [G ->]; [lia|]. exists Ls, s, G, m.
    split_and!; [done|done|done| |].
    + done.
    + intros _. destruct Htwo as (m' & HM' & Hm'); [lia|done|].
      cbn in HM'. rewrite HM in HM'. by injection HM' as ->.
Qed.

(** X14: when [train] returns, the settings are the merged ones, [M] is
    the number of columns of the first vote matrix, the label map and [K_t]
    are set and consistent, [gamma_init] is the configured start value and
    [gamma] is allocated; the flag [multitask] and [T] are untouched.
    With no epochs, [gamma] is the [T x M] tensor filled with the start
    value. *)
Theorem train_fits
    (opt : Optimizer) (L : votes_arg) (kwargs : train_kwargs)
    (self self' : LabelModel) :
  train opt L kwargs self = (Ok (), self') →
  let c := recursive_merge_dicts (config self) kwargs in
  ∃ L_0 lm G,
    task_matrices L !! 0 = Some L_0 ∧
    config self' = c ∧ multitask self' = multitask self ∧ T self' = T self ∧
    M self' = Some (ncols L_0) ∧
    label_map self' = Some lm ∧ K_t self' = Some (length <$> lm) ∧
    gamma_init self' = Some (cfg_gamma_init c) ∧ gamma self' = Some G ∧
    (cfg_n_epochs c = 0 →
     G = replicate (T self) (replicate (ncols L_0) (cfg_gamma_init c * 1)%R)).
Proof.
  intros Hrun c.
  destruct (wp_returns _ _ _ _ _ _ (train_wp opt L kwargs self) Hrun)
    as (Ls & s & G & m & Hchecked & HM & -> & Hzero & _).
  destruct Hchecked as (-> & _ & L_0 & lm & Hfirst & _ & _ & Hs & HM' & Hlm & HK & _).
  rewrite HM in HM'. injection HM' as ->.
  exists L_0, lm, G. subst s. split_and!; done.
Qed.

Lemma train_fits_witness :
  let c := recursive_merge_dicts (config fresh_model) zero_epochs in
  ∃ L_0 lm G,
    task_matrices (OneMatrix L_abstain) !! 0 = Some L_0 ∧
    config model_without_classes = c ∧
    multitask model_without_classes = multitask fresh_model ∧
    T model_without_classes = T fresh_model ∧
    M model_without_classes = Some (ncols L_0) ∧
    label_map model_without_classes = Some lm ∧
    K_t model_without_classes = Some (length <$> lm) ∧
    gamma_init model_without_classes = Some (cfg_gamma_init c) ∧
    gamma model_without_classes = Some G ∧
    (cfg_n_epochs c = 0 →
     G = replicate (T fresh_model) (replicate (ncols L_0) (cfg_gamma_init c * 1)%R)).
Proof.
  apply (train_fits frozen_optimizer (OneMatrix L_abstain) zero_epochs fresh_model
           model_without_classes).
  vm_compute. reflexivity.
Defined.

(** X15: [train] never returns when it is asked for at least one epoch on
    votes of fewer than two labeling functions: whatever passes the
    validation ends in the division by [M^2 - M = 0] of the first loss. *)
Theorem train_needs_two_sources
    (opt : Optimizer) (L : votes_arg) (kwargs : train_kwargs)
    (self : LabelModel) (L_0 : csc_matrix) :
  task_matrices L !! 0 = Some L_0 → ncols L_0 ≤ 1 →
  0 < cfg_n_epochs (recursive_merge_dicts (config self) kwargs) →
  (train opt L kwargs self).1 ≠ Ok ().
Proof.
  intros Hfirst Hcols Hepochs Hrun.
  destruct (train opt L kwargs self) as [r self'] eqn:Htrain. cbn in Hrun. subst r.
  destruct (wp_returns _ _ _ _ _ _ (train_wp opt L kwargs self) Htrain)
    as (Ls & s & G & m & Hchecked & HM & _ & _ & Htwo).
  destruct Hchecked as (-> & _ & L_0' & lm & Hfirst' & _ & _ & _ & HM' & _).
  rewrite Hfirst in Hfirst'. injection Hfirst' as <-.
  rewrite HM in HM'. injection HM' as ->. specialize (Htwo Hepochs). lia.
Qed.

Lemma train_needs_two_sources_witness :
  (train frozen_optimizer (OneMatrix L_single) no_kwargs fresh_model).1 ≠ Ok ().
Proof.
  apply (train_needs_two_sources frozen_optimizer (OneMatrix L_single) no_kwargs
           fresh_model L_single).
  - reflexivity.
  - vm_compute. lia.
  - vm_compute. lia.
Defined.

(** ** Properties of [predict_proba] *)

Lemma check_L_state L self : (_check_L L false self).2 = self.
Proof. by apply (keeps_check_L (λ s, s)). Qed.

(** On a single-task model the input check sees a matrix and the singleton
    list with that matrix as the same input. *)
Lemma check_L_single_task L L_0 init self :
  multitask self = false → votes_objects L = [IntMatrix L_0] →
  _check_L (OneMatrix L_0) init self = _check_L L init self.
Proof.
  intros Hsingle HL. unfold _check_L.
  cbv beta iota delta [mbind method_bind this lift]. rewrite Hsingle.
  destruct L as [L_0'|l|x|l]; cbn in HL.
  - by injection HL as ->.
  - by rewrite HL.
  - by injection HL as ->.
  - by subst l.
Qed.

(** On a multitask model the input check refuses a single matrix. *)
Lemma check_L_multitask_matrix L_0 init self :
  multitask self = true →
  _check_L (OneMatrix L_0) init self = (Raise AssertionError, self).
Proof.
  intros Hmulti. unfold _check_L.
  cbv beta iota delta [mbind method_bind this lift]. by rewrite Hmulti.
Qed.

(** X16: on a multitask model the body of [predict_proba] never returns:
    when the votes pass the input check, the first call of
    [predict_task_proba] hands a single matrix to the input check, which
    expects a list, and the assertion fails; the model is left as it was. *)
Theorem predict_proba_multitask (L : votes_arg) (self : LabelModel) :
  multitask self = true →
  (∀ Y, (predict_proba L self).1 ≠ Ok Y) ∧
  (∀ Ls, (_check_L L false self).1 = Ok Ls →
         predict_proba L self = (Raise AssertionError, self)).
Proof.
  intros Hmulti.
  assert (Hpass : ∀ Ls, (_check_L L false self).1 = Ok Ls →
            predict_proba L self = (Raise AssertionError, self)).
  { intros Ls Hcheck. pose proof (check_L_state L self) as Hstate.
    destruct (_check_L L false self) as [r s] eqn:Hrun. cbn in Hcheck, Hstate. subst r s.
    destruct (wp_returns _ _ _ _ _ _ (check_L_wp L false self) Hrun)
      as (_ & _ & L_0 & _ & Hfirst & _).
    unfold predict_proba, mbind at 1, method_bind at 1. rewrite Hrun.
    destruct Ls as [|L_0' Ls]; [done|]. cbn.
    unfold mbind at 1, method_bind at 1, predict_task_proba.
    unfold mbind at 1, method_bind at 1.
    by rewrite check_L_multitask_matrix. }
  split; [|done]. intros Y HY.
  destruct (_check_L L false self) as [[Ls|e] s] eqn:Hrun.
  - rewrite (Hpass Ls) in HY; done.
  - unfold predict_proba, mbind, method_bind in HY. by rewrite Hrun in HY.
Qed.

Lemma predict_proba_multitask_witness :
  (∀ Y, (predict_proba (Matrices [L_pred; L_pred]) fitted_multitask).1 ≠ Ok Y) ∧
  (∀ Ls, (_check_L (Matrices [L_pred; L_pred]) false fitted_multitask).1 = Ok Ls →
         predict_proba (Matrices [L_pred; L_pred]) fitted_multitask
         = (Raise AssertionError, fitted_multitask)).
Proof.
  apply (predict_proba_multitask (Matrices [L_pred; L_pred]) fitted_multitask).
  reflexivity.
Defined.

(** X17: on a single-task model with [T = 1] the body of [predict_proba]
    does what [predict_task_proba] does for task 0 and wraps the result in
    a list: both return, or both raise the same exception. *)
Theorem predict_proba_single_task (L : votes_arg) (self : LabelModel) :
  multitask self = false → T self = 1 →
  predict_proba L self = (Y ← predict_task_proba L 0; mret [Y]) self.
Proof.
  intros Hsingle HT. pose proof (check_L_state L self) as Hstate.
  unfold predict_proba, predict_task_proba.
  unfold mbind at 1, method_bind at 1. symmetry.
  unfold mbind at 1 2, method_bind at 1 2. symmetry.
  destruct (_check_L L false self) as [[Ls|e] s] eqn:Hrun; [|done].
  cbn in Hstate. subst s.
  destruct (wp_returns _ _ _ _ _ _ (check_L_wp L false self) Hrun)
    as (HLs & Hlen & L_0 & lm & Hfirst & _ & _ & _ & _ & _ & _ & _ & Hsparse & _).
  destruct Ls as [|L_0' [|L_1 Ls]]; cbn in Hlen, Hfirst; [done| |lia].
  injection Hfirst as ->. cbn.
  unfold mbind at 1, method_bind at 1, predict_task_proba.
  unfold mbind at 1, method_bind at 1.
  rewrite (check_L_single_task L L_0 false self Hsingle)
    by (by rewrite Hsparse, <- HLs).
  rewrite Hrun.
  reflexivity.
Qed.

Lemma predict_proba_single_task_witness :
  predict_proba (OneMatrix L_pred) fitted_example
  = (Y ← predict_task_proba (OneMatrix L_pred) 0; mret [Y]) fitted_example.
Proof.
  apply (predict_proba_single_task (OneMatrix L_pred) fitted_example).
  - reflexivity.
  - reflexivity.
Defined.

(** ** The order of the log-odds and of the predictions *)

Section log_odds_order.
Local Open Scope R_scope.

Lemma rclamp_mono lo hi x y : x <= y → rclamp lo hi x <= rclamp lo hi y.
Proof.
  intros Hxy. unfold rclamp, Rmin, Rmax. repeat destruct (Rle_dec _ _); lra.
Qed.

Lemma rclamp_mirror x :
  rclamp 0.01 0.99 (0.5 * (- x + 1)) = 1 - rclamp 0.01 0.99 (0.5 * (x + 1)).
Proof. unfold rclamp, Rmin, Rmax. repeat destruct (Rle_dec _ _); lra. Qed.

Lemma odds_mono a b :
  0.01 <= a → a <= b → b <= 0.99 → a / (1 - a) <= b / (1 - b).
Proof.
  intros Ha Hab Hb.
  apply (Rmult_le_reg_r ((1 - a) * (1 - b))); [nra|].
  replace (a / (1 - a) * ((1 - a) * (1 - b))) with (a * (1 - b)) by (field; lra).
  replace (b / (1 - b) * ((1 - a) * (1 - b))) with (b * (1 - a)) by (field; lra).
  lra.
Qed.

Lemma log_odds_of_mono g g' : g <= g' → log_odds_of g <= log_odds_of g'.
Proof.
  intros Hg. unfold log_odds_of. cbn zeta.
  pose proof (rclamp_cases 0.01 0.99 (0.5 * (g + 1)) ltac:(lra)) as [Ha _].
  pose proof (rclamp_cases 0.01 0.99 (0.5 * (g' + 1)) ltac:(lra)) as [Ha' _].
  pose proof (rclamp_mono 0.01 0.99 (0.5 * (g + 1)) (0.5 * (g' + 1)) ltac:(lra)) as Hle.
  apply ln_monotone.
  - by apply log_odds_bounded.
  - apply odds_mono; lra.
Qed.

Lemma log_odds_of_0 : log_odds_of 0 = 0.
Proof.
  unfold log_odds_of. cbn zeta.
  destruct (rclamp_cases 0.01 0.99 (0.5 * (0 + 1)) ltac:(lra)) as (_ & _ & Hin & _).
  rewrite Hin by lra.
  replace (1 - 0.5 * (0 + 1)) with 0.5 by lra.
  replace (0.5 * (0 + 1)) with 0.5 by lra.
  unfold Rdiv. rewrite Rinv_r by lra. apply ln_1.
Qed.

Lemma log_odds_of_pos g : 0 < g → 0 < log_odds_of g.
Proof.
  intros Hg. unfold log_odds_of. cbn zeta.
  pose proof (rclamp_cases 0.01 0.99 (0.5 * (g + 1)) ltac:(lra)) as [Ha _].
  pose proof (rclamp_mono 0.01 0.99 (0.5 * (Rmin g 0.5 + 1)) (0.5 * (g + 1))) as Hle.
  destruct (rclamp_cases 0.01 0.99 (0.5 * (Rmin g 0.5 + 1)) ltac:(lra))
    as (_ & _ & Hin & _).
  assert (0 < Rmin g 0.5 <= g ∧ Rmin g 0.5 <= 0.5) as Hmin.
  { unfold Rmin. destruct (Rle_dec _ _); lra. }
  rewrite Hin in Hle by lra. specialize (Hle ltac:(lra)).
  set (a := rclamp 0.01 0.99 (0.5 * (g + 1))) in *.
  rewrite <- ln_1. apply ln_increasing; [lra|].
  apply (Rmult_lt_reg_r (1 - a)); [lra|].
  unfold Rdiv. rewrite Rmult_assoc, Rinv_l by lra. lra.
Qed.

Lemma log_odds_of_opp g : log_odds_of (- g) = - log_odds_of g.
Proof.
  unfold log_odds_of. cbn zeta. rewrite rclamp_mirror.
  pose proof (rclamp_cases 0.01 0.99 (0.5 * (g + 1)) ltac:(lra)) as [Ha _].
  set (a := rclamp 0.01 0.99 (0.5 * (g + 1))) in *.
  rewrite <- ln_Rinv by (by apply log_odds_bounded).
  f_equal. field. lra.
Qed.

Lemma log_odds_of_neg g : g < 0 → log_odds_of g < 0.
Proof.
  intros Hg. pose proof (log_odds_of_pos (- g) ltac:(lra)) as Hpos.
  rewrite log_odds_of_opp in Hpos. lra.
Qed.

Lemma log_odds_of_sign g :
  (0 < log_odds_of g ↔ 0 < g) ∧ (log_odds_of g < 0 ↔ g < 0) ∧
  (log_odds_of g = 0 ↔ g = 0).
Proof.
  pose proof (log_odds_of_pos g). pose proof (log_odds_of_neg g).
  pose proof log_odds_of_0.
  destruct (Rtotal_order g 0) as [Hlt|[->|Hgt]]; split_and!; split; intros; lra.
Qed.
End log_odds_order.

Lemma log_odds_accs_value self G :
  gamma self = Some G →
  log_odds_accs self = Ok (fmap (M := list) (fmap (M := list) log_odds_of) G).
Proof.
  intros Hg. unfold log_odds_accs, accs. rewrite Hg. cbn. f_equal.
  rewrite <- list_fmap_compose. apply list_fmap_ext. intros _ row _. cbn.
  by rewrite <- list_fmap_compose.
Qed.

(** X18: the log-odds weight of a labeling function has the sign of its
    [gamma] (positive, negative or zero together), it does not decrease
    when [gamma] grows, and opposite entries of [gamma] get opposite
    weights. *)
Theorem log_odds_accs_order (self : LabelModel) (G : list (list R)) :
  gamma self = Some G →
  ∃ W, log_odds_accs self = Ok W ∧
    ∀ t i g, mget G t i = Ok g →
      ∃ w, mget W t i = Ok w ∧
        ((0 < w)%R ↔ (0 < g)%R) ∧ ((w < 0)%R ↔ (g < 0)%R) ∧ (w = 0%R ↔ g = 0%R) ∧
        ∀ t' i' g' w', mget G t' i' = Ok g' → mget W t' i' = Ok w' →
          ((g <= g')%R → (w <= w')%R) ∧ (g' = (- g)%R → w' = (- w)%R).
Proof.
  intros Hg. eexists. split; [by apply log_odds_accs_value|].
  intros t i g Hget. exists (log_odds_of g).
  split; [by apply (mget_fmap log_odds_of)|].
  destruct (log_odds_of_sign g) as (Hpos & Hneg & Hzero).
  split_and!; [done..|].
  intros t' i' g' w' Hget' Hw'.
  rewrite (mget_fmap log_odds_of G t' i' g' Hget') in Hw'. injection Hw' as <-.
  split.
  - apply log_odds_of_mono.
  - intros ->. apply log_odds_of_opp.
Qed.

Lemma log_odds_accs_order_witness :
  ∃ W, log_odds_accs fitted_example = Ok W ∧
    ∀ t i g, mget [[0.9; -3]%R] t i = Ok g →
      ∃ w, mget W t i = Ok w ∧
        ((0 < w)%R ↔ (0 < g)%R) ∧ ((w < 0)%R ↔ (g < 0)%R) ∧ (w = 0%R ↔ g = 0%R) ∧
        ∀ t' i' g' w', mget [[0.9; -3]%R] t' i' = Ok g' → mget W t' i' = Ok w' →
          ((g <= g')%R → (w <= w')%R) ∧ (g' = (- g)%R → w' = (- w)%R).
Proof. apply (log_odds_accs_order fitted_example). reflexivity. Defined.

Section preference.
Local Open Scope R_scope.






End preference.




(** ** Votes that the input check accepts *)

Lemma check_L_objects_pass (multi : bool) L L_0 :
  (multi = true → is_list L = true) → sparse_integer L →
  task_matrices L !! 0 = Some L_0 →
  (if multi then
     match L with
     | Matrices l => _ ← index l 0; Ok (IntMatrix <$> l)
     | Objects l => x ← index l 0; if issparse x then Ok l else Raise AssertionError
     | OneMatrix _ | OneObject _ => Raise AssertionError
     end
   else
     match L with
     | Matrices l => Ok (IntMatrix <$> l)
     | Objects l => Ok l
     | OneMatrix L0 => Ok [IntMatrix L0]
     | OneObject x => if issparse x then Ok [x] else Raise AssertionError
     end) = Ok (votes_objects L).
Proof.
  unfold sparse_integer. intros Hlist Hsparse Hfirst.
  destruct multi, L as [L0|l|x|l]; cbn in *; try done;
    try (by specialize (Hlist eq_refl)).
  - unfold index. by rewrite Hfirst.
  - unfold index. rewrite Hsparse, list_lookup_fmap, Hfirst. cbn. by rewrite <- Hsparse.
  - by destruct x.
Qed.

(** The conditions of the input check are sufficient: on votes that meet
    them, [_check_L] returns, and it leaves the model as [checked_model]
    describes. *)
Lemma check_L_complete L init self Ls L_0 lm :
  Ls = task_matrices L →
  sparse_integer L →
  (multitask self = true → is_list L = true) →
  length Ls = T self →
  Ls !! 0 = Some L_0 →
  Forall (λ L_t, shape L_t = shape L_0) Ls →
  (init = false → M self = Some (ncols L_0) ∧ K_t self = Some (length <$> lm)) →
  match label_map self with
  | Some lm0 => lm = lm0
  | None => init = true ∧ T self ≤ 1 ∧ ∃ K, amax L_0 = Ok K ∧ lm = [range K]
  end →
  (∀ t L_t, Ls !! t = Some L_t →
     ∃ a labels, amax L_t = Ok a ∧ lm !! t = Some labels ∧
       (a <= Z.of_nat (length labels))%Z) →
  _check_L L init self = (Ok Ls, checked_model init (ncols L_0) lm self).
Proof.
  intros HLs Hsparse Hform HT Hfirst Hshapes Hattrs Hlm Hcard.
  enough (wp (_check_L L init) self
            (λ r s, r = Ls ∧ s = checked_model init (ncols L_0) lm self)
            (λ _ _, False)) as Hwp.
  { unfold wp in Hwp. destruct (_check_L L init self) as [[r|e] s]; [|done].
    by destruct Hwp as [-> ->]. }
  assert (votes_objects L = IntMatrix <$> Ls) as HOs by (by subst Ls).
  unfold _check_L. apply wp_bind, wp_this.
  rewrite (check_L_objects_pass (multitask self) L L_0) by (by subst Ls).
  apply wp_bind, wp_lift; [|done]. intros Os [= <-]. rewrite HOs.
  eapply wp_seq.
  { apply (wp_check_or_set_attr "T" (λ self, Some (T self)) set_T
             (length (IntMatrix <$> Ls)) false).
    - done.
    - intros _ v [= <-] Hne. apply Hne. by rewrite length_fmap. }
  cbn beta. intros _ s [-> _].
  assert (index (IntMatrix <$> Ls) 0 = Ok (IntMatrix L_0)) as ->.
  { unfold index. by rewrite list_lookup_fmap, Hfirst. }
  apply wp_bind, wp_lift; [|done]. intros x_0 [= <-]. cbn [shape_of].
  unfold ncols in *. destruct (shape L_0) as [n m] eqn:Hshape. cbn [snd] in *.
  eapply wp_seq.
  { apply (wp_check_or_set_attr "M" M set_M m init).
    - intros Hinit Hnone. destruct (Hattrs Hinit) as [HM _]. by rewrite HM in Hnone.
    - intros Hinit v Hv Hne. destruct (Hattrs Hinit) as [HM _].
      rewrite HM in Hv. by injection Hv as <-. }
  cbn beta. intros _ s4 Hs4.
  assert (M s4 = Some m ∧ label_map s4 = label_map self ∧ T s4 = T self ∧
          s4 = (if init then set_M m self else self)) as (HM4 & Hlm4 & HT4 & Hs4').
  { destruct init; [by subst|]. by destruct Hs4 as [-> ?]. }
  clear Hs4.
  eapply wp_seq.
  { apply (wp_for_tasks _ _ (λ _, True)). intros [t x] Hin.
    apply elem_of_enumerate in Hin. rewrite list_lookup_fmap in Hin.
    destruct (Ls !! t) as [L_t|] eqn:Ht; [|done]. injection Hin as <-.
    rewrite Forall_forall in Hshapes. cbn [shape_of].
    rewrite (Hshapes L_t) by (by eapply list_elem_of_lookup_2).
    eapply wp_seq.
    { apply (wp_check_or_set_attr "M" M set_M m false).
      - intros _ Hnone. by rewrite HM4 in Hnone.
      - intros _ v Hv Hne. rewrite HM4 in Hv. by injection Hv as <-. }
    cbn beta. intros _ s [-> _]. rewrite decide_False by (by intros Hn; apply Hn).
    by apply wp_ret. }
  cbn beta. intros _ s [-> _]. rewrite csc_matrices_int. apply wp_bind, wp_this.
  eapply (wp_seq _ _ _ (λ _ s7, label_map s7 = Some lm ∧
            s7 = (if init then set_label_map lm (set_M m self) else self))).
  { rewrite Hlm4, HT4. destruct (label_map self) as [lm0|] eqn:Hmap.
    - subst lm0. rewrite decide_False by (by intros [? _]). apply wp_ret.
      split; [by rewrite Hlm4|]. destruct init; [|done].
      rewrite set_label_map_same; [done|]. by rewrite <- Hs4'.
    - destruct Hlm as (-> & HT1 & K & HK & ->).
      rewrite decide_True by done. rewrite decide_False by lia.
      unfold index. rewrite Hfirst. apply wp_bind, wp_lift; [|done].
      intros L_0' [= <-].
      rewrite HK. apply wp_bind, wp_lift; [|done]. intros K' [= <-].
      apply wp_assign. split; [done|]. by rewrite Hs4'. }
  cbn beta. intros _ s7 [Hlm7 Hs7]. apply wp_bind, wp_this. rewrite Hlm7.
  apply wp_bind, wp_lift; [|done]. intros lm' [= <-].
  eapply wp_seq.
  { apply (wp_check_or_set_attr "K_t" K_t set_K_t (length <$> lm) init).
    - intros Hinit Hnone. destruct (Hattrs Hinit) as [_ HK]. subst init s7.
      by rewrite HK in Hnone.
    - intros Hinit v Hv Hne. destruct (Hattrs Hinit) as [_ HK]. subst init s7.
      rewrite HK in Hv. by injection Hv as <-. }
  cbn beta. intros _ s10 Hs10.
  assert (K_t s10 = Some (length <$> lm) ∧
          s10 = checked_model init m lm self) as (HK10 & Hs10').
  { unfold checked_model. destruct init; [by subst|]. destruct Hs10 as [-> ?]. by subst. }
  clear Hs10.
  eapply wp_seq.
  { apply (wp_for_tasks _ _ (λ _, True)). intros [t L_t] Hin.
    apply elem_of_enumerate in Hin.
    destruct (Hcard t L_t Hin) as (a & labels & Ha & Hlabels & Hle).
    rewrite Ha. apply wp_bind, wp_lift; [|done]. intros a' [= <-].
    apply wp_bind, wp_this. rewrite HK10. apply wp_bind, wp_lift; [|done].
    intros K [= <-]. unfold index. rewrite list_lookup_fmap, Hlabels.
    apply wp_bind, wp_lift; [|done]. intros k [= <-].
    rewrite decide_False by lia. by apply wp_ret. }
  cbn beta. intros _ s [-> _]. by apply wp_ret.
Qed.

(** X20: the conditions of the input check are sufficient as well as
    necessary.  Without [init], the check returns the task matrices and
    leaves the model alone whenever the caller hands over sparse integer
    matrices in canonical format (no position stored twice), a multitask
    model is given a list, there is one matrix per task, all matrices have
    the shape of the first one and [M] columns, the label map is set,
    [K_t] lists the lengths of the label map, and the largest vote of each
    task is at most its cardinality. *)
Theorem check_L_passes
    (L : votes_arg) (self : LabelModel) (L_0 : csc_matrix)
    (lm : list (list Z)) :
  sparse_integer L →
  (multitask self = true → is_list L = true) →
  length (task_matrices L) = T self →
  task_matrices L !! 0 = Some L_0 →
  M self = Some (ncols L_0) →
  Forall (λ L_t, canonical L_t ∧ shape L_t = shape L_0) (task_matrices L) →
  label_map self = Some lm →
  K_t self = Some (length <$> lm) →
  (∀ t L_t, task_matrices L !! t = Some L_t →
     ∃ a labels, amax L_t = Ok a ∧ lm !! t = Some labels ∧
       (a <= Z.of_nat (length labels))%Z) →
  _check_L L false self = (Ok (task_matrices L), self).
Proof.
  intros Hsparse Hform HT Hfirst HM Hshapes Hlm HK Hcard.
  apply (check_L_complete L false self (task_matrices L) L_0 lm); try done.
  - eapply Forall_impl; [exact Hshapes|]. by intros L_t [_ ?].
  - by rewrite Hlm.
Qed.

Lemma check_L_passes_witness :
  _check_L (Matrices [L_pred; L_pred]) false fitted_multitask
  = (Ok (task_matrices (Matrices [L_pred; L_pred])), fitted_multitask).
Proof.
  assert (Hcanonical : canonical L_pred).
  { apply (valid_canonical 2), valid_votesb_sound. vm_compute. reflexivity. }
  apply (check_L_passes (Matrices [L_pred; L_pred]) fitted_multitask L_pred
           [[0; 1]; [0; 1]]%Z).
  - reflexivity.
  - reflexivity.
  - reflexivity.
  - reflexivity.
  - reflexivity.
  - constructor; [split; [exact Hcanonical|reflexivity]|].
    constructor; [split; [exact Hcanonical|reflexivity]|]. constructor.
  - reflexivity.
  - reflexivity.
  - intros [|[|t]] L_t [= <-]; exists 1%Z, [0; 1]%Z; split_and!;
      [reflexivity|reflexivity|cbn; lia|reflexivity|reflexivity|cbn; lia].
Defined.

(** X21: votes on which [train] has returned are accepted by the input
    check of the prediction: on the trained model, [_check_L] without
    [init] returns the task matrices. *)
Theorem train_then_check
    (opt : Optimizer) (L : votes_arg) (kwargs : train_kwargs)
    (self self' : LabelModel) :
  train opt L kwargs self = (Ok (), self') →
  _check_L L false self' = (Ok (task_matrices L), self').
Proof.
  intros Hrun.
  destruct (wp_returns _ _ _ _ _ _ (train_wp opt L kwargs self) Hrun)
    as (Ls & s & G & m & Hchecked & HM & -> & _).
  destruct Hchecked
    as (-> & HT & L_0 & lm & Hfirst & Hshapes & _ & Hs & HM' & Hlm & HK & Hcard
        & Hsparse & Hform).
  apply (check_L_complete L false _ (task_matrices L) L_0 lm); try done.
  - subst s. exact Hform.
  - subst s. exact HT.
  - cbn. by rewrite Hlm.
Qed.

Lemma train_then_check_witness :
  _check_L (OneMatrix L_abstain) false model_without_classes
  = (Ok (task_matrices (OneMatrix L_abstain)), model_without_classes).
Proof.
  apply (train_then_check frozen_optimizer (OneMatrix L_abstain) zero_epochs fresh_model).
  vm_compute. reflexivity.
Defined.

(** ** When [train] returns *)

Lemma overlaps_returned_finite M L t O :
  _get_overlaps_matrix M L t = Ok O →
  O = finite (fmap (M := list) (fmap (M := list) real_part) O).
Proof.
  unfold _get_overlaps_matrix. intros Hrun.
  apply result_bind_ok_inv in Hrun as (p & _ & Hrun).
  apply result_bind_ok_inv in Hrun as (O1 & _ & Hrun). cbn in Hrun.
  apply result_bind_ok_inv in Hrun as (O2 & _ & Hrun).
  injection Hrun as <-. unfold finite, clamp_overlaps, nan_to_zero.
  rewrite <- !list_fmap_compose. apply list_fmap_ext. intros _ row _. cbn.
  rewrite <- !list_fmap_compose. apply list_fmap_ext. intros _ y _. cbn.
  destruct (clamp_repaired (-0.95) 0.95 y) as (q & -> & _); [lra|done].
Qed.

Lemma has_shape_fmap {A B} (f : A → B) n m (X : list (list A)) :
  has_shape n m X → has_shape n m (fmap (M := list) (fmap (M := list) f) X).
Proof.
  intros [Hlen Hrows]. split; [by rewrite length_fmap|].
  apply Forall_fmap. eapply Forall_impl; [exact Hrows|].
  intros row Hrow. cbn. by rewrite length_fmap.
Qed.

Lemma amax_returns L : nrows L * ncols L ≠ 0 → ∃ a, amax L = Ok a.
Proof.
  intros Hne. unfold amax. rewrite decide_False by done.
  destruct (data L); eauto.
Qed.

(** The overlaps matrices of valid votes. *)
Lemma overlaps_of_valid_votes m (Ls : list csc_matrix) : ∀ n,
  Forall (valid_votes m) Ls →
  ∃ Ors, comprehension (λ '(t, L_t), _get_overlaps_matrix m L_t t)
           (imap (λ k, pair (n + k)) Ls) = Ok (finite <$> Ors) ∧
         length Ors = length Ls ∧ Forall (has_shape m m) Ors.
Proof.
  induction Ls as [|L_t Ls IH]; intros n Hvalid.
  { by exists []. }
  apply Forall_cons in Hvalid as [Hv Hvalid].
  destruct (overlaps_matrix_entries m L_t (n + 0) Hv) as (O & HO & Hshape & _).
  destruct (IH (S n) Hvalid) as (Ors & Hrest & Hlen & Hshapes).
  exists (fmap (M := list) (fmap (M := list) real_part) O :: Ors).
  cbn [imap comprehension]. rewrite HO. cbn [mbind result_bind].
  rewrite (imap_ext _ (λ k, pair (S n + k))).
  2: { intros k x _. cbn. f_equal. lia. }
  rewrite Hrest. cbn. split_and!.
  - do 2 f_equal. by eapply overlaps_returned_finite.
  - by rewrite Hlen.
  - constructor; [by apply has_shape_fmap|done].
Qed.

Lemma report_returns self c epoch accs_true :
  config self = c → report_prints c accs_true →
  report self c epoch accs_true = Ok ().
Proof.
  intros <- [Hquiet|[Hat ->]]; unfold report.
  - by rewrite Hquiet.
  - destruct (cfg_verbose (config self)); [|done].
    rewrite decide_False by done. by case_bool_decide.
Qed.

(** The training loop returns on a model with at least two labeling
    functions and parameters of the right shape, when the progress report
    only prints. *)
Lemma run_epochs_returns opt c accs_true m Tn g0 Ors :
  shape_preserving opt → report_prints c accs_true →
  2 ≤ m → length Ors ≤ Tn → Forall (has_shape m m) Ors →
  ∀ n epoch st self G,
    config self = c →
    M self = Some m → gamma self = Some G → gamma_init self = Some g0 →
    has_shape Tn m G →
    ∃ self', run_epochs opt c accs_true n epoch st (finite <$> Ors) self = (Ok (), self').
Proof.
  intros Hopt Hreport Hm Hlen Hshapes.
  induction n as [|n IH]; intros epoch st self G Hc HM Hg Hg0 HG.
  { by eexists. }
  cbn [run_epochs]. unfold mbind at 1, method_bind at 1, this.
  unfold mbind at 1, method_bind at 1, lift.
  assert (∃ v, get_loss self (finite <$> Ors) (cfg_l2 c) = Ok v) as [v ->].
  { eexists. unfold get_loss.
    change (imap pair (finite <$> Ors))
      with (imap (λ k, pair (0 + k)) (finite <$> Ors)).
    by rewrite (get_loss_loop self m Tn G g0 (cfg_l2 c) HM Hg Hg0 HG Ors 0 0%R Hm)
      by (done || lia). }
  pose proof (Hopt st (finite <$> Ors) (cfg_l2 c) self G Tn m Hg HG) as Hstep.
  destruct (opt_step opt st (finite <$> Ors) (cfg_l2 c) self) as [st' g].
  unfold mbind at 1, method_bind at 1, assign.
  unfold mbind at 1, method_bind at 1, this.
  unfold mbind at 1, method_bind at 1, lift.
  rewrite (report_returns (update_gamma g self) c epoch accs_true) by done.
  by apply (IH (S epoch) st' (update_gamma g self) g).
Qed.

(** X22: [train] returns on valid votes when the progress report only
    prints.  The votes are valid when the caller hands over sparse integer
    matrices, a multitask model is given a list, there is one matrix per
    task, the matrices have the same shape, at least two columns and are
    valid for [_get_overlaps_matrix] (canonical, unipolar, no stored zero),
    and when either the label map is given and no vote of a task exceeds
    the length of its entry, or the label map is missing and the model has
    one task.  The report only prints when [verbose] is off, or [print_at]
    is not zero and no [accs] are given.  The optimizer, once constructed,
    is any one that keeps the shape of the parameters. *)
Theorem train_returns
    (opt : Optimizer) (L : votes_arg) (kwargs : train_kwargs)
    (self : LabelModel) (L_0 : csc_matrix) :
  shape_preserving opt →
  report_prints (recursive_merge_dicts (config self) kwargs) (kw_accs kwargs) →
  sparse_integer L →
  (multitask self = true → is_list L = true) →
  length (task_matrices L) = T self →
  task_matrices L !! 0 = Some L_0 →
  2 ≤ ncols L_0 →
  Forall (λ L_t, shape L_t = shape L_0 ∧ valid_votes (ncols L_0) L_t)
    (task_matrices L) →
  match label_map self with
  | Some lm =>
      ∀ t L_t, task_matrices L !! t = Some L_t →
        ∃ a labels, amax L_t = Ok a ∧ lm !! t = Some labels ∧
          (a <= Z.of_nat (length labels))%Z
  | None => T self ≤ 1
  end →
  ∃ self', train opt L kwargs self = (Ok (), self').
Proof.
  intros Hopt Hreport Hsparse Hform HT Hfirst Hcols Hvalid Hlabels.
  set (c := recursive_merge_dicts (config self) kwargs) in *.
  set (s0 := set_config c self).
  assert (∃ a, amax L_0 = Ok a) as [K HK].
  { rewrite Forall_forall in Hvalid.
    destruct (Hvalid L_0) as [_ [[Hrows _ _] _ _ _]]; [by eapply list_elem_of_lookup_2|].
    apply amax_returns. nia. }
  set (lm := match label_map self with Some lm => lm | None => [range K] end).
  assert (Hcheck : _check_L L true s0
                   = (Ok (task_matrices L), checked_model true (ncols L_0) lm s0)).
  { apply (check_L_complete L true s0 (task_matrices L) L_0 lm); try done.
    - eapply Forall_impl; [exact Hvalid|]. by intros L_t [? _].
    - unfold lm. change (label_map s0) with (label_map self).
      destruct (label_map self); [done|]. split_and!; [done|done|by exists K].
    - unfold lm. destruct (label_map self) as [lm0|]; [done|].
      intros t L_t Ht.
      destruct (task_matrices L) as [|x [|y l]]; cbn in HT, Hfirst; [done| |lia].
      injection Hfirst as ->. destruct t as [|t]; [|done]. injection Ht as <-.
      exists K, (range K). split_and!; [done..|]. rewrite length_range. lia. }
  set (s := checked_model true (ncols L_0) lm s0) in *.
  destruct (overlaps_of_valid_votes (ncols L_0) (task_matrices L) 0)
    as (Ors & HO & Hlen & Hshapes).
  { eapply Forall_impl; [exact Hvalid|]. by intros L_t [_ ?]. }
  destruct (run_epochs_returns opt c (kw_accs kwargs) (ncols L_0) (T self)
              (cfg_gamma_init c) Ors
              Hopt Hreport Hcols ltac:(lia) Hshapes (cfg_n_epochs c) 0 (opt_init opt)
              (set_gamma (cfg_gamma_init c)
                 (replicate (T self) (replicate (ncols L_0) (cfg_gamma_init c * 1)%R)) s)
              (replicate (T self) (replicate (ncols L_0) (cfg_gamma_init c * 1)%R)))
    as [self' Hrun]; [done..| |].
  { split; [by rewrite length_replicate|].
    apply Forall_replicate. by rewrite length_replicate. }
  exists self'. unfold train.
  unfold mbind at 1, method_bind at 1, assign.
  unfold mbind at 1, method_bind at 1, this.
  fold c. fold s0. unfold mbind at 1, method_bind at 1. rewrite Hcheck.
  unfold mbind at 1, method_bind at 1, this.
  unfold mbind at 1, method_bind at 1, lift.
  change (M s) with (Some (ncols L_0)). cbn [attr mbind result_bind].
  change (imap pair (task_matrices L))
    with (imap (λ k, pair (0 + k)) (task_matrices L)).
  rewrite HO.
  unfold mbind at 1, method_bind at 1, _init_params.
  unfold mbind at 1, method_bind at 1, assign.
  unfold mbind at 1, method_bind at 1, this.
  unfold mbind at 1, method_bind at 1, lift.
  change (M (set_gamma_init (cfg_gamma_init (config s0)) s)) with (Some (ncols L_0)).
  cbn [attr].
  exact Hrun.
Qed.

Lemma train_returns_witness :
  ∃ self', train frozen_optimizer (OneMatrix L_example) no_kwargs fresh_model
           = (Ok (), self').
Proof.
  apply (train_returns frozen_optimizer (OneMatrix L_example) no_kwargs fresh_model
           L_example).
  - intros st O l2 self G n m HG Hshape. cbn. by rewrite HG.
  - left. reflexivity.
  - reflexivity.
  - discriminate.
  - reflexivity.
  - reflexivity.
  - vm_compute. lia.
  - constructor; [|constructor]. split; [reflexivity|].
    apply valid_votesb_sound. vm_compute. reflexivity.
  - vm_compute. lia.
Defined.
